(** * Wave function collapse: a shallow embedding of [wave_function_collapse.py]

  The development follows the layout of the Python module: raster images
  (the part of PIL the module calls), [Tile], [TileSet], [neighbors] and
  [generate_image] with its inner procedure [place].  Python dictionaries
  whose iteration order is never observed are finite maps, the [frontier]
  dictionary (whose insertion order decides [min]) is an association list,
  Python sets are finite sets together with an explicit iteration order. *)

From Stdlib Require Import QArith.
From stdpp Require Import gmap strings list fin_maps sorting lexico.

Local Open Scope Z_scope.

(** ** Raster images *)

Module Image.

(** A pixel value as returned by [getpixel]. *)
Definition pixel := Z.

(** An image is the list of its rows, top row first. *)
Definition t := list (list pixel).

Definition height (img : t) : nat := length img.
Definition width (img : t) : nat := length (hd [] img).

(** [img.getpixel((col, row))] *)
Definition getpixel (img : t) (col row : nat) : pixel :=
  nth col (nth row img []) 0.

(** A fresh image of the given size, filled pixel by pixel. *)
Definition make (w h : nat) (f : nat → nat → pixel) : t :=
  map (λ row, map (λ col, f col row) (seq 0 w)) (seq 0 h).

(** Every row has the width of the image. *)
Definition wf (img : t) : Prop :=
  Forall (λ row, length row = width img) img.

Definition square (img : t) : Prop := wf img ∧ width img = height img.

(** [ImageOps.mirror]: flip left to right. *)
Definition mirror (img : t) : t := map (@rev pixel) img.

(** [Image.transpose] with [ROTATE_90], [ROTATE_180], [ROTATE_270]
    (counter-clockwise quarter turns). *)
Definition rotate_90 (img : t) : t :=
  make (height img) (width img)
       (λ col row, getpixel img (width img - 1 - row) col).
Definition rotate_180 (img : t) : t :=
  make (width img) (height img)
       (λ col row, getpixel img (width img - 1 - col) (height img - 1 - row)).
Definition rotate_270 (img : t) : t :=
  make (height img) (width img)
       (λ col row, getpixel img row (height img - 1 - col)).

Section Rotate.
(** For quarter turns of an image that is not square, [Image.rotate]
    leaves its fast paths and resamples into a canvas of the old size;
    that path of the library is a parameter. *)
Variable resample : Z → t → t.

(** [img.rotate(angle)], no [expand], no [center], no [translate]. *)
Definition rotate (img : t) (angle : Z) : t :=
  let angle := angle mod 360 in
  if decide (angle = 0) then img
  else if decide (angle = 180) then rotate_180 img
  else if decide ((angle = 90 ∨ angle = 270) ∧ width img = height img)
       then (if decide (angle = 90) then rotate_90 img else rotate_270 img)
  else resample angle img.
End Rotate.

(** The resampling [Image.rotate] does by default, for the quarter turns of
    an image that is not square: an affine map about the centre
    [(w / 2, h / 2)] with the nearest source pixel taken at pixel centres
    (coordinates rounded down), into a canvas of the size of the image;
    where the source falls outside the image the canvas keeps its fill, 0.
    No other angle reaches this path from [Tile.__init__]. *)
Definition nearest (angle : Z) (img : t) : t :=
  let w := Z.of_nat (width img) in
  let h := Z.of_nat (height img) in
  let from (xin yin : Z) : pixel :=
    if decide ((0 ≤ xin ∧ xin < w) ∧ (0 ≤ yin ∧ yin < h))
    then getpixel img (Z.to_nat xin) (Z.to_nat yin)
    else 0 in
  if decide (angle = 90) then
    make (width img) (height img)
         (λ col row, from ((w + h - 1 - 2 * Z.of_nat row) `div` 2)
                          ((h - w + 1 + 2 * Z.of_nat col) `div` 2))
  else if decide (angle = 270) then
    make (width img) (height img)
         (λ col row, from ((w - h + 1 + 2 * Z.of_nat row) `div` 2)
                          ((w + h - 1 - 2 * Z.of_nat col) `div` 2))
  else img.

End Image.

(** ** Tiles *)

(** A resolved path, as the sequence of its parts. *)
Definition Path := list string.

(** An edge signature: the pixels along one edge. *)
Definition Border := list Image.pixel.

Record Tile := mkTile {
path : Path;
reflected : bool;
rotation : Z;
}.

(** [Tile.args] *)
Definition args (t : Tile) : Path * bool * Z := (path t, reflected t, rotation t).

Global Instance Tile_eq_dec : EqDecision Tile.
Proof. solve_decision. Defined.

Global Instance Tile_countable : Countable Tile.
Proof.
refine (inj_countable' args (λ a, mkTile a.1.1 a.1.2 a.2) _).
by intros [].
Defined.

Section Tiles.
(** The files behind the paths ([Image.open]) and the resampling path of
    [Image.rotate]. *)
Variable open : Path → Image.t.
Variable resample : Z → Image.t → Image.t.

(** [Tile.image], as computed by [Tile.__init__]. *)
Definition image (t : Tile) : Image.t :=
  let img := open (path t) in
  let img := if reflected t then Image.mirror img else img in
  Image.rotate resample img (rotation t * 90).

(** [Tile.width] and [Tile.height] *)
Definition Tile_width (t : Tile) : nat := Image.width (image t).
Definition Tile_height (t : Tile) : nat := Image.height (image t).

(** [Tile.borders]: top, left, bottom, right. *)
Definition borders (t : Tile) : Border * Border * Border * Border :=
  (map (λ col, Image.getpixel (image t) col 0) (seq 0 (Tile_width t)),
   map (λ row, Image.getpixel (image t) 0 row) (seq 0 (Tile_height t)),
   map (λ col, Image.getpixel (image t) col (Tile_height t - 1)) (seq 0 (Tile_width t)),
   map (λ row, Image.getpixel (image t) (Tile_width t - 1) row) (seq 0 (Tile_height t))).

(** [tile.borders[side]] for a side in [range(4)]. *)
Definition border (t : Tile) (side : nat) : Border :=
  match side with
  | 0%nat => (borders t).1.1.1
  | 1%nat => (borders t).1.1.2
  | 2%nat => (borders t).1.2
  | _ => (borders t).2
  end.
End Tiles.


(** *** The order of tiles

  [Tile.__lt__] compares the [args] tuples: paths part by part (strings by
  code point), then [False < True], then the rotations. *)

Definition string_codes (s : string) : list N :=
map Ascii.N_of_ascii (String.list_ascii_of_string s).

Definition sort_key (t : Tile) : list (list N) * bool * Z :=
(map string_codes (path t), reflected t, rotation t).

Definition Tile_lt (t1 t2 : Tile) : Prop := lexico (sort_key t1) (sort_key t2).

(** [not (t2 < t1)], the comparison a sort arranges neighbours by. *)
Definition Tile_le (t1 t2 : Tile) : Prop := Tile_lt t1 t2 ∨ t1 = t2.

Global Instance Tile_lt_dec : RelDecision Tile_lt.
Proof. intros t1 t2. unfold Tile_lt. apply _. Defined.

Global Instance Tile_le_dec : RelDecision Tile_le.
Proof. intros t1 t2. unfold Tile_le. apply _. Defined.

(** ** Errors raised by the module *)

Definition Coord := (Z * Z)%type.

Inductive Error :=
| TilesNotSameSize                 (* ValueError('Tiles are not of the same size') *)
| ConstraintFailure (c : Coord)    (* ValueError(f'Constraint failure at {c}') *)
| EmptyFrontier                    (* min() of an empty sequence *)
| ChoiceFailure                    (* rng.choice / rng.choices rejected its arguments *)
| KeyError (t : Tile).             (* tiles[tile] for an unregistered tile *)

(** ** Tile sets *)

(** The four [defaultdict(set)] of [border_map] are one finite map keyed by
  side and border; a key is present when the dictionary of that side has
  the border as a key. *)
Record TileSet := mkTileSet {
tiles : gmap Tile Q;
border_map : gmap (nat * Border) (gset Tile);
tile_width : option nat;
tile_height : option nat;
}.

(** [TileSet()] *)
Definition TileSet_new : TileSet := mkTileSet ∅ ∅ None None.

Section TileSets.
Variable open : Path → Image.t.
Variable resample : Z → Image.t → Image.t.
(** The order in which this process iterates over a set of tiles (it
    depends on the hashes of the paths). *)
Variable set_iter : gset Tile → list Tile.

Local Abbreviation image := (image open resample).
Local Abbreviation border := (border open resample).

(** [sorted(s)] for a set, or the keys of a dictionary, of tiles. *)
Definition sorted (s : gset Tile) : list Tile := merge_sort Tile_le (set_iter s).

(** The eight transforms in the order of the two nested loops. *)
Definition transforms : list (bool * Z) :=
  reflection ← [false; true]; rotation ← [0; 1; 2; 3]; [(reflection, rotation)].

(** The body of the nested loops of [add_tile]: [exists] and [tiles]. *)
Definition add_variant (p : Path) (acc : list Image.t * gset Tile)
    (tr : bool * Z) : list Image.t * gset Tile :=
  let tile := mkTile p tr.1 tr.2 in
  if decide (image tile ∈ acc.1) then acc
  else (acc.1 ++ [image tile], {[tile]} ∪ acc.2).

Definition variants (p : Path) : list Image.t * gset Tile :=
  foldl (add_variant p) ([], ∅) transforms.

(** [self.border_map[side][b].add(tile)] *)
Definition border_map_add (side : nat) (b : Border) (tile : Tile)
    (bm : gmap (nat * Border) (gset Tile)) : gmap (nat * Border) (gset Tile) :=
  <[(side, b) := {[tile]} ∪ default ∅ (bm !! (side, b))]> bm.

(** The body of the second loop of [add_tile]. *)
Definition register (w : Q) (ts : TileSet) (tile : Tile) : TileSet :=
  mkTileSet (<[tile := w]> (tiles ts))
            (foldl (λ bm side, border_map_add side (border tile side) tile bm)
                   (border_map ts) (seq 0 4))
            (tile_width ts) (tile_height ts).

Definition add_tile (ts : TileSet) (p : Path) (weight : Q) : Error + TileSet :=
  let img := open p in
  let checked :=
    match tile_width ts with
    | None => inr (mkTileSet (tiles ts) (border_map ts)
                             (Some (Image.width img)) (Some (Image.height img)))
    | Some w => if decide (Image.width img ≠ w) then inl TilesNotSameSize
                else inr ts
    end in
  match checked with
  | inl e => inl e
  | inr ts =>
      let tiles := (variants p).2 in
      inr (foldl (register (weight / inject_Z (Z.of_nat (size tiles)))%Q) ts (sorted tiles))
  end.

(** [get_weight] *)
Definition get_weight (ts : TileSet) (tile : Tile) : Error + Q :=
  match tiles ts !! tile with
  | Some w => inr w
  | None => inl (KeyError tile)
  end.

(** [match_border]: the lookup in a [defaultdict] stores an empty set under
    a key it does not find; the result is a copy of the set found. *)
Definition match_border (ts : TileSet) (b : Border) (side : nat) : gset Tile * TileSet :=
  match border_map ts !! (side, b) with
  | Some s => (s, ts)
  | None => (∅, mkTileSet (tiles ts) (<[(side, b) := ∅]> (border_map ts))
                          (tile_width ts) (tile_height ts))
  end.

(** Successive [add_tile] calls on a fresh tile set, as [main] makes them. *)
Definition load (catalog : list (Path * Q)) : Error + TileSet :=
  foldl (λ acc pw, match acc with
                   | inl e => inl e
                   | inr ts => add_tile ts pw.1 pw.2
                   end) (inr TileSet_new) catalog.
End TileSets.


(** ** Grid geometry *)

(** [enumerate(l)] *)
Definition enumerate {A} (l : list A) : list (nat * A) := zip (seq 0 (length l)) l.

(** [neighbors(coord, width, height)]: the generator's items in order. *)
Definition neighbors (coord : Coord) (width height : Z) : list (nat * Coord) :=
flat_map (λ item : nat * (Z * Z),
            let row := coord.1 + item.2.1 in
            let col := coord.2 + item.2.2 in
            if decide ((0 ≤ row ∧ row < height) ∧ (0 ≤ col ∧ col < width))
            then [(item.1, (row, col))] else [])
         (enumerate [(-1, 0); (0, -1); (1, 0); (0, 1)]).

(** ** The state of a generation *)

(** [placed] and [frontier] of [generate_image], and the tile set, which a
    lookup in [match_border] may extend.  [frontier] keeps the insertion
    order of the dictionary. *)
Record State := mkState {
  placed : gmap Coord Tile;
  frontier : list (Coord * gset Tile);
  tileset : TileSet;
}.

Inductive Outcome :=
  | Return                (* the call returned *)
  | Raise (e : Error)     (* the call raised *)
  | Diverge.              (* the fuel of the model ran out *)

(** [frontier[c]] when [c in frontier]. *)
Fixpoint frontier_get (fr : list (Coord * gset Tile)) (c : Coord) : option (gset Tile) :=
  match fr with
  | [] => None
  | e :: fr => if decide (e.1 = c) then Some e.2 else frontier_get fr c
  end.

(** [frontier.pop(c, None)] *)
Definition frontier_pop (fr : list (Coord * gset Tile)) (c : Coord) : list (Coord * gset Tile) :=
filter (λ e, e.1 ≠ c) fr.

(** [frontier[c].intersection_update(s)]: the entry keeps its position. *)
Definition frontier_intersection_update (fr : list (Coord * gset Tile)) (c : Coord)
    (s : gset Tile) : list (Coord * gset Tile) :=
map (λ e, if decide (e.1 = c) then (e.1, e.2 ∩ s) else e) fr.

(** [frontier[c] = s] for a new key: the entry goes last. *)
Definition frontier_new (fr : list (Coord * gset Tile)) (c : Coord)
    (s : gset Tile) : list (Coord * gset Tile) :=
fr ++ [(c, s)].

(** A [for] loop whose body may raise. *)
Fixpoint for_each {A} (body : State → A → Outcome * State) (st : State) (l : list A)
    : Outcome * State :=
  match l with
  | [] => (Return, st)
  | x :: l =>
      match body st x with
      | (Return, st) => for_each body st l
      | r => r
      end
  end.

(** [min(frontier.items(), key=lambda pair: len(pair[1]))]: the running
    minimum is replaced only by a strictly smaller item. *)
Definition frontier_min (fr : list (Coord * gset Tile)) : option (Coord * gset Tile) :=
match fr with
| [] => None
| e :: fr => Some (foldl (λ best item, if decide (size item.2 < size best.2)%nat
                                       then item else best) e fr)
end.

Section Generate.
Variable open : Path → Image.t.
Variable resample : Z → Image.t → Image.t.
Variable set_iter : gset Tile → list Tile.

(** The random generator: its states, [Random(seed)], [rng.choice(seq)] and
    [rng.choices(population, weights=weights)[0]]; [None] when the call
    raises. *)
Variable RngState : Type.
Variable Random : Z → RngState.
Variable rng_choice : RngState → list Tile → option Tile * RngState.
Variable rng_choices : RngState → list Tile → list Q → option Tile * RngState.

Local Abbreviation border := (border open resample).
Local Abbreviation sorted := (sorted set_iter).

(** The set [match_border] returns for the neighbour on [side] of a tile. *)
Definition candidates (st : State) (tile : Tile) (side : nat) : gset Tile :=
(match_border (tileset st) (border tile side) ((side + 2) mod 4)%nat).1.

Section Grid.
Variables width height : Z.

(** The body of the loop of [place]. *)
Definition place_neighbor (tile : Tile) (st : State) (item : nat * Coord)
    : Outcome * State :=
let side := item.1 in
let frontier_coord := item.2 in
if decide (is_Some (placed st !! frontier_coord)) then (Return, st)
else
  let '(valid_tiles, ts) :=
    match_border (tileset st) (border tile side) ((side + 2) mod 4)%nat in
  let fr :=
    match frontier_get (frontier st) frontier_coord with
    | Some _ => frontier_intersection_update (frontier st) frontier_coord valid_tiles
    | None => frontier_new (frontier st) frontier_coord valid_tiles
    end in
  let st := mkState (placed st) fr ts in
  if decide (size (default ∅ (frontier_get fr frontier_coord)) = 0%nat)
  then (Raise (ConstraintFailure frontier_coord), st)
  else (Return, st).

(** [place(coord, tile, placed, frontier)] *)
Definition place (coord : Coord) (tile : Tile) (st : State) : Outcome * State :=
for_each (place_neighbor tile)
         (mkState (<[coord := tile]> (placed st)) (frontier_pop (frontier st) coord)
                  (tileset st))
         (neighbors coord width height).

(** [[tileset.get_weight(tile) for tile in possibilities]] *)
Fixpoint get_weights (ts : TileSet) (possibilities : list Tile) : Error + list Q :=
  match possibilities with
  | [] => inr []
  | tile :: possibilities =>
      match get_weight ts tile with
      | inl e => inl e
      | inr w =>
          match get_weights ts possibilities with
          | inl e => inl e
          | inr ws => inr (w :: ws)
          end
      end
  end.

(** The body of the [while] loop. *)
Definition step (st : State) (rng : RngState) : Outcome * State * RngState :=
match frontier_min (frontier st) with
| None => (Raise EmptyFrontier, st, rng)
| Some (coord, possibilities) =>
    let possibilities := sorted possibilities in
    match get_weights (tileset st) possibilities with
    | inl e => (Raise e, st, rng)
    | inr weights =>
        match rng_choices rng possibilities weights with
        | (None, rng) => (Raise ChoiceFailure, st, rng)
        | (Some tile, rng) => (place coord tile st, rng)
        end
    end
end.

(** [while len(placed) < width * height: ...] *)
Fixpoint loop (fuel : nat) (st : State) (rng : RngState) : Outcome * State * RngState :=
  if decide (Z.of_nat (size (placed st)) < width * height) then
    match fuel with
    | O => (Diverge, st, rng)
    | S fuel =>
        match step st rng with
        | (Return, st, rng) => loop fuel st rng
        | r => r
        end
    end
  else (Return, st, rng).

(** [for coord, tile in seed.items(): place(coord, tile, placed, frontier)] *)
Definition place_seeds (seed : list (Coord * Tile)) (st : State) : Outcome * State :=
for_each (λ st item, place item.1 item.2 st) st seed.

(** [generate_image(width, height, tileset, seed, rng)] up to the call of
    [save_image]; the state at the end holds [placed]. *)
Definition generate_image (ts : TileSet) (seed : option (list (Coord * Tile)))
    (rng : option RngState) : Outcome * State * RngState :=
let rng := default (Random 8675309) rng in
let st := mkState ∅ [] ts in
let '(seed, rng) :=
  match seed with
  | Some seed => (Some seed, rng)
  | None =>
      match rng_choice rng (sorted (dom (tiles ts))) with
      | (Some tile, rng) => (Some [((0, 0), tile)], rng)
      | (None, rng) => (None, rng)
      end
  end in
match seed with
| None => (Raise ChoiceFailure, st, rng)
| Some seed =>
    match place_seeds seed st with
    | (Return, st) => loop (Z.to_nat (width * height)) st rng
    | (r, st) => (r, st, rng)
    end
end.

(** The part of [generate_image] before the [while] loop: the default
    generator, the default seed, and the calls of [place] on the seed. *)
Definition seeding (ts : TileSet) (seed : option (list (Coord * Tile)))
    (rng : option RngState) : Outcome * State * RngState :=
let rng := default (Random 8675309) rng in
let st := mkState ∅ [] ts in
match seed with
| Some seed => let '(o, st) := place_seeds seed st in (o, st, rng)
| None =>
    match rng_choice rng (sorted (dom (tiles ts))) with
    | (Some tile, rng) => let '(o, st) := place_seeds [((0, 0), tile)] st in (o, st, rng)
    | (None, rng) => (Raise ChoiceFailure, st, rng)
    end
end.
End Grid.
End Generate.

(** ** Notions used by the statements *)

(** No coordinate is both in [frontier] and in [placed]. *)
Definition frontier_fresh (st : State) : Prop :=
∀ c, is_Some (frontier_get (frontier st) c) → placed st !! c = None.

(** No candidate set of the frontier is empty. *)
Definition frontier_nonempty (st : State) : Prop :=
∀ c s, frontier_get (frontier st) c = Some s → s ≠ ∅.

Definition frontier_nonemptyb (st : State) : bool :=
forallb (λ e, negb (Nat.eqb (size e.2) 0)) (frontier st).

(** One call of [place], whatever its outcome. *)
Inductive place_step (open : Path → Image.t) (resample : Z → Image.t → Image.t)
    (width height : Z) : State → State → Prop :=
  | place_step_call coord tile st :
      place_step open resample width height st
                 (place open resample width height coord tile st).2.

(** The offset of the neighbour a side faces, and the cells of the grid. *)
Definition offset (side : nat) : Z * Z :=
match side with
| 0%nat => (-1, 0)
| 1%nat => (0, -1)
| 2%nat => (1, 0)
| _ => (0, 1)
end.

Definition in_grid (width height : Z) (c : Coord) : Prop :=
(0 ≤ c.1 ∧ c.1 < height) ∧ (0 ≤ c.2 ∧ c.2 < width).

(** The selection the specification describes: [c] has a smallest candidate
    set, and is the least coordinate, row first, among those that have. *)
Definition least_smallest (fr : list (Coord * gset Tile)) (c : Coord) : Prop :=
∃ s, frontier_get fr c = Some s ∧
     ∀ c' s', frontier_get fr c' = Some s' →
              (size s < size s')%nat ∨ (size s = size s' ∧ (c = c' ∨ lexico c c')).

(** The invariants of a run. *)
Section Invariants.
Variable open : Path → Image.t.
Variable resample : Z → Image.t → Image.t.
Variables width height : Z.

(** The border index files every tile under its own borders. *)
Definition index_sound (ts : TileSet) : Prop :=
∀ side b s t, border_map ts !! (side, b) = Some s → t ∈ s →
              border open resample t side = b.

(** Every candidate of a frontier coordinate fits every placed tile that has
    the coordinate as a neighbour. *)
Definition constrained (st : State) : Prop :=
∀ k s t c side tc,
  frontier_get (frontier st) k = Some s → t ∈ s →
  placed st !! c = Some tc → (side, k) ∈ neighbors c width height →
  border open resample tc side = border open resample t ((side + 2) mod 4)%nat.

(** Every neighbour of a placed coordinate is placed or on the frontier. *)
Definition covered (st : State) : Prop :=
∀ c side k,
  is_Some (placed st !! c) → (side, k) ∈ neighbors c width height →
  is_Some (placed st !! k) ∨ is_Some (frontier_get (frontier st) k).

Definition frontier_in_grid (st : State) : Prop :=
∀ k, is_Some (frontier_get (frontier st) k) → in_grid width height k.

Record run_inv (st : State) : Prop := mk_run_inv {
  inv_sound : index_sound (tileset st);
  inv_fresh : frontier_fresh st;
  inv_nodup : NoDup (frontier st).*1;
  inv_grid : frontier_in_grid st;
  inv_covered : covered st;
  inv_constrained : constrained st;
}.

(** Adjacent placed tiles agree on their shared edge, except possibly two
    tiles that are both at coordinates of [sc]. *)
Definition consistent (sc : list Coord) (st : State) : Prop :=
∀ c n side tc tn,
  placed st !! c = Some tc → placed st !! n = Some tn →
  (side, n) ∈ neighbors c width height →
  ¬ (c ∈ sc ∧ n ∈ sc) →
  border open resample tc side = border open resample tn ((side + 2) mod 4)%nat.
End Invariants.

(** The coordinates the caller pinned. *)
Definition caller_seeds (seed : option (list (Coord * Tile))) : list Coord :=
match seed with
| Some seed => seed.*1
| None => []
end.

(** The sum of the registered weights of a set of tiles. *)
Definition total_weight (ts : TileSet) (s : gset Tile) : Q :=
foldr (λ t acc, default 0 (tiles ts !! t) + acc)%Q 0%Q (elements s).

(** The image of the variant of an image under a transform, and the pixel
    of a square image of side [n] that a pixel of the variant comes from. *)
Definition transformed (resample : Z → Image.t → Image.t) (img : Image.t)
    (tr : bool * Z) : Image.t :=
Image.rotate resample (if tr.1 then Image.mirror img else img) (tr.2 * 90).

Definition turn_source (n : nat) (k : Z) (cr : nat * nat) : nat * nat :=
if decide (k = 0) then cr
else if decide (k = 1) then (n - 1 - cr.2, cr.1)%nat
else if decide (k = 2) then (n - 1 - cr.1, n - 1 - cr.2)%nat
else (cr.2, n - 1 - cr.1)%nat.

Definition flip_source (n : nat) (refl : bool) (cr : nat * nat) : nat * nat :=
if refl then (n - 1 - cr.1, cr.2)%nat else cr.

Definition source (n : nat) (tr : bool * Z) (cr : nat * nat) : nat * nat :=
flip_source n tr.1 (turn_source n tr.2 cr).

(** The transform that undoes [tr2] and then applies [tr1], and where a
    pixel goes under [tr]. *)
Definition quotient (tr1 tr2 : bool * Z) : bool * Z :=
(xorb tr1.1 tr2.1, if tr2.1 then (tr2.2 - tr1.2) mod 4 else (tr1.2 - tr2.2) mod 4).

Definition target (n : nat) (tr : bool * Z) (cr : nat * nat) : nat * nat :=
turn_source n ((4 - tr.2) mod 4) (flip_source n tr.1 cr).

(** Every tile filed in the border index has a weight. *)
Definition index_registered (ts : TileSet) : Prop :=
∀ k s t, border_map ts !! k = Some s → t ∈ s → is_Some (tiles ts !! t).

(** Every candidate on the frontier has a weight. *)
Definition frontier_registered (st : State) : Prop :=
∀ c s t, frontier_get (frontier st) c = Some s → t ∈ s →
         is_Some (tiles (tileset st) !! t).

(** [TileSet.__len__] *)
Definition TileSet_len (ts : TileSet) : nat := size (tiles ts).

(** A tile is filed in the border index under its border of every side. *)
Definition filed (open : Path → Image.t) (resample : Z → Image.t → Image.t)
    (bm : gmap (nat * Border) (gset Tile)) (t : Tile) : Prop :=
∀ side, (side < 4)%nat →
        ∃ s, bm !! (side, border open resample t side) = Some s ∧ t ∈ s.

(** Every tile with a weight is filed in the border index. *)
Definition index_complete (open : Path → Image.t) (resample : Z → Image.t → Image.t)
    (ts : TileSet) : Prop :=
∀ t, is_Some (tiles ts !! t) → filed open resample (border_map ts) t.

(** [placed] after seeding when no seed has a neighbour to constrain. *)
Definition seed_map (seed : list (Coord * Tile)) : gmap Coord Tile :=
foldl (λ m item, <[item.1 := item.2]> m) ∅ seed.

(** The coordinates [place] is called on before the loop: the keys of the
    caller's [seed], or [(0, 0)] when there is none. *)
Definition seed_coords (seed : option (list (Coord * Tile))) : list Coord :=
match seed with
| Some seed => seed.*1
| None => [(0, 0)]
end.

(** The pixel at position [i] along the edge [side] of a square image of
    side [n], as [Tile.__init__] reads the borders. *)
Definition edge_pixel (n side i : nat) : nat * nat :=
match side with
| 0%nat => (i, 0%nat)
| 1%nat => (0%nat, i)
| 2%nat => (i, (n - 1)%nat)
| _ => ((n - 1)%nat, i)
end.

(** The transform whose image is the image of [tr] flipped across the edge
    [side]: mirrored for the left and right edges, upside down for the top
    and bottom ones. *)
Definition facing (tr : bool * Z) (side : nat) : bool * Z :=
(negb tr.1, ((if Nat.even side then 2 else 4) - tr.2) mod 4).

(** ** A small catalog to run the definitions on *)

Module Example.

(** The files: a tile without symmetry, a second one of the same size, a
    uniform tile, and an image two pixels wide and one pixel high. *)
Definition open (p : Path) : Image.t :=
if decide (p = ["a"]) then [[1; 2]; [3; 4]]
else if decide (p = ["b"]) then [[5; 6]; [7; 8]]
else if decide (p = ["f"]) then [[1; 2]]
else [[0; 0]; [0; 0]].

(** A resampling that returns the canvas as it is. *)
Definition resample (angle : Z) (img : Image.t) : Image.t := img.

(** A generator that always draws the first item. *)
Definition Random (seed : Z) : unit := tt.
Definition rng_choice (r : unit) (seq : list Tile) : option Tile * unit := (head seq, r).
Definition rng_choices (r : unit) (population : list Tile) (weights : list Q)
    : option Tile * unit :=
(head population, r).

Definition a0 : Tile := mkTile ["a"] false 0.
Definition a0m : Tile := mkTile ["a"] true 0.
Definition b0 : Tile := mkTile ["b"] false 0.

Definition catalog : list (Path * Q) := [(["a"], 4%Q)].

(** The tile set [add_tile] builds from the catalog. *)
Definition ts : TileSet :=
match load open resample elements catalog with
| inr ts => ts
| inl _ => TileSet_new
end.

Definition run (width height : Z) (seed : option (list (Coord * Tile)))
    : Outcome * State * unit :=
generate_image open resample elements unit Random rng_choice rng_choices
               width height ts seed None.

Definition place_at (width height : Z) (coord : Coord) (tile : Tile) (st : State)
    : Outcome * State :=
place open resample width height coord tile st.

Definition init : State := mkState ∅ [] ts.

(** A directory whose files are two pixels wide and three pixels high. *)
Definition open_tall (p : Path) : Image.t := [[1; 2]; [3; 3]; [4; 4]].

End Example.

(** * Properties *)

(** ** Raster images *)

Section ImageFacts.
Import Image.

Lemma height_make w h f : height (make w h f) = h.
Proof. unfold height, make. by rewrite length_map, length_seq. Qed.

Lemma width_make w h f : (0 < h)%nat → width (make w h f) = w.
Proof.
  unfold width, make. destruct h as [|h]; [lia|]. intros _. simpl.
  by rewrite length_map, length_seq.
Qed.

Lemma wf_make w h f : (0 < h)%nat → wf (make w h f).
Proof.
  intros Hh. unfold wf. rewrite width_make by done. unfold make.
  apply Forall_forall. intros row (r & -> & _)%list_elem_of_fmap.
  by rewrite length_map, length_seq.
Qed.

Lemma getpixel_make w h f c r :
  (c < w)%nat → (r < h)%nat → getpixel (make w h f) c r = f c r.
Proof.
  intros Hc Hr. unfold getpixel, make.
  rewrite !nth_lookup, list_lookup_fmap, lookup_seq_lt by done. simpl.
  by rewrite list_lookup_fmap, lookup_seq_lt.
Qed.

Lemma wf_row img r : wf img → (r < height img)%nat → length (nth r img []) = width img.
Proof.
  unfold wf, height. intros Hwf Hr. rewrite Forall_forall in Hwf.
  apply Hwf, list_elem_of_In, nth_In. done.
Qed.

(** Two images of the same size with the same pixels are equal. *)
Lemma image_ext a b :
  wf a → wf b → width a = width b → height a = height b →
  (∀ c r, (c < width a)%nat → (r < height a)%nat → getpixel a c r = getpixel b c r) →
  a = b.
Proof.
  intros Ha Hb Hw Hh Hpix.
  apply (nth_ext a b [] []); [done|]. intros r Hr.
  assert (r < height a)%nat as Hra by done.
  assert (r < height b)%nat as Hrb by by rewrite <-Hh.
  apply (nth_ext _ _ 0 0).
  - by rewrite !wf_row.
  - intros c Hc. rewrite wf_row in Hc by done. by apply Hpix.
Qed.

Lemma height_mirror img : height (mirror img) = height img.
Proof. unfold height, mirror. by rewrite length_map. Qed.

Lemma width_mirror img : width (mirror img) = width img.
Proof. unfold width, mirror. destruct img; simpl; [done|]. by rewrite length_rev. Qed.

Lemma wf_mirror img : wf img → wf (mirror img).
Proof.
  unfold wf. rewrite width_mirror. unfold mirror. rewrite !Forall_forall.
  intros Hwf row (row' & -> & Hrow)%list_elem_of_fmap. rewrite length_rev. by apply Hwf.
Qed.

Lemma getpixel_mirror img c r :
  wf img → (c < width img)%nat → (r < height img)%nat →
  getpixel (mirror img) c r = getpixel img (width img - 1 - c) r.
Proof.
  intros Hwf Hc Hr. unfold getpixel, mirror.
  rewrite (nth_indep _ [] (rev [])) by (by rewrite length_map).
  rewrite (map_nth (@rev pixel) img [] r).
  rewrite rev_nth by (by rewrite wf_row).
  rewrite wf_row by done. f_equal. lia.
Qed.

Lemma square_mirror img : square img → square (mirror img).
Proof.
  intros [Hwf Hsq]. split; [by apply wf_mirror|]. by rewrite width_mirror, height_mirror.
Qed.

Variable resample : Z → t → t.

(** The quarter turns of a square image are square images of the same side. *)
Lemma square_rotate img k :
  square img → k ∈ [0; 1; 2; 3] →
  square (rotate resample img (k * 90)) ∧ width (rotate resample img (k * 90)) = width img.
Proof.
  intros [Hwf Hsq] Hk. unfold rotate.
  destruct (decide (height img = 0%nat)) as [Hzero|Hpos].
  { assert (img = []) as -> by (by destruct img).
    repeat (apply elem_of_cons in Hk as [->|Hk]); [..|by apply elem_of_nil in Hk]; done. }
  assert (0 < height img)%nat as Hh by lia.
  assert (0 < width img)%nat as Hw by lia.
  repeat (apply elem_of_cons in Hk as [->|Hk]); [..|by apply elem_of_nil in Hk]; simpl.
  - done.
  - rewrite decide_True by auto. unfold rotate_90, square.
    rewrite width_make, height_make by done. split; [split|]; [by apply wf_make|done..].
  - unfold rotate_180, square.
    rewrite width_make, height_make by done. split; [split|]; [by apply wf_make|done..].
  - rewrite decide_True by auto. unfold rotate_270, square.
    rewrite width_make, height_make by done. split; [split|]; [by apply wf_make|done..].
Qed.

Lemma getpixel_rotate img k c r :
  square img → k ∈ [0; 1; 2; 3] → (c < width img)%nat → (r < width img)%nat →
  let cr := turn_source (width img) k (c, r) in
  getpixel (rotate resample img (k * 90)) c r = getpixel img cr.1 cr.2 ∧
  (cr.1 < width img)%nat ∧ (cr.2 < width img)%nat.
Proof.
  intros [Hwf Hsq] Hk Hc Hr. unfold rotate, turn_source.
  repeat (apply elem_of_cons in Hk as [->|Hk]); [..|by apply elem_of_nil in Hk]; simpl.
  - done.
  - rewrite decide_True by auto. unfold rotate_90.
    rewrite getpixel_make by lia. split; [done|lia].
  - unfold rotate_180. rewrite getpixel_make by lia. rewrite <-Hsq. split; [done|lia].
  - rewrite decide_True by auto. unfold rotate_270.
    rewrite getpixel_make by lia. rewrite <-Hsq. split; [done|lia].
Qed.

Lemma square_transformed img tr :
  square img → tr ∈ transforms →
  square (transformed resample img tr) ∧ width (transformed resample img tr) = width img.
Proof.
  intros Hsq Htr. unfold transformed.
  assert (tr.2 ∈ [0; 1; 2; 3]) as Hk.
  { unfold transforms in Htr. simpl in Htr.
    repeat (apply elem_of_cons in Htr as [->|Htr]); [..|by apply elem_of_nil in Htr];
      simpl; set_solver. }
  destruct tr as [[] k]; simpl in *.
  - destruct (square_rotate (mirror img) k) as [? ->]; [by apply square_mirror|done|].
    by rewrite width_mirror.
  - by apply square_rotate.
Qed.

Lemma getpixel_transformed img tr c r :
  square img → tr ∈ transforms → (c < width img)%nat → (r < width img)%nat →
  let cr := source (width img) tr (c, r) in
  getpixel (transformed resample img tr) c r = getpixel img cr.1 cr.2 ∧
  (cr.1 < width img)%nat ∧ (cr.2 < width img)%nat.
Proof.
  intros Hsq Htr Hc Hr. unfold transformed, source.
  assert (tr.2 ∈ [0; 1; 2; 3]) as Hk.
  { unfold transforms in Htr. simpl in Htr.
    repeat (apply elem_of_cons in Htr as [->|Htr]); [..|by apply elem_of_nil in Htr];
      simpl; set_solver. }
  destruct tr as [[] k]; simpl in *.
  - destruct (getpixel_rotate (mirror img) k c r) as (Hpix & Hc' & Hr');
      [by apply square_mirror|done|by rewrite width_mirror..|].
    rewrite width_mirror in *. rewrite Hpix.
    destruct Hsq as [Hwf Hsq]. rewrite getpixel_mirror by (done || lia).
    split; [done|]. simpl. lia.
  - by apply getpixel_rotate.
Qed.

Lemma transforms_eq :
  transforms = [(false, 0); (false, 1); (false, 2); (false, 3);
                (true, 0); (true, 1); (true, 2); (true, 3)].
Proof. reflexivity. Qed.

Ltac transform_cases H :=
  rewrite transforms_eq in H;
  repeat (apply elem_of_cons in H as [->|H]); [..|by apply elem_of_nil in H].

Lemma quotient_transform tr1 tr2 :
  tr1 ∈ transforms → tr2 ∈ transforms →
  quotient tr1 tr2 ∈ transforms ∧ (tr1 ≠ tr2 → quotient tr1 tr2 ≠ (false, 0)).
Proof.
  intros H1 H2. transform_cases H1; transform_cases H2;
    (split; [rewrite transforms_eq; vm_compute; set_solver|by vm_compute]).
Qed.

Lemma source_target n tr1 tr2 c r :
  tr1 ∈ transforms → tr2 ∈ transforms → (c < n)%nat → (r < n)%nat →
  let cr := target n tr2 (c, r) in
  (cr.1 < n)%nat ∧ (cr.2 < n)%nat ∧
  source n tr2 cr = (c, r) ∧
  source n tr1 cr = source n (quotient tr1 tr2) (c, r).
Proof.
  intros H1 H2 Hc Hr. transform_cases H1; transform_cases H2;
    (unfold target, source, quotient, turn_source, flip_source; simpl;
     split_and!; [lia|lia|f_equal; lia|f_equal; lia]).
Qed.

(** An image that no transform but the identity leaves invariant has eight
    different variants. *)
Lemma transformed_inj img tr1 tr2 :
  square img →
  (∀ tr, tr ∈ transforms → tr ≠ (false, 0) → transformed resample img tr ≠ img) →
  tr1 ∈ transforms → tr2 ∈ transforms →
  transformed resample img tr1 = transformed resample img tr2 → tr1 = tr2.
Proof.
  intros Hsq Hfree H1 H2 Heq.
  destruct (decide (tr1 = tr2)) as [|Hne]; [done|]. exfalso.
  destruct (quotient_transform tr1 tr2 H1 H2) as [Hq Hq_ne].
  apply (Hfree (quotient tr1 tr2) Hq (Hq_ne Hne)).
  destruct (square_transformed img _ Hsq Hq) as [[Hwf Hsq'] Hw].
  apply image_ext; [done|by destruct Hsq|done|by rewrite <-Hsq', Hw; destruct Hsq|].
  rewrite Hw, <-Hsq', Hw. intros c r Hc Hr.
  destruct (source_target (width img) tr1 tr2 c r H1 H2 Hc Hr) as (Hc' & Hr' & Hback & Hquot).
  destruct (getpixel_transformed img _ c r Hsq Hq Hc Hr) as [-> _].
  destruct (getpixel_transformed img _ _ _ Hsq H1 Hc' Hr') as [Hp1 _].
  destruct (getpixel_transformed img _ _ _ Hsq H2 Hc' Hr') as [Hp2 _].
  rewrite <-surjective_pairing in Hp1, Hp2.
  rewrite <-Hquot, <-Hp1, Heq, Hp2, Hback. done.
Qed.

End ImageFacts.

(** ** The order of tiles *)

Global Instance string_codes_inj : Inj (=) (=) string_codes.
Proof.
  intros s1 s2 Heq. unfold string_codes in Heq.
  assert (Inj (=) (=) Ascii.N_of_ascii) as Hinj.
  { intros a1 a2 Ha. by rewrite <-(Ascii.ascii_N_embedding a1), <-(Ascii.ascii_N_embedding a2), Ha. }
  apply (inj (fmap Ascii.N_of_ascii)) in Heq.
  by rewrite <-(String.string_of_list_ascii_of_string s1),
             <-(String.string_of_list_ascii_of_string s2), Heq.
Qed.

Global Instance sort_key_inj : Inj (=) (=) sort_key.
Proof.
  intros [p1 r1 k1] [p2 r2 k2]. unfold sort_key. simpl. intros [= Hp -> ->].
  f_equal. revert Hp. apply (inj (fmap string_codes)).
Qed.

Global Instance Tile_lt_strict : StrictOrder Tile_lt.
Proof.
  unfold Tile_lt. split.
  - intros t Ht. by apply (irreflexivity lexico) in Ht.
  - intros t1 t2 t3 H12 H23. by etrans.
Qed.

Global Instance Tile_le_trans : Transitive Tile_le.
Proof.
  intros t1 t2 t3 [H12| ->] [H23| ->]; [left|left|left|right]; try done.
  by etrans.
Qed.

Global Instance Tile_le_antisymm : AntiSymm (=) Tile_le.
Proof.
  intros t1 t2 [H12| ->] [H21|H21]; try done.
  destruct (irreflexivity Tile_lt t1). by etrans.
Qed.

Global Instance Tile_le_total : Total Tile_le.
Proof.
  intros t1 t2. unfold Tile_le, Tile_lt.
  destruct (trichotomy lexico (sort_key t1) (sort_key t2)) as [?|[Heq|?]]; auto.
  apply sort_key_inj in Heq. auto.
Qed.

(** [sorted] does not depend on the order in which the set is iterated. *)
Lemma sorted_iter_indep (iter1 iter2 : gset Tile → list Tile) s :
  (∀ s, iter1 s ≡ₚ elements s) → (∀ s, iter2 s ≡ₚ elements s) →
  sorted iter1 s = sorted iter2 s.
Proof.
  intros H1 H2. unfold sorted. apply (Sorted_unique Tile_le).
  - apply Sorted_merge_sort, _.
  - apply Sorted_merge_sort, _.
  - by rewrite !merge_sort_Permutation, H1, H2.
Qed.

(** ** The frontier as an insertion-ordered dictionary *)

Lemma frontier_get_pop fr c k :
  frontier_get (frontier_pop fr c) k = if decide (k = c) then None else frontier_get fr k.
Proof.
  unfold frontier_pop. induction fr as [|e fr IH]; simpl.
  - by destruct (decide (k = c)).
  - rewrite filter_cons. destruct (decide (e.1 ≠ c)) as [Hne|Heq]; simpl.
    + destruct (decide (e.1 = k)) as [Hek|]; [|done].
      by rewrite decide_False by congruence.
    + apply dec_stable in Heq. rewrite IH.
      destruct (decide (k = c)) as [->|]; [done|].
      by rewrite decide_False by congruence.
Qed.

Lemma frontier_get_intersection_update fr c s k :
  frontier_get (frontier_intersection_update fr c s) k =
  if decide (k = c) then (λ x, x ∩ s) <$> frontier_get fr k else frontier_get fr k.
Proof.
  unfold frontier_intersection_update. induction fr as [|e fr IH]; simpl.
  - by destruct (decide (k = c)).
  - destruct (decide (e.1 = c)) as [Hec|Hec]; simpl.
    + destruct (decide (e.1 = k)) as [Hek|Hek].
      * by rewrite decide_True by congruence.
      * apply IH.
    + destruct (decide (e.1 = k)) as [Hek|Hek]; [|apply IH].
      by rewrite decide_False by congruence.
Qed.

Lemma frontier_get_new fr c s k :
  frontier_get (frontier_new fr c s) k =
  match frontier_get fr k with
  | Some x => Some x
  | None => if decide (k = c) then Some s else None
  end.
Proof.
  unfold frontier_new. induction fr as [|e fr IH]; simpl.
  - destruct (decide (c = k)), (decide (k = c)); congruence.
  - by destruct (decide (e.1 = k)).
Qed.

Lemma frontier_pop_idemp fr c : frontier_pop (frontier_pop fr c) c = frontier_pop fr c.
Proof.
  unfold frontier_pop. induction fr as [|e fr IH]; [done|].
  rewrite filter_cons. destruct (decide (e.1 ≠ c)); [|done].
  rewrite filter_cons. destruct (decide (e.1 ≠ c)); [|done]. by rewrite IH.
Qed.

Lemma frontier_get_None fr c : frontier_get fr c = None ↔ c ∉ fr.*1.
Proof.
  induction fr as [|e fr IH]; simpl.
  - split; [intros _ ?%elem_of_nil|]; done.
  - rewrite not_elem_of_cons. destruct (decide (e.1 = c)); naive_solver.
Qed.

Lemma frontier_get_Some fr c s : frontier_get fr c = Some s → (c, s) ∈ fr.
Proof.
  induction fr as [|[c' s'] fr IH]; simpl; [done|].
  destruct (decide (c' = c)) as [->|]; intros; simplify_eq; [left|right; auto].
Qed.

Lemma frontier_nonemptyb_spec st : frontier_nonemptyb st = true → frontier_nonempty st.
Proof.
  unfold frontier_nonemptyb, frontier_nonempty. rewrite forallb_forall.
  intros Hall c s Hget%frontier_get_Some ->.
  apply list_elem_of_In, Hall in Hget. change (size (c, ∅ : gset Tile).2) with (size (∅ : gset Tile)) in Hget.
  by rewrite size_empty in Hget.
Qed.

Lemma frontier_get_elem fr c s : NoDup fr.*1 → (c, s) ∈ fr → frontier_get fr c = Some s.
Proof.
  induction fr as [|[c' s'] fr IH]; simpl; [by intros _ ?%elem_of_nil|].
  intros [Hnotin Hnd]%NoDup_cons [Heq|Hin]%elem_of_cons.
  - simplify_eq. by rewrite decide_True.
  - rewrite decide_False; [by apply IH|]. intros ->.
    apply Hnotin. apply list_elem_of_fmap. by exists (c, s).
Qed.

Lemma frontier_pop_nodup fr c : NoDup fr.*1 → NoDup (frontier_pop fr c).*1.
Proof.
  unfold frontier_pop. induction fr as [|e fr IH]; simpl; [done|].
  intros [Hnotin Hnd]%NoDup_cons. rewrite filter_cons.
  destruct (decide (e.1 ≠ c)); [|by apply IH]. simpl. apply NoDup_cons. split; [|by apply IH].
  intros (x & Hx & [_ Hin]%list_elem_of_filter)%list_elem_of_fmap.
  apply Hnotin. apply list_elem_of_fmap. by exists x.
Qed.

Lemma frontier_intersection_update_keys fr c s :
  (frontier_intersection_update fr c s).*1 = fr.*1.
Proof.
  unfold frontier_intersection_update. induction fr as [|e fr IH]; [done|].
  rewrite !fmap_cons, <-IH. by destruct (decide (e.1 = c)).
Qed.

Lemma frontier_updated_nodup (fr : list (Coord * gset Tile)) nc valid :
  NoDup fr.*1 →
  NoDup (match frontier_get fr nc with
         | Some _ => frontier_intersection_update fr nc valid
         | None => frontier_new fr nc valid
         end).*1.
Proof.
  intros Hnd. destruct (frontier_get fr nc) eqn:Hget.
  - by rewrite frontier_intersection_update_keys.
  - unfold frontier_new. rewrite fmap_app. simpl. apply NoDup_app. split_and!.
    + done.
    + intros x Hx ->%list_elem_of_singleton. by apply frontier_get_None in Hget.
    + apply NoDup_singleton.
Qed.

(** [min] returns the first of the entries of smallest size. *)
Lemma foldl_min_first (pre mid fr : list (Coord * gset Tile)) e :
  (∀ x, x ∈ pre → (size e.2 < size x.2)%nat) →
  (∀ x, x ∈ mid → (size e.2 ≤ size x.2)%nat) →
  let best := foldl (λ best item, if decide (size item.2 < size best.2)%nat
                                  then item else best) e fr in
  ∃ pre' post,
    pre ++ e :: mid ++ fr = pre' ++ best :: post ∧
    (∀ x, x ∈ pre' → (size best.2 < size x.2)%nat) ∧
    (∀ x, x ∈ post → (size best.2 ≤ size x.2)%nat).
Proof.
  revert pre mid e. induction fr as [|x fr IH]; intros pre mid e Hpre Hmid; simpl.
  - exists pre, mid. by rewrite app_nil_r.
  - destruct (decide (size x.2 < size e.2)%nat) as [Hlt|Hge].
    + destruct (IH (pre ++ e :: mid) [] x) as (pre' & post & Heq & ? & ?).
      * intros y [Hy|Hy]%elem_of_app; [specialize (Hpre y Hy); lia|].
        apply elem_of_cons in Hy as [->|Hy]; [done|]. specialize (Hmid y Hy). lia.
      * by intros y ?%elem_of_nil.
      * exists pre', post. split; [|done]. rewrite <-Heq. simpl. by rewrite <-app_assoc.
    + destruct (IH pre (mid ++ [x]) e) as (pre' & post & Heq & ? & ?).
      * done.
      * intros y [Hy|Hy]%elem_of_app; [by apply Hmid|].
        apply list_elem_of_singleton in Hy as ->. lia.
      * exists pre', post. split; [|done]. rewrite <-Heq. by rewrite <-app_assoc.
Qed.

Lemma frontier_min_first fr c s :
  frontier_min fr = Some (c, s) →
  ∃ pre post,
    fr = pre ++ (c, s) :: post ∧
    (∀ x, x ∈ pre → (size s < size x.2)%nat) ∧
    (∀ x, x ∈ post → (size s ≤ size x.2)%nat).
Proof.
  destruct fr as [|e fr]; simpl; [done|]. intros [= Hbest].
  destruct (foldl_min_first [] [] fr e) as (pre & post & Heq & Hpre & Hpost).
  - by intros y ?%elem_of_nil.
  - by intros y ?%elem_of_nil.
  - simpl in *. rewrite Hbest in *. by exists pre, post.
Qed.

(** ** Grid geometry *)

Section Geometry.
Variables width height : Z.

Lemma neighbors_elem side n c :
  (side, n) ∈ neighbors c width height ↔
  (side < 4)%nat ∧ n = (c.1 + (offset side).1, c.2 + (offset side).2) ∧
  in_grid width height n.
Proof.
  unfold neighbors, enumerate, in_grid. simpl. rewrite !app_nil_r, !elem_of_app.
  split.
  - intros Hin. repeat case_decide;
      repeat match goal with
             | H : _ ∨ _ |- _ => destruct H
             | H : _ ∈ [] |- _ => by apply elem_of_nil in H
             | H : _ ∈ [_] |- _ => apply list_elem_of_singleton in H; simplify_eq
             end; simpl in *; (split; [lia|split; [done|done]]).
  - intros (Hside & -> & Hgrid). simpl in Hgrid.
    destruct side as [|[|[|[|side]]]]; [..|lia]; simpl in *.
    + left. rewrite decide_True by done. apply list_elem_of_singleton. done.
    + right. left. rewrite decide_True by done. apply list_elem_of_singleton. done.
    + right. right. left. rewrite decide_True by done. apply list_elem_of_singleton. done.
    + right. right. right. rewrite decide_True by done. apply list_elem_of_singleton. done.
Qed.

Lemma opposite_involutive side : (side < 4)%nat → (((side + 2) mod 4 + 2) mod 4)%nat = side.
Proof. intros. destruct side as [|[|[|[|side]]]]; [done..|lia]. Qed.

Lemma neighbors_opposite side n c :
  (side, n) ∈ neighbors c width height → in_grid width height c →
  (((side + 2) mod 4)%nat, c) ∈ neighbors n width height.
Proof.
  rewrite !neighbors_elem. intros (Hside & -> & Hn) Hc.
  destruct c as [row col].
  destruct side as [|[|[|[|side]]]]; [..|lia]; simpl in *;
    (split; [lia|split; [f_equal; lia|done]]).
Qed.

Lemma neighbors_ne side n c : (side, n) ∈ neighbors c width height → n ≠ c.
Proof.
  rewrite neighbors_elem. intros (Hside & -> & _). destruct c as [row col].
  destruct side as [|[|[|[|side]]]]; [..|lia]; simpl; intros [=]; lia.
Qed.

Lemma neighbors_side side side' n c :
  (side, n) ∈ neighbors c width height → (side', n) ∈ neighbors c width height →
  side = side'.
Proof.
  rewrite !neighbors_elem. intros (Hside & -> & _) (Hside' & Heq & _).
  destruct side as [|[|[|[|side]]]]; [..|lia];
    destruct side' as [|[|[|[|side']]]]; try lia; simpl in *; simplify_eq; try done; lia.
Qed.

Lemma neighbors_in_grid side n c :
  (side, n) ∈ neighbors c width height → in_grid width height n.
Proof. rewrite neighbors_elem. naive_solver. Qed.

End Geometry.

(** ** Loops that may raise *)

Lemma for_each_inv {A} (P : State → Prop) (body : State → A → Outcome * State) l :
  (∀ st x, P st → P (body st x).2) →
  ∀ st, P st → P (for_each body st l).2.
Proof.
  intros Hbody. induction l as [|x l IH]; intros st Hst; simpl; [done|].
  specialize (Hbody st x Hst).
  destruct (body st x) as [[] st1]; simpl in *; auto.
Qed.

Lemma for_each_app {A} (body : State → A → Outcome * State) l1 l2 st :
  for_each body st (l1 ++ l2) =
  match for_each body st l1 with
  | (Return, st1) => for_each body st1 l2
  | r => r
  end.
Proof.
  revert st. induction l1 as [|x l1 IH]; intros st; simpl; [done|].
  destruct (body st x) as [[] st1]; auto.
Qed.

Lemma for_each_return_inv {A} (P : State → Prop) (body : State → A → Outcome * State) l :
  (∀ st x st', x ∈ l → body st x = (Return, st') → P st → P st') →
  ∀ st st', for_each body st l = (Return, st') → P st → P st'.
Proof.
  induction l as [|x l IH]; intros Hbody st st'; simpl.
  { by intros [= <-]. }
  destruct (body st x) as [o st1] eqn:Hx. destruct o; [|done..].
  intros Hrest Hst. eapply IH; [|done|].
  - intros ???? . apply Hbody. by right.
  - eapply Hbody; [left|done..].
Qed.

(** A loop that does not return stopped at one of its items, after the
    items before it went through. *)
Lemma for_each_stopped {A} (body : State → A → Outcome * State) l st o st' :
  for_each body st l = (o, st') → o ≠ Return →
  ∃ pre x post st1,
    l = pre ++ x :: post ∧ for_each body st pre = (Return, st1) ∧ body st1 x = (o, st').
Proof.
  revert st. induction l as [|x l IH]; intros st Hrun Ho; simpl in *.
  { by simplify_eq. }
  destruct (body st x) as [o1 st1] eqn:Hx.
  destruct o1.
  - destruct (IH _ Hrun Ho) as (pre & y & post & st2 & -> & Hpre & Hy).
    exists (x :: pre), y, post, st2. simpl. by rewrite Hx.
  - exists [], x, l, st. simpl. by simplify_eq.
  - exists [], x, l, st. simpl. by simplify_eq.
Qed.

(** ** Facts about tile sets *)

Lemma foldl_preserves {A B} (P : A → Prop) (f : A → B → A) l a :
  (∀ a b, P a → P (f a b)) → P a → P (foldl f a l).
Proof. intros Hf. revert a. induction l as [|b l IH]; simpl; auto. Qed.

(** ** Canonical variants *)

Section VariantFacts.
Variable open : Path → Image.t.
Variable resample : Z → Image.t → Image.t.

Local Abbreviation vars := (variants open resample).

(** [exists] holds the images of the transforms seen so far. *)
Lemma variants_exists p (l : list (bool * Z)) img :
  img ∈ (foldl (add_variant open resample p) ([], ∅) l).1 ↔
  ∃ tr, tr ∈ l ∧ image open resample (mkTile p tr.1 tr.2) = img.
Proof.
  induction l as [|x l IH] using rev_ind; simpl.
  { split; [by intros ?%elem_of_nil|]. by intros (tr & ?%elem_of_nil & _). }
  rewrite foldl_snoc. unfold add_variant at 1.
  destruct (decide _) as [Hin|Hnotin]; simpl.
  - rewrite IH. split.
    + intros (tr & ? & ?). exists tr. split; [|done]. apply elem_of_app. by left.
    + intros (tr & [?| ->%list_elem_of_singleton]%elem_of_app & <-); [by exists tr|].
      by apply IH.
  - rewrite elem_of_app, IH, list_elem_of_singleton. split.
    + intros [(tr & ? & ?)| ->].
      * exists tr. split; [|done]. apply elem_of_app. by left.
      * exists x. split; [|done]. apply elem_of_app. right. by apply list_elem_of_singleton.
    + intros (tr & [?| ->%list_elem_of_singleton]%elem_of_app & <-); [left; by exists tr|by right].
Qed.

(** [tiles] holds the transforms whose image no earlier transform has. *)
Lemma variants_tiles p (l : list (bool * Z)) tr :
  mkTile p tr.1 tr.2 ∈ (foldl (add_variant open resample p) ([], ∅) l).2 ↔
  ∃ pre post,
    l = pre ++ tr :: post ∧
    ∀ tr', tr' ∈ pre →
           image open resample (mkTile p tr'.1 tr'.2) ≠ image open resample (mkTile p tr.1 tr.2).
Proof.
  induction l as [|x l IH] using rev_ind; simpl.
  { split; [set_solver|]. intros (pre & post & Heq & _). by destruct pre. }
  rewrite foldl_snoc. unfold add_variant at 1.
  assert (∀ pre post, l ++ [x] = pre ++ tr :: post →
                      (post = [] ∧ pre = l ∧ tr = x) ∨
                      (∃ post', post = post' ++ [x] ∧ l = pre ++ tr :: post')) as Hsplit.
  { intros pre post Heq. destruct post as [|y post _] using rev_ind.
    - apply app_inj_tail in Heq as [-> ->]. by left.
    - right. exists post. rewrite app_comm_cons, app_assoc in Heq.
      apply app_inj_tail in Heq as [-> ->]. done. }
  destruct (decide _) as [Hin|Hnotin]; simpl.
  - rewrite IH. split.
    + intros (pre & post & -> & Hpre). exists pre, (post ++ [x]).
      by rewrite <-app_assoc.
    + intros (pre & post & Heq & Hpre).
      destruct (Hsplit _ _ Heq) as [(-> & -> & ->)|(post' & -> & ->)]; [|by eauto].
      apply variants_exists in Hin as (tr' & Htr' & Himg). by destruct (Hpre tr' Htr').
  - rewrite elem_of_union, elem_of_singleton, IH. split.
    + intros [Heq|(pre & post & -> & Hpre)].
      * assert (tr = x) as -> by (destruct tr, x; simpl in *; congruence).
        exists l, []. split; [done|]. intros tr' Htr' Himg.
        apply Hnotin, variants_exists. by exists tr'.
      * exists pre, (post ++ [x]). by rewrite <-app_assoc.
    + intros (pre & post & Heq & Hpre).
      destruct (Hsplit _ _ Heq) as [(-> & -> & ->)|(post' & -> & ->)]; [by left|right; eauto].
Qed.

Lemma variants_members p (l : list (bool * Z)) t :
  t ∈ (foldl (add_variant open resample p) ([], ∅) l).2 →
  ∃ tr, tr ∈ l ∧ t = mkTile p tr.1 tr.2.
Proof.
  induction l as [|x l IH] using rev_ind; simpl; [set_solver|].
  rewrite foldl_snoc. unfold add_variant at 1.
  assert (∀ tr, tr ∈ l → tr ∈ l ++ [x]) as Hl by (intros; apply elem_of_app; by left).
  destruct (decide _); simpl.
  - intros (tr & ? & ?)%IH. eauto.
  - intros [->%elem_of_singleton|(tr & ? & ?)%IH]%elem_of_union; [|by eauto].
    exists x. split; [|done]. apply elem_of_app. right. by apply list_elem_of_singleton.
Qed.

Lemma image_transformed p tr :
  image open resample (mkTile p tr.1 tr.2) = transformed resample (open p) tr.
Proof. reflexivity. Qed.

(** C8 (as amended): canonicalization goes through the eight transforms,
    reflection (none, then mirrored) outermost and the four quarter turns
    within, the mirror applied before the turn; a transform survives exactly
    when no earlier transform has the same image.  Hence a tile whose image
    every transform leaves invariant has one canonical variant, and a tile
    with a square image that no transform but the identity leaves invariant
    has eight. *)
Theorem symmetry_collapse p :
  transforms = [(false, 0); (false, 1); (false, 2); (false, 3);
                (true, 0); (true, 1); (true, 2); (true, 3)] ∧
  (∀ tr, image open resample (mkTile p tr.1 tr.2) =
         Image.rotate resample (if tr.1 then Image.mirror (open p) else open p) (tr.2 * 90)) ∧
  (∀ t, t ∈ (vars p).2 → ∃ tr, tr ∈ transforms ∧ t = mkTile p tr.1 tr.2) ∧
  (∀ tr, mkTile p tr.1 tr.2 ∈ (vars p).2 ↔
         ∃ pre post,
           transforms = pre ++ tr :: post ∧
           ∀ tr', tr' ∈ pre →
                  image open resample (mkTile p tr'.1 tr'.2) ≠
                  image open resample (mkTile p tr.1 tr.2)) ∧
  ((∀ tr, tr ∈ transforms → image open resample (mkTile p tr.1 tr.2) = open p) →
   size (vars p).2 = 1%nat) ∧
  (Image.square (open p) →
   (∀ tr, tr ∈ transforms → tr ≠ (false, 0) →
          image open resample (mkTile p tr.1 tr.2) ≠ open p) →
   size (vars p).2 = 8%nat).
Proof.
  assert (∀ t, t ∈ (vars p).2 → ∃ tr, tr ∈ transforms ∧ t = mkTile p tr.1 tr.2) as Hmem
    by exact (variants_members p transforms).
  assert (∀ tr, mkTile p tr.1 tr.2 ∈ (vars p).2 ↔
                ∃ pre post,
                  transforms = pre ++ tr :: post ∧
                  ∀ tr', tr' ∈ pre →
                         image open resample (mkTile p tr'.1 tr'.2) ≠
                         image open resample (mkTile p tr.1 tr.2)) as Htiles
    by exact (variants_tiles p transforms).
  revert Hmem Htiles. generalize (vars p).2. intros s Hmem Htiles.
  split_and!; [done|done|done|done| |].
  - intros Hinv. replace s with ({[mkTile p false 0]} : gset Tile); [apply size_singleton|].
    apply set_eq. intros t. rewrite elem_of_singleton. split.
    { intros ->. apply (Htiles (false, 0)). exists [], (tail transforms).
      split; [done|]. by intros tr' ?%elem_of_nil. }
    intros Ht. destruct (Hmem t Ht) as (tr & Htr & ->).
    apply Htiles in Ht as (pre & post & Heq & Hpre).
    destruct pre as [|tr0 pre].
    + rewrite transforms_eq in Heq. by simplify_eq/=.
    + destruct (Hpre tr0); [left|].
      rewrite !Hinv; [done|done|]. rewrite Heq. left.
  - intros Hsq Hfree.
    replace s with (list_to_set ((λ tr, mkTile p tr.1 tr.2) <$> transforms) : gset Tile).
    { rewrite size_list_to_set; [done|]. rewrite transforms_eq. simpl.
      repeat (apply NoDup_cons; split; [set_solver|]). apply NoDup_nil_2. }
    apply set_eq. intros t. rewrite elem_of_list_to_set, list_elem_of_fmap. split.
    + intros (tr & -> & Htr). apply Htiles.
      destruct (list_elem_of_split _ _ Htr) as (pre & post & Heq).
      exists pre, post. split; [done|]. intros tr' Htr' Himg.
      assert (tr' ∈ transforms) as Htr'' by (rewrite Heq; apply elem_of_app; by left).
      assert (tr' = tr) as ->.
      { eapply (transformed_inj resample (open p)); [done| |done..].
        intros tr0 ? ?. by apply Hfree. }
      assert (NoDup transforms) as Hnd.
      { rewrite transforms_eq. repeat (apply NoDup_cons; split; [set_solver|]). apply NoDup_nil_2. }
      rewrite Heq in Hnd. apply NoDup_app in Hnd as (_ & Hdisj & _).
      apply (Hdisj tr Htr'). left.
    + intros Ht. destruct (Hmem t Ht) as (tr & ? & ->). by exists tr.
Qed.

(** The untransformed tile always survives. *)
Lemma variants_first p : mkTile p false 0 ∈ (vars p).2.
Proof.
  unfold variants. apply (variants_tiles p transforms (false, 0)).
  exists [], (tail transforms). split; [done|]. by intros tr' ?%elem_of_nil.
Qed.

Lemma variants_size p : (1 ≤ size (vars p).2)%nat.
Proof.
  pose proof (variants_first p) as Hfirst. revert Hfirst.
  generalize (vars p).2. intros s Hfirst.
  assert (size s ≠ 0%nat); [|lia].
  apply size_non_empty_iff. set_solver.
Qed.

End VariantFacts.

Section TileSetFacts.
Variable open : Path → Image.t.
Variable resample : Z → Image.t → Image.t.
Variable set_iter : gset Tile → list Tile.

Local Abbreviation border_at := (border open resample).
Local Abbreviation sound := (index_sound open resample).
Local Abbreviation add := (add_tile open resample set_iter).
Local Abbreviation reg := (register open resample).
Local Abbreviation vars := (variants open resample).

Lemma index_sound_new : sound TileSet_new.
Proof. intros side b s t Hs. simpl in Hs. by rewrite lookup_empty in Hs. Qed.

Lemma register_sound w ts tile : sound ts → sound (reg w ts tile).
Proof.
  unfold index_sound, register. cbn [border_map].
  generalize (border_map ts). generalize (seq 0 4).
  intros sides. induction sides as [|side sides IH]; intros bm Hbm; simpl; [exact Hbm|].
  apply IH. intros side' b s t. unfold border_map_add.
  destruct (decide ((side, border_at tile side) = (side', b))) as [Heq|Hne].
  - simplify_eq. rewrite lookup_insert_eq. intros [= <-] [->%elem_of_singleton|Ht]%elem_of_union.
    + done.
    + destruct (bm !! _) as [s0|] eqn:Hs0; simpl in Ht; [by eapply Hbm|set_solver].
  - rewrite lookup_insert_ne by done. apply Hbm.
Qed.


Lemma add_tile_sound ts p weight ts' : add ts p weight = inr ts' → sound ts → sound ts'.
Proof.
  unfold add_tile. intros Hadd Hsound.
  assert (∀ q l ts0, sound ts0 → sound (foldl (reg q) ts0 l)) as Hfold.
  { intros q l ts0. apply (foldl_preserves sound). intros. by apply register_sound. }
  destruct (tile_width ts) as [w|].
  - destruct (decide _); simplify_eq. by apply Hfold.
  - simplify_eq. by apply Hfold.
Qed.

Lemma load_sound catalog ts : load open resample set_iter catalog = inr ts → sound ts.
Proof.
  unfold load.
  assert (∀ acc, (∀ ts0, acc = inr ts0 → sound ts0) →
                 foldl (λ acc pw, match acc with
                                  | inl e => inl e
                                  | inr ts => add ts pw.1 pw.2
                                  end) acc catalog = inr ts → sound ts) as Hfold.
  { induction catalog as [|[p w] catalog IH]; intros acc Hacc; simpl; [by apply Hacc|].
    apply IH. destruct acc as [e|ts0]; [done|].
    intros ts1 Hadd. eapply add_tile_sound; [done|]. by apply Hacc. }
  apply Hfold. intros ts0 [= <-]. apply index_sound_new.
Qed.

Lemma sorted_elem s t :
  (∀ s, set_iter s ≡ₚ elements s) → t ∈ sorted set_iter s ↔ t ∈ s.
Proof.
  intros Hperm. unfold sorted. by rewrite merge_sort_Permutation, Hperm, elem_of_elements.
Qed.

Lemma foldl_register_tiles q l ts t :
  tiles (foldl (reg q) ts l) !! t = if decide (t ∈ l) then Some q else tiles ts !! t.
Proof.
  revert ts. induction l as [|x l IH]; intros ts; cbn [foldl].
  { rewrite decide_False; [done|]. by intros ?%elem_of_nil. }
  rewrite IH. cbn [register tiles]. destruct (decide (t ∈ l)) as [Hin|Hnotin].
  - rewrite decide_True; [done|by right].
  - destruct (decide (x = t)) as [->|Hne].
    + by rewrite lookup_insert_eq, decide_True by left.
    + rewrite lookup_insert_ne by done. rewrite decide_False; [done|].
      by intros [?|?]%elem_of_cons.
Qed.

Lemma add_tile_tiles ts p w ts' t :
  (∀ s, set_iter s ≡ₚ elements s) →
  add ts p w = inr ts' →
  tiles ts' !! t =
  if decide (t ∈ (vars p).2)
  then Some (w / inject_Z (Z.of_nat (size (vars p).2)))%Q
  else tiles ts !! t.
Proof.
  intros Hiter. unfold add_tile.
  assert (∀ ts0, tiles (foldl (reg (w / inject_Z (Z.of_nat (size (vars p).2)))%Q) ts0
                              (sorted set_iter (vars p).2)) !! t =
                 if decide (t ∈ (vars p).2)
                 then Some (w / inject_Z (Z.of_nat (size (vars p).2)))%Q
                 else tiles ts0 !! t) as Hfold.
  { intros ts0. rewrite foldl_register_tiles.
    destruct (decide (t ∈ sorted _ _)) as [Hin|Hnotin].
    - apply sorted_elem in Hin; [|done]. by rewrite decide_True.
    - rewrite decide_False; [done|]. intros Hin. apply Hnotin. by apply sorted_elem. }
  destruct (tile_width ts) as [tw|].
  - destruct (decide (Image.width (open p) ≠ tw)); [intros; discriminate|].
    intros Heq. apply (inj inr) in Heq. rewrite <-Heq. apply Hfold.
  - intros Heq. apply (inj inr) in Heq. rewrite <-Heq, Hfold. reflexivity.
Qed.

Lemma sum_constant (f : Tile → Q) (q : Q) (l : list Tile) :
  (∀ t, t ∈ l → f t = q) →
  (foldr (λ t acc, f t + acc) 0 l == inject_Z (Z.of_nat (length l)) * q)%Q.
Proof.
  induction l as [|x l IH]; intros Hf.
  - simpl. unfold inject_Z. ring.
  - cbn [foldr length]. rewrite IH by (intros; apply Hf; by right).
    rewrite (Hf x) by left. rewrite Nat2Z.inj_succ, <-Z.add_1_r, inject_Z_plus. ring.
Qed.

Lemma weights_sum ts' (s : gset Tile) w :
  (1 ≤ size s)%nat →
  (∀ t, t ∈ s → tiles ts' !! t = Some (w / inject_Z (Z.of_nat (size s)))%Q) →
  (total_weight ts' s == w)%Q.
Proof.
  intros Hn Hreg. unfold total_weight.
  rewrite (sum_constant _ (w / inject_Z (Z.of_nat (size s)))%Q).
  - change (length (elements s)) with (size s). field.
    intros Hzero. unfold Qeq in Hzero. simpl in Hzero. lia.
  - intros t Ht%elem_of_elements. by rewrite Hreg.
Qed.

(** C7: after [add_tile(path, w)], each of the [n] surviving variants of the
    tile is registered with weight [w / n], where [n >= 1] is their number,
    and these weights sum to [w].  (Weights are rationals here; the sum is
    exact.) *)
Theorem weight_conservation ts p w ts' :
  (∀ s, set_iter s ≡ₚ elements s) →
  add ts p w = inr ts' →
  (1 ≤ size (vars p).2)%nat ∧
  (∀ t, t ∈ (vars p).2 →
        tiles ts' !! t = Some (w / inject_Z (Z.of_nat (size (vars p).2)))%Q) ∧
  (total_weight ts' (vars p).2 == w)%Q.
Proof.
  intros Hiter Hadd.
  pose proof (variants_size open resample p) as Hn.
  pose proof (λ t, add_tile_tiles ts p w ts' t Hiter Hadd) as Hreg.
  revert Hn Hreg. generalize (vars p).2. intros s Hn Hreg.
  assert (∀ t, t ∈ s → tiles ts' !! t = Some (w / inject_Z (Z.of_nat (size s)))%Q) as Hreg'.
  { intros t Ht. by rewrite Hreg, decide_True. }
  split_and!; [done|done|]. by apply weights_sum.
Qed.

End TileSetFacts.

(** ** Facts about [place] *)

Section PlaceFacts.
Variable open : Path → Image.t.
Variable resample : Z → Image.t → Image.t.
Variables width height : Z.

Local Abbreviation border_at := (border open resample).
Local Abbreviation place_nb := (place_neighbor open resample).
Local Abbreviation place_at := (place open resample width height).
Local Abbreviation cands := (candidates open resample).

(** The entry of a neighbour after its update. *)
Lemma frontier_get_updated (fr : list (Coord * gset Tile)) nc valid :
  frontier_get (match frontier_get fr nc with
                | Some _ => frontier_intersection_update fr nc valid
                | None => frontier_new fr nc valid
                end) nc =
  Some (match frontier_get fr nc with
        | Some s => s ∩ valid
        | None => valid
        end).
Proof.
  destruct (frontier_get fr nc) as [s|] eqn:Hget.
  - by rewrite frontier_get_intersection_update, decide_True, Hget.
  - by rewrite frontier_get_new, Hget, decide_True.
Qed.

(** The outcome of one round of the loop of [place]. *)
Lemma place_neighbor_outcome tile st side nc :
  (place_nb tile st (side, nc)).1 =
  if decide (is_Some (placed st !! nc)) then Return
  else if decide (match frontier_get (frontier st) nc with
                  | Some s => s ∩ cands st tile side
                  | None => cands st tile side
                  end = ∅)
       then Raise (ConstraintFailure nc) else Return.
Proof.
  unfold place_neighbor, candidates. simpl.
  destruct (decide (is_Some _)); [done|].
  destruct (match_border _ _ _) as [valid ts]; simpl.
  rewrite frontier_get_updated. simpl.
  destruct (decide (size _ = _)) as [Hs|Hs]; simpl.
  - apply size_empty_iff, leibniz_equiv in Hs. by rewrite decide_True.
  - rewrite decide_False; [done|]. intros Hs'. by rewrite Hs', size_empty in Hs.
Qed.

Lemma place_neighbor_placed tile st item :
  placed (place_nb tile st item).2 = placed st.
Proof.
  unfold place_neighbor.
  destruct (decide (is_Some _)); [done|].
  destruct (match_border _ _ _) as [valid ts].
  by destruct (decide (size _ = _)).
Qed.

Lemma place_neighbor_frontier tile st side nc k :
  frontier_get (frontier (place_nb tile st (side, nc)).2) k =
  if decide (k = nc ∧ placed st !! nc = None)
  then Some (match frontier_get (frontier st) nc with
             | Some s => s ∩ cands st tile side
             | None => cands st tile side
             end)
  else frontier_get (frontier st) k.
Proof.
  unfold place_neighbor, candidates. simpl.
  destruct (decide (is_Some _)) as [Hp|Hp]; simpl.
  { rewrite decide_False; [done|]. intros [_ Hnone]. rewrite Hnone in Hp. by destruct Hp. }
  apply eq_None_not_Some in Hp.
  destruct (match_border _ _ _) as [valid ts]; simpl.
  assert (frontier_get
            (match frontier_get (frontier st) nc with
             | Some _ => frontier_intersection_update (frontier st) nc valid
             | None => frontier_new (frontier st) nc valid
             end) k =
          if decide (k = nc ∧ placed st !! nc = None)
          then Some (match frontier_get (frontier st) nc with
                     | Some s => s ∩ valid
                     | None => valid
                     end)
          else frontier_get (frontier st) k) as Hfr.
  { destruct (frontier_get (frontier st) nc) as [s|] eqn:Hget.
    - rewrite frontier_get_intersection_update.
      destruct (decide (k = nc)) as [->|Hk].
      + by rewrite decide_True, Hget.
      + rewrite decide_False; [done|]. by intros [? _].
    - rewrite frontier_get_new.
      destruct (decide (k = nc)) as [->|Hk].
      + by rewrite decide_True, Hget.
      + rewrite decide_False by (by intros [? _]). by destruct (frontier_get _ k). }
  by destruct (decide (size _ = _)).
Qed.

Lemma for_each_place_neighbor_placed tile l st :
  placed (for_each (place_nb tile) st l).2 = placed st.
Proof.
  apply (for_each_inv (λ st', placed st' = placed st)); [|done].
  intros st1 x <-. apply place_neighbor_placed.
Qed.

Lemma place_placed coord tile st :
  placed (place_at coord tile st).2 = <[coord := tile]> (placed st).
Proof. unfold place. by rewrite for_each_place_neighbor_placed. Qed.

Lemma place_neighbor_fresh tile st item :
  frontier_fresh st → frontier_fresh (place_nb tile st item).2.
Proof.
  destruct item as [side nc]. intros Hfresh k.
  rewrite place_neighbor_frontier, place_neighbor_placed.
  destruct (decide _) as [[-> Hnone]|_]; [done|]. apply Hfresh.
Qed.

Lemma place_fresh coord tile st :
  frontier_fresh st → frontier_fresh (place_at coord tile st).2.
Proof.
  intros Hfresh. unfold place.
  apply (for_each_inv frontier_fresh); [intros; by apply place_neighbor_fresh|].
  intros k. simpl. rewrite frontier_get_pop.
  destruct (decide (k = coord)) as [->|Hk]; [by intros []|].
  intros Hsome. rewrite lookup_insert_ne by done. by apply Hfresh.
Qed.

(** What a call of [place] does to an entry of the frontier. *)
Lemma place_entry coord tile st k s :
  frontier_get (frontier st) k = Some s →
  let st' := (place_at coord tile st).2 in
  if decide (k = coord) then frontier_get (frontier st') k = None
  else ∃ v, frontier_get (frontier st') k = Some (s ∩ v).
Proof.
  intros Hget. simpl. unfold place.
  set (st0 := mkState _ _ _).
  apply (for_each_inv
           (λ st1, placed st1 = placed st0 ∧
                   if decide (k = coord) then frontier_get (frontier st1) k = None
                   else ∃ v, frontier_get (frontier st1) k = Some (s ∩ v))).
  - intros st1 [side nc] [Hpl Hfr]. rewrite place_neighbor_placed. split; [done|].
    rewrite place_neighbor_frontier.
    destruct (decide (k = coord)) as [->|Hk].
    + rewrite decide_False; [done|]. intros [<- Hnone].
      by rewrite Hpl in Hnone; simpl in Hnone; rewrite lookup_insert_eq in Hnone.
    + destruct Hfr as [v Hv].
      destruct (decide _) as [[-> Hnone]|_]; [|by exists v].
      rewrite Hv. exists (v ∩ cands st1 tile side). f_equal. set_solver.
  - split; [done|]. simpl. rewrite frontier_get_pop.
    destruct (decide (k = coord)); [done|]. exists s. rewrite Hget. f_equal. set_solver.
Qed.

(** *** Calls of [place] that return *)

Lemma candidates_sound st tile side t :
  index_sound open resample (tileset st) → t ∈ cands st tile side →
  border_at t ((side + 2) mod 4)%nat = border_at tile side.
Proof.
  unfold candidates, match_border. intros Hsound.
  destruct (border_map (tileset st) !! _) as [s|] eqn:Hs; simpl; [|set_solver].
  intros Ht. by eapply Hsound.
Qed.

Lemma candidates_tileset st st' tile side :
  tileset st = tileset st' → cands st tile side = cands st' tile side.
Proof. unfold candidates. by intros ->. Qed.

(** A round that returns leaves the tile set alone: a border missing from
    the index yields no candidate, and the round raises. *)
Lemma place_neighbor_return tile st side nc st1 :
  place_nb tile st (side, nc) = (Return, st1) →
  tileset st1 = tileset st ∧ placed st1 = placed st.
Proof.
  intros Hnb. split; [|by rewrite <-(place_neighbor_placed tile st (side, nc)), Hnb].
  revert Hnb. unfold place_neighbor. simpl.
  destruct (decide (is_Some _)); [by intros; simplify_eq|].
  unfold match_border.
  destruct (border_map (tileset st) !! _) as [s|] eqn:Hs; simpl.
  - destruct (decide (size _ = _)); by intros; simplify_eq.
  - rewrite frontier_get_updated. simpl.
    rewrite decide_True; [done|].
    destruct (frontier_get (frontier st) nc); simpl; [|done].
    apply size_empty_iff. set_solver.
Qed.

Lemma place_neighbor_nodup tile st item :
  NoDup (frontier st).*1 → NoDup (frontier (place_nb tile st item).2).*1.
Proof.
  intros Hnd. unfold place_neighbor.
  destruct (decide (is_Some _)); [done|].
  destruct (match_border _ _ _) as [valid ts].
  destruct (decide (size _ = _)); simpl; by apply frontier_updated_nodup.
Qed.

Lemma for_each_neighbors_return tile l st0 st1 :
  for_each (place_nb tile) st0 l = (Return, st1) →
  tileset st1 = tileset st0 ∧ placed st1 = placed st0 ∧
  (∀ k s0, frontier_get (frontier st0) k = Some s0 →
           ∃ s1, frontier_get (frontier st1) k = Some s1 ∧ s1 ⊆ s0) ∧
  (∀ k, is_Some (frontier_get (frontier st1) k) →
        is_Some (frontier_get (frontier st0) k) ∨
        (placed st0 !! k = None ∧ ∃ side, (side, k) ∈ l)) ∧
  (∀ side k, (side, k) ∈ l → placed st0 !! k = None →
             ∃ s1, frontier_get (frontier st1) k = Some s1 ∧ s1 ⊆ cands st0 tile side).
Proof.
  revert st0. induction l as [|[side nc] l IH]; intros st0; simpl.
  { intros [= <-]. split_and!; [done|done| | |].
    - intros k s0 ?. by exists s0.
    - by left.
    - by intros side k ?%elem_of_nil. }
  destruct (place_nb tile st0 (side, nc)) as [o sta] eqn:Hnb.
  destruct o; [|done..]. intros Hrest.
  destruct (place_neighbor_return _ _ _ _ _ Hnb) as [Hts Hpl].
  pose proof (place_neighbor_frontier tile st0 side nc) as Hfr. rewrite Hnb in Hfr. simpl in Hfr.
  destruct (IH _ Hrest) as (Hts' & Hpl' & Hmono & Horigin & Hcands).
  split_and!.
  - congruence.
  - congruence.
  - intros k s0 Hk.
    assert (∃ sa, frontier_get (frontier sta) k = Some sa ∧ sa ⊆ s0) as (sa & Hsa & Hsub).
    { rewrite Hfr. destruct (decide _) as [[-> _]|_]; [|by exists s0].
      rewrite Hk. eexists. split; [done|]. set_solver. }
    destruct (Hmono _ _ Hsa) as (s1 & ? & ?). exists s1. split; [done|]. set_solver.
  - intros k Hk. destruct (Horigin _ Hk) as [Ha|[Hnone [side' Hin]]].
    + rewrite Hfr in Ha. destruct (decide _) as [[-> Hnone]|_]; [|by left].
      destruct (frontier_get (frontier st0) nc) eqn:Hget; [left; eauto|].
      right. split; [done|]. exists side. left.
    + right. split; [congruence|]. exists side'. by right.
  - intros side' k [Heq|Hin]%elem_of_cons Hnone.
    + simplify_eq.
      assert (∃ sa, frontier_get (frontier sta) nc = Some sa ∧ sa ⊆ cands st0 tile side)
        as (sa & Hsa & Hsub).
      { rewrite Hfr, decide_True by done. eexists. split; [done|].
        destruct (frontier_get (frontier st0) nc); set_solver. }
      destruct (Hmono _ _ Hsa) as (s1 & ? & ?). exists s1. split; [done|]. set_solver.
    + destruct (Hcands side' k Hin) as (s1 & ? & ?); [congruence|].
      exists s1. split; [done|]. by rewrite (candidates_tileset st0 sta).
Qed.

Local Abbreviation inv := (run_inv open resample width height).

Lemma place_return_tileset coord tile st st' :
  place_at coord tile st = (Return, st') → tileset st' = tileset st.
Proof. unfold place. by intros (-> & _)%for_each_neighbors_return. Qed.

Lemma place_nodup coord tile st :
  NoDup (frontier st).*1 → NoDup (frontier (place_at coord tile st).2).*1.
Proof.
  intros Hnd. unfold place.
  apply (for_each_inv (λ st, NoDup (frontier st).*1)).
  - intros st1 x. apply place_neighbor_nodup.
  - simpl. by apply frontier_pop_nodup.
Qed.

(** A call of [place] that returns keeps the invariants of the run. *)
Lemma place_return_inv coord tile st st' :
  place_at coord tile st = (Return, st') → inv st → inv st'.
Proof.
  intros Hpl [Hsound Hfresh Hnd Hgrid Hcov Hcon].
  pose proof (place_fresh coord tile st Hfresh) as Hfresh'.
  pose proof (place_nodup coord tile st Hnd) as Hnd'.
  pose proof (place_placed coord tile st) as Hplaced.
  rewrite Hpl in Hfresh', Hnd', Hplaced. simpl in *.
  unfold place in Hpl.
  apply for_each_neighbors_return in Hpl as (Hts & _ & Hmono & Horigin & Hcands).
  simpl in *.
  assert (∀ k, k ≠ coord →
               frontier_get (frontier_pop (frontier st) coord) k = frontier_get (frontier st) k)
    as Hpop by (intros k Hk; by rewrite frontier_get_pop, decide_False).
  assert (∀ k, is_Some (frontier_get (frontier st') k) → k ≠ coord) as Hnotcoord.
  { intros k Hk ->. apply Hfresh' in Hk. by rewrite Hplaced, lookup_insert_eq in Hk. }
  split.
  - by rewrite Hts.
  - done.
  - done.
  - intros k Hk. destruct (Horigin _ Hk) as [Hold|[_ [side Hin]]].
    + apply Hgrid. rewrite <-Hpop; [done|]. by apply Hnotcoord.
    + by eapply neighbors_in_grid.
  - intros c side k Hc Hin. rewrite Hplaced in Hc |- *.
    destruct (decide (coord = c)) as [->|Hne].
    + destruct (<[c:=tile]> (placed st) !! k) eqn:Hk; [left; eauto|].
      right. destruct (Hcands _ _ Hin Hk) as (s1 & -> & _). eauto.
    + rewrite lookup_insert_ne in Hc by done.
      destruct (decide (coord = k)) as [->|Hnek].
      { left. rewrite lookup_insert_eq. eauto. }
      rewrite lookup_insert_ne by done.
      destruct (Hcov _ _ _ Hc Hin) as [?|[s0 Hs0]]; [by left|right].
      rewrite <-Hpop in Hs0 by done.
      destruct (Hmono _ _ Hs0) as (s1 & -> & _). eauto.
  - intros k s' t c side tc Hk Ht Hc Hin.
    assert (k ≠ coord) as Hk_ne by (apply Hnotcoord; rewrite Hk; eauto).
    assert (placed st' !! k = None) as Hk_none by (apply Hfresh'; rewrite Hk; eauto).
    rewrite Hplaced in Hc, Hk_none.
    destruct (decide (coord = c)) as [->|Hne].
    + rewrite lookup_insert_eq in Hc. simplify_eq.
      destruct (Hcands _ _ Hin Hk_none) as (s1 & Hs1 & Hsub).
      rewrite Hk in Hs1. simplify_eq. symmetry.
      eapply (candidates_sound (mkState _ _ (tileset st))); [done|]. by apply Hsub.
    + rewrite lookup_insert_ne in Hc by done.
      rewrite lookup_insert_ne in Hk_none by done.
      assert (is_Some (frontier_get (frontier st) k)) as [s0 Hs0].
      { destruct (Hcov c side k) as [[? Hpk]|?]; [by eauto|done| |done]. congruence. }
      pose proof Hs0 as Hs0'. rewrite <-Hpop in Hs0' by done.
      destruct (Hmono _ _ Hs0') as (s1 & Hs1 & Hsub).
      rewrite Hk in Hs1. simplify_eq.
      eapply Hcon; [exact Hs0|by apply Hsub|done|done].
Qed.

(** C9: [place] writes [placed[coord] = tile] whatever the frontier holds
    for [coord]: the tile is in [placed] after the call, whether the call
    returns or raises, and the entry the frontier had for [coord] has no
    influence on the call (its outcome and final state are those of the call
    made with that entry already removed), so a tile outside the candidate
    set of [coord] is accepted like any other. *)
Theorem place_unconditional coord tile st :
  placed (place_at coord tile st).2 !! coord = Some tile ∧
  place_at coord tile st =
  place_at coord tile (mkState (placed st) (frontier_pop (frontier st) coord) (tileset st)).
Proof.
  split.
  - by rewrite place_placed, lookup_insert_eq.
  - unfold place. simpl. by rewrite frontier_pop_idemp.
Qed.

Local Abbreviation step_rel := (place_step open resample width height).

Lemma place_step_fresh st st' : step_rel st st' → frontier_fresh st → frontier_fresh st'.
Proof. intros [coord tile st0]. apply place_fresh. Qed.

Lemma rtc_place_step_fresh st st' :
  rtc step_rel st st' → frontier_fresh st → frontier_fresh st'.
Proof. induction 1; eauto using place_step_fresh. Qed.

Lemma frontier_fresh_init ts : frontier_fresh (mkState ∅ [] ts).
Proof. by intros c []. Qed.

Lemma place_step_placed st st' c :
  step_rel st st' → is_Some (placed st !! c) → is_Some (placed st' !! c).
Proof.
  intros [coord tile st0] Hc. rewrite place_placed.
  destruct (decide (coord = c)) as [->|Hne].
  - rewrite lookup_insert_eq. eauto.
  - by rewrite lookup_insert_ne.
Qed.

Lemma rtc_place_step_placed st st' c :
  rtc step_rel st st' → is_Some (placed st !! c) → is_Some (placed st' !! c).
Proof. induction 1; eauto using place_step_placed. Qed.

(** One call of [place]: an entry is removed when its coordinate is the one
    placed, and is otherwise intersected with some set. *)
Lemma place_step_narrows st st' c s :
  step_rel st st' → frontier_fresh st →
  frontier_get (frontier st) c = Some s →
  match frontier_get (frontier st') c with
  | Some s' => (∃ v, s' = s ∩ v) ∧ placed st' !! c = None
  | None => is_Some (placed st' !! c)
  end.
Proof.
  intros [coord tile st0] Hfresh Hget.
  pose proof (place_entry coord tile st0 c s Hget) as Hentry. simpl in Hentry.
  rewrite place_placed.
  destruct (decide (c = coord)) as [->|Hne].
  - rewrite Hentry, lookup_insert_eq. eauto.
  - destruct Hentry as [v ->]. split; [by exists v|].
    rewrite lookup_insert_ne by done. apply Hfresh. rewrite Hget. eauto.
Qed.

(** C6: along a run, that is along any sequence of calls of [place] that
    starts from the empty [placed] and [frontier], an entry of the frontier
    is absent from [placed] while it exists; at any later point of the run it
    is either still there, with a candidate set that is the intersection of
    the earlier one with some set (hence a subset, of no greater size) and
    its coordinate still unplaced, or it is gone and its coordinate is
    placed. *)
Theorem monotonic_narrowing ts st st' c s :
  rtc step_rel (mkState ∅ [] ts) st →
  rtc step_rel st st' →
  frontier_get (frontier st) c = Some s →
  placed st !! c = None ∧
  match frontier_get (frontier st') c with
  | Some s' => s' ⊆ s ∧ (size s' ≤ size s)%nat ∧ (∃ v, s' = s ∩ v) ∧ placed st' !! c = None
  | None => is_Some (placed st' !! c)
  end.
Proof.
  intros Hinit Hrun Hget.
  assert (frontier_fresh st) as Hfresh
    by eauto using rtc_place_step_fresh, frontier_fresh_init.
  split; [apply Hfresh; rewrite Hget; eauto|].
  clear Hinit. revert s Hget Hfresh.
  induction Hrun as [st|st st1 st' Hstep Hrun IH]; intros s Hget Hfresh.
  - rewrite Hget. split_and!; [done|done|exists s; set_solver|].
    apply Hfresh. rewrite Hget. eauto.
  - pose proof (place_step_narrows _ _ _ _ Hstep Hfresh Hget) as Hone.
    assert (frontier_fresh st1) as Hfresh1 by eauto using place_step_fresh.
    destruct (frontier_get (frontier st1) c) as [s1|] eqn:Hget1.
    + destruct Hone as [[v ->] _].
      specialize (IH _ eq_refl Hfresh1).
      destruct (frontier_get (frontier st') c) as [s'|]; [|done].
      destruct IH as (Hsub & Hsize & [v' ->] & Hnone).
      split_and!; [set_solver| |exists (v ∩ v'); set_solver|done].
      apply subseteq_size. set_solver.
    + assert (is_Some (placed st' !! c)) as Hplaced
        by eauto using rtc_place_step_placed.
      destruct (frontier_get (frontier st') c) as [s'|] eqn:Hget'; [|done].
      assert (frontier_fresh st') as Hfresh' by eauto using rtc_place_step_fresh.
      rewrite Hfresh' in Hplaced; [by destruct Hplaced|]. rewrite Hget'. eauto.
Qed.

(** *** What a run does to the tile set *)

(** A call of [place] leaves the weights, the established size and the sets
    filed in the border index as they are; it can only add borders that
    were not in the index, with empty sets. *)
Lemma place_neighbor_tileset tile st item :
  let ts := tileset st in
  let ts' := tileset (place_nb tile st item).2 in
  tiles ts' = tiles ts ∧ tile_width ts' = tile_width ts ∧ tile_height ts' = tile_height ts ∧
  ∀ k, border_map ts' !! k = border_map ts !! k ∨
       (border_map ts !! k = None ∧ border_map ts' !! k = Some ∅).
Proof.
  simpl. unfold place_neighbor.
  destruct (decide (is_Some _)); [by auto|].
  unfold match_border.
  destruct (border_map (tileset st) !! _) as [s|] eqn:Hs; simpl.
  - destruct (decide (size _ = _)); simpl; by auto.
  - assert (∀ k, <[(((item.1 + 2) mod 4)%nat, border_at tile item.1) := ∅]>
                   (border_map (tileset st)) !! k = border_map (tileset st) !! k ∨
                 (border_map (tileset st) !! k = None ∧
                  <[(((item.1 + 2) mod 4)%nat, border_at tile item.1) := ∅]>
                    (border_map (tileset st)) !! k = Some ∅)) as Hbm.
    { intros k. destruct (decide ((((item.1 + 2) mod 4)%nat, border_at tile item.1) = k))
        as [<-|Hne].
      - right. by rewrite lookup_insert_eq.
      - left. by rewrite lookup_insert_ne. }
    destruct (decide (size _ = _)); simpl; by auto.
Qed.

Lemma place_step_tileset st st' :
  step_rel st st' →
  tiles (tileset st') = tiles (tileset st) ∧
  tile_width (tileset st') = tile_width (tileset st) ∧
  tile_height (tileset st') = tile_height (tileset st) ∧
  ∀ k s, border_map (tileset st) !! k = Some s → border_map (tileset st') !! k = Some s.
Proof.
  intros [coord tile st0]. unfold place.
  set (st1 := mkState _ _ _).
  change (tileset st0) with (tileset st1). generalize st1. clear st1.
  induction (neighbors coord width height) as [|item l IH]; intros st1; simpl; [done|].
  pose proof (place_neighbor_tileset tile st1 item) as (Ht & Hw & Hh & Hbm). simpl in *.
  assert (∀ k s, border_map (tileset st1) !! k = Some s →
                 border_map (tileset (place_nb tile st1 item).2) !! k = Some s) as Hkeep.
  { intros k s Hk. destruct (Hbm k) as [->|[Hnone _]]; congruence. }
  destruct (place_nb tile st1 item) as [[] st2]; simpl in *; [|done..].
  destruct (IH st2) as (Ht' & Hw' & Hh' & Hbm').
  split_and!; [congruence..|]. intros k s Hk. by apply Hbm', Hkeep.
Qed.

Lemma rtc_place_step_tileset st st' :
  rtc step_rel st st' →
  tiles (tileset st') = tiles (tileset st) ∧
  tile_width (tileset st') = tile_width (tileset st) ∧
  tile_height (tileset st') = tile_height (tileset st) ∧
  ∀ k s, border_map (tileset st) !! k = Some s → border_map (tileset st') !! k = Some s.
Proof.
  induction 1 as [st|st st1 st' Hstep _ IH]; [done|].
  destruct (place_step_tileset _ _ Hstep) as (Ht & Hw & Hh & Hbm).
  destruct IH as (Ht' & Hw' & Hh' & Hbm').
  split_and!; [congruence..|]. intros k s Hk. by apply Hbm', Hbm.
Qed.

End PlaceFacts.

(** ** Facts about the run *)

Section RunFacts.
Variable open : Path → Image.t.
Variable resample : Z → Image.t → Image.t.
Variable set_iter : gset Tile → list Tile.
Variable RngState : Type.
Variable Random : Z → RngState.
Variable rng_choice : RngState → list Tile → option Tile * RngState.
Variable rng_choices : RngState → list Tile → list Q → option Tile * RngState.
Variables width height : Z.

Local Abbreviation border_at := (border open resample).
Local Abbreviation cands := (candidates open resample).
Local Abbreviation place_nb := (place_neighbor open resample).
Local Abbreviation place_at := (place open resample width height).
Local Abbreviation step_rel := (place_step open resample width height).
Local Abbreviation step_at := (step open resample set_iter RngState rng_choices width height).
Local Abbreviation loop_at := (loop open resample set_iter RngState rng_choices width height).
Local Abbreviation seeds_at := (place_seeds open resample width height).
Local Abbreviation generate :=
  (generate_image open resample set_iter RngState Random rng_choice rng_choices width height).

Lemma get_weights_error ts l e : get_weights ts l = inl e → ∃ t, e = KeyError t.
Proof.
  induction l as [|t l IH]; simpl; [done|].
  unfold get_weight. destruct (tiles ts !! t); [|intros; simplify_eq; eauto].
  destruct (get_weights ts l); [|done]. intros; simplify_eq. eauto.
Qed.

(** An iteration of the loop either raises before it touches the state, or
    is a call of [place] at the coordinate [min] selects, with a tile
    [rng.choices] drew from the sorted candidates of that coordinate. *)
Lemma step_cases st rng o st' rng' :
  step_at st rng = (o, st', rng') →
  (st' = st ∧ ∃ e, o = Raise e ∧ ∀ c, e ≠ ConstraintFailure c) ∨
  (∃ coord s ws tile,
      frontier_min (frontier st) = Some (coord, s) ∧
      get_weights (tileset st) (sorted set_iter s) = inr ws ∧
      rng_choices rng (sorted set_iter s) ws = (Some tile, rng') ∧
      place_at coord tile st = (o, st')).
Proof.
  unfold step. destruct (frontier_min (frontier st)) as [[coord s]|] eqn:Hmin.
  - destruct (get_weights _ _) as [e|ws] eqn:Hws.
    + intros; simplify_eq. left. split; [done|]. exists e. split; [done|].
      destruct (get_weights_error _ _ _ Hws) as [t ->]. done.
    + destruct (rng_choices _ _ _) as [[tile|] rng1] eqn:Hrng.
      * destruct (place_at coord tile st) as [o1 st1] eqn:Hplace.
        intros; simplify_eq. right. by exists coord, s, ws, tile.
      * intros; simplify_eq. left. split; [done|]. by exists ChoiceFailure.
  - intros; simplify_eq. left. split; [done|]. by exists EmptyFrontier.
Qed.

Lemma step_run st rng : rtc step_rel st (step_at st rng).1.2.
Proof.
  destruct (step_at st rng) as [[o st'] rng'] eqn:Hstep. simpl.
  destruct (step_cases _ _ _ _ _ Hstep) as [[-> _]|(coord & s & ws & tile & _ & _ & _ & Hpl)].
  - done.
  - apply rtc_once. replace st' with (place_at coord tile st).2 by by rewrite Hpl.
    constructor.
Qed.

Lemma loop_run fuel st rng : rtc step_rel st (loop_at fuel st rng).1.2.
Proof.
  revert st rng. induction fuel as [|fuel IH]; intros st rng; simpl.
  - by destruct (decide _).
  - destruct (decide _); [|done].
    pose proof (step_run st rng) as Hone.
    destruct (step_at st rng) as [[[] st1] rng1]; simpl in *; [|done..].
    etrans; [done|]. apply IH.
Qed.

Lemma place_seeds_run seed st : rtc step_rel st (seeds_at seed st).2.
Proof.
  unfold place_seeds. revert st. induction seed as [|[c t] seed IH]; intros st; simpl; [done|].
  assert (step_rel st (place_at c t st).2) as Hone by constructor.
  destruct (place_at c t st) as [[] st1]; simpl in *; [|by apply rtc_once..].
  etrans; [by apply rtc_once|]. apply IH.
Qed.

(** All that a run does to its state, it does by calls of [place]. *)
Lemma generate_image_run ts seed rng :
  rtc step_rel (mkState ∅ [] ts) (generate ts seed rng).1.2.
Proof.
  unfold generate_image.
  set (r := default _ rng). set (st := mkState _ _ _).
  destruct (match seed with Some _ => _ | None => _ end) as [[l|] r1]; [|done].
  pose proof (place_seeds_run l st) as Hseeds.
  destruct (seeds_at l st) as [[] st1]; simpl in *; [|done..].
  etrans; [done|]. apply loop_run.
Qed.

Lemma generate_image_seeded ts l rng :
  generate ts (Some l) rng =
  match seeds_at l (mkState ∅ [] ts) with
  | (Return, st) => loop_at (Z.to_nat (width * height)) st (default (Random 8675309) rng)
  | (o, st) => (o, st, default (Random 8675309) rng)
  end.
Proof. reflexivity. Qed.

Lemma generate_image_unseeded ts rng :
  generate ts None rng =
  match rng_choice (default (Random 8675309) rng) (sorted set_iter (dom (tiles ts))) with
  | (Some tile, r) =>
      match seeds_at [((0, 0), tile)] (mkState ∅ [] ts) with
      | (Return, st) => loop_at (Z.to_nat (width * height)) st r
      | (o, st) => (o, st, r)
      end
  | (None, r) => (Raise ChoiceFailure, mkState ∅ [] ts, r)
  end.
Proof.
  unfold generate_image.
  by destruct (rng_choice (default (Random 8675309) rng) _) as [[tile|] r].
Qed.

(** A run leaves the weights of the tile set as they are. *)
Lemma generate_image_tiles ts seed rng :
  tiles (tileset (generate ts seed rng).1.2) = tiles ts.
Proof.
  pose proof (generate_image_run ts seed rng) as Hrun.
  by apply rtc_place_step_tileset in Hrun as (-> & _).
Qed.

(** A constraint failure of the loop is the failure of a call of [place],
    and the loop ends in the state that call left. *)
Lemma loop_constraint_failure fuel st rng nc st' rng' :
  loop_at fuel st rng = (Raise (ConstraintFailure nc), st', rng') →
  ∃ coord tile st0, place_at coord tile st0 = (Raise (ConstraintFailure nc), st').
Proof.
  revert st rng. induction fuel as [|fuel IH]; intros st rng; simpl.
  { by destruct (decide _). }
  destruct (decide _); [|done].
  destruct (step_at st rng) as [[o st1] rng1] eqn:Hstep.
  destruct o; [apply IH| |done].
  intros; simplify_eq.
  destruct (step_cases _ _ _ _ _ Hstep)
    as [(_ & e & ? & Hne)|(coord & s & ws & tile & _ & _ & _ & Hpl)].
  - simplify_eq. by destruct (Hne nc).
  - eauto.
Qed.

Lemma place_seeds_constraint_failure seed st nc st' :
  seeds_at seed st = (Raise (ConstraintFailure nc), st') →
  ∃ coord tile st0, place_at coord tile st0 = (Raise (ConstraintFailure nc), st').
Proof.
  intros Hrun. apply for_each_stopped in Hrun as (pre & [c t] & post & st1 & _ & _ & Hpl); [|done].
  eauto.
Qed.

Lemma generate_image_constraint_failure ts seed rng nc st' rng' :
  generate ts seed rng = (Raise (ConstraintFailure nc), st', rng') →
  ∃ coord tile st0, place_at coord tile st0 = (Raise (ConstraintFailure nc), st').
Proof.
  unfold generate_image.
  set (r := default _ rng). set (st := mkState _ _ _).
  destruct (match seed with Some _ => _ | None => _ end) as [[l|] r1]; [|done].
  destruct (seeds_at l st) as [o st1] eqn:Hseeds.
  destruct o.
  - apply loop_constraint_failure.
  - intros; simplify_eq. by eapply place_seeds_constraint_failure.
  - done.
Qed.

(** A call of [place] that raises stopped at one neighbour: the neighbours
    before it went through, and the round of that neighbour raised. *)
Lemma place_raise coord tile st e st' :
  place_at coord tile st = (Raise e, st') →
  ∃ pre side nc post st1,
    neighbors coord width height = pre ++ (side, nc) :: post ∧
    for_each (place_nb tile)
             (mkState (<[coord := tile]> (placed st)) (frontier_pop (frontier st) coord)
                      (tileset st)) pre = (Return, st1) ∧
    place_nb tile st1 (side, nc) = (Raise e, st').
Proof.
  unfold place. intros Hrun.
  apply for_each_stopped in Hrun as (pre & [side nc] & post & st1 & ? & ? & ?); [|done].
  by exists pre, side, nc, post, st1.
Qed.

(** The round of a neighbour raises only a constraint failure at that
    neighbour, leaving its entry empty. *)
Lemma place_neighbor_raise tile st side nc e st' :
  place_nb tile st (side, nc) = (Raise e, st') →
  e = ConstraintFailure nc ∧ placed st !! nc = None ∧
  frontier_get (frontier st') nc = Some ∅ ∧ placed st' = placed st.
Proof.
  intros Hnb.
  pose proof (place_neighbor_outcome open resample tile st side nc) as Hout.
  pose proof (place_neighbor_frontier open resample tile st side nc nc) as Hfr.
  pose proof (place_neighbor_placed open resample tile st (side, nc)) as Hpl.
  rewrite Hnb in Hout, Hfr, Hpl. simpl in *.
  destruct (decide (is_Some _)) as [|Hnone]; [done|].
  apply eq_None_not_Some in Hnone.
  destruct (decide (_ = ∅)) as [Hempty|]; [|done].
  rewrite decide_True in Hfr by done. rewrite Hempty in Hfr. by simplify_eq.
Qed.

(** *** Adjacent tiles *)

Local Abbreviation inv := (run_inv open resample width height).
Local Abbreviation cons := (consistent open resample width height).

Lemma run_inv_init ts : index_sound open resample ts → inv (mkState ∅ [] ts).
Proof.
  intros Hsound. split; simpl.
  - done.
  - apply frontier_fresh_init.
  - constructor.
  - by intros k [].
  - intros c side k [tc Hc]. simpl in Hc. by rewrite lookup_empty in Hc.
  - intros k s t c side tc [=].
Qed.

(** Placing, at a frontier coordinate, one of its candidates keeps adjacent
    tiles consistent. *)
Lemma place_return_consistent sc coord tile s st st' :
  place_at coord tile st = (Return, st') → inv st →
  frontier_get (frontier st) coord = Some s → tile ∈ s →
  cons sc st → cons sc st'.
Proof.
  intros Hpl Hinv Hget Htile Hcons c n side tc tn Hc Hn Hin Hsc.
  pose proof (place_placed open resample width height coord tile st) as Hplaced.
  rewrite Hpl in Hplaced. simpl in Hplaced. rewrite Hplaced in Hc, Hn.
  assert (n ≠ c) as Hne by by eapply neighbors_ne.
  destruct (decide (coord = c)) as [Hc_eq|Hc_ne], (decide (coord = n)) as [Hn_eq|Hn_ne];
    subst.
  - done.
  - rewrite lookup_insert_eq in Hc. rewrite lookup_insert_ne in Hn by done. simplify_eq.
    assert (in_grid width height c) as Hgrid
      by (apply (inv_grid _ _ _ _ _ Hinv); rewrite Hget; eauto).
    pose proof (neighbors_opposite _ _ _ _ _ Hin Hgrid) as Hopp.
    pose proof (inv_constrained _ _ _ _ _ Hinv _ _ _ _ _ _ Hget Htile Hn Hopp) as Hfit.
    rewrite Hfit, opposite_involutive; [done|].
    apply neighbors_elem in Hin. tauto.
  - rewrite lookup_insert_eq in Hn. rewrite lookup_insert_ne in Hc by done. simplify_eq.
    exact (inv_constrained _ _ _ _ _ Hinv _ _ _ _ _ _ Hget Htile Hc Hin).
  - rewrite lookup_insert_ne in Hc, Hn by done. by eapply Hcons.
Qed.

Lemma place_seeds_inv seed st st' :
  seeds_at seed st = (Return, st') → inv st →
  (∀ c, is_Some (placed st !! c) → c ∈ seed.*1) →
  inv st' ∧ (∀ c, is_Some (placed st' !! c) → c ∈ seed.*1).
Proof.
  intros Hrun Hinv Hwithin.
  eapply (for_each_return_inv
            (λ st, inv st ∧ ∀ c, is_Some (placed st !! c) → c ∈ seed.*1)); [|done|done].
  intros st1 [c t] st2 Hin Hpl [Hinv1 Hwithin1]. simpl in Hpl. split.
  - by eapply place_return_inv.
  - intros c'. replace st2 with (place_at c t st1).2 by by rewrite Hpl.
    rewrite place_placed.
    destruct (decide (c = c')) as [<-|Hne].
    + intros _. apply list_elem_of_fmap. by exists (c, t).
    + rewrite lookup_insert_ne by done. apply Hwithin1.
Qed.

Section WellBehaved.
Hypothesis set_iter_perm : ∀ s, set_iter s ≡ₚ elements s.
Hypothesis rng_choices_elem :
  ∀ r pop ws tile r', rng_choices r pop ws = (Some tile, r') → tile ∈ pop.

Lemma step_return_inv sc st rng st' rng' :
  step_at st rng = (Return, st', rng') → inv st → cons sc st → inv st' ∧ cons sc st'.
Proof.
  intros Hstep Hinv Hcons.
  destruct (step_cases _ _ _ _ _ Hstep)
    as [(_ & e & ? & _)|(coord & s & ws & tile & Hmin & _ & Hrng & Hpl)]; [done|].
  apply rng_choices_elem, sorted_elem in Hrng; [|done].
  apply frontier_min_first in Hmin as (pre & post & Hfr & _).
  assert (frontier_get (frontier st) coord = Some s) as Hget.
  { apply frontier_get_elem; [by destruct Hinv|]. rewrite Hfr. set_solver. }
  split.
  - by eapply place_return_inv.
  - by eapply place_return_consistent.
Qed.

Lemma loop_return_inv sc fuel st rng st' rng' :
  loop_at fuel st rng = (Return, st', rng') → inv st → cons sc st →
  cons sc st' ∧ ¬ Z.of_nat (size (placed st')) < width * height.
Proof.
  revert st rng. induction fuel as [|fuel IH]; intros st rng; simpl.
  - destruct (decide _); [done|]. by intros [= <- <-].
  - destruct (decide _); [|by intros [= <- <-]].
    destruct (step_at st rng) as [[o st1] rng1] eqn:Hstep.
    destruct o; [|done..]. intros Hrest Hinv Hcons.
    destruct (step_return_inv sc _ _ _ _ Hstep Hinv Hcons). by eapply IH.
Qed.

End WellBehaved.

(** C1 (as amended): a run that returns has filled the grid, and in its
    final [placed] any two adjacent coordinates that the caller did not both
    pin carry tiles whose facing borders are equal: the border of the first
    on the side facing the second is the border of the second on the opposite
    side.  (Two adjacent pins are written as given.)
    The tile set is one built by [add_tile], the iteration order of sets
    enumerates their elements, and [rng.choices] returns a member of its
    population. *)
Theorem adjacency_consistent catalog ts seed rng st rng' :
  (∀ s, set_iter s ≡ₚ elements s) →
  (∀ r pop ws tile r', rng_choices r pop ws = (Some tile, r') → tile ∈ pop) →
  load open resample set_iter catalog = inr ts →
  generate ts seed rng = (Return, st, rng') →
  ¬ Z.of_nat (size (placed st)) < width * height ∧
  ∀ c n side tc tn,
    placed st !! c = Some tc → placed st !! n = Some tn →
    (side, n) ∈ neighbors c width height →
    ¬ (c ∈ caller_seeds seed ∧ n ∈ caller_seeds seed) →
    border_at tc side = border_at tn ((side + 2) mod 4)%nat.
Proof.
  intros Hiter Hrng Hload. apply load_sound in Hload.
  pose proof (run_inv_init ts Hload) as Hinit.
  unfold generate_image.
  set (r := default _ rng). set (st0 := mkState _ _ _) in *.
  assert (∀ l r1,
             match seeds_at l st0 with
             | (Return, st1) => loop_at (Z.to_nat (width * height)) st1 r1
             | (o, st1) => (o, st1, r1)
             end = (Return, st, rng') →
             ¬ Z.of_nat (size (placed st)) < width * height ∧ cons l.*1 st) as Hmain.
  { intros l r1. destruct (seeds_at l st0) as [o st1] eqn:Hseeds.
    destruct o; [|done..]. intros Hloop.
    destruct (place_seeds_inv _ _ _ Hseeds Hinit) as [Hinv1 Hwithin].
    { intros c [tc Hc]. simpl in Hc. by rewrite lookup_empty in Hc. }
    assert (cons l.*1 st1) as Hcons1.
    { intros c n side tc tn Hc Hn _ []. split; apply Hwithin; eauto. }
    destruct (loop_return_inv Hiter Hrng _ _ _ _ _ _ Hloop Hinv1 Hcons1). done. }
  destruct seed as [l|]; simpl.
  - intros Hrun. by apply Hmain in Hrun.
  - destruct (rng_choice r _) as [[tile|] r1]; [|done].
    intros Hrun. apply Hmain in Hrun as [Hfull Hcons]. split; [done|].
    intros c n side tc tn Hc Hn Hin _. eapply Hcons; [done..|].
    simpl. intros [->%list_elem_of_singleton ->%list_elem_of_singleton].
    by eapply neighbors_ne.
Qed.

(** C3 (as amended): an iteration of the loop that gets as far as placing a
    tile places it at the coordinate of the first entry, in the insertion
    order of the frontier, among the entries with the smallest candidate set:
    every entry before it has a strictly larger set, every entry after it a
    set at least as large.  Otherwise the iteration raises, before it touches
    the state, an error that is not a constraint failure. *)
Theorem selection_first_smallest st rng o st' rng' :
  step_at st rng = (o, st', rng') →
  (st' = st ∧ ∃ e, o = Raise e ∧ ∀ c, e ≠ ConstraintFailure c) ∨
  (∃ coord s tile pre post,
      frontier st = pre ++ (coord, s) :: post ∧
      (∀ x, x ∈ pre → (size s < size x.2)%nat) ∧
      (∀ x, x ∈ post → (size s ≤ size x.2)%nat) ∧
      place_at coord tile st = (o, st')).
Proof.
  intros Hstep.
  destruct (step_cases _ _ _ _ _ Hstep)
    as [?|(coord & s & ws & tile & Hmin & _ & _ & Hpl)]; [by left|right].
  apply frontier_min_first in Hmin as (pre & post & Hfr & Hpre & Hpost).
  by exists coord, s, tile, pre, post.
Qed.

End RunFacts.

(** ** Determinism *)

Section Determinism.
Variable open : Path → Image.t.
Variable resample : Z → Image.t → Image.t.
Variable RngState : Type.
Variable Random : Z → RngState.
Variable rng_choice : RngState → list Tile → option Tile * RngState.
Variable rng_choices : RngState → list Tile → list Q → option Tile * RngState.
Variables width height : Z.

(** The iteration orders of two processes. *)
Variables iter1 iter2 : gset Tile → list Tile.
Hypothesis iter1_perm : ∀ s, iter1 s ≡ₚ elements s.
Hypothesis iter2_perm : ∀ s, iter2 s ≡ₚ elements s.

Lemma add_tile_iter_indep ts p w :
  add_tile open resample iter1 ts p w = add_tile open resample iter2 ts p w.
Proof. unfold add_tile. by rewrite (sorted_iter_indep iter1 iter2). Qed.

Lemma load_iter_indep catalog :
  load open resample iter1 catalog = load open resample iter2 catalog.
Proof.
  unfold load. generalize (inr TileSet_new : Error + TileSet).
  induction catalog as [|[p w] catalog IH]; intros acc; simpl; [done|].
  destruct acc as [e|ts]; [apply IH|]. rewrite add_tile_iter_indep. apply IH.
Qed.

Lemma step_iter_indep st rng :
  step open resample iter1 RngState rng_choices width height st rng =
  step open resample iter2 RngState rng_choices width height st rng.
Proof.
  unfold step. destruct (frontier_min (frontier st)) as [[coord s]|]; [|done].
  by rewrite (sorted_iter_indep iter1 iter2).
Qed.

Lemma loop_iter_indep fuel st rng :
  loop open resample iter1 RngState rng_choices width height fuel st rng =
  loop open resample iter2 RngState rng_choices width height fuel st rng.
Proof.
  revert st rng. induction fuel as [|fuel IH]; intros st rng; simpl; [done|].
  destruct (decide _); [|done]. rewrite step_iter_indep.
  destruct (step _ _ iter2 _ _ _ _ st rng) as [[[] st1] rng1]; auto.
Qed.

(** C4: two runs on the same tile catalog, grid size, seed assignments and
    generator state end with the same outcome, the same [placed] (the same
    state altogether) and the same generator state, whatever the order in
    which each process iterates over its sets of tiles; the tile sets the two
    processes build from one catalog are the same as well. *)
Theorem generation_deterministic catalog ts seed rng :
  load open resample iter1 catalog = load open resample iter2 catalog ∧
  generate_image open resample iter1 RngState Random rng_choice rng_choices
                 width height ts seed rng =
  generate_image open resample iter2 RngState Random rng_choice rng_choices
                 width height ts seed rng.
Proof.
  split; [apply load_iter_indep|].
  unfold generate_image. rewrite (sorted_iter_indep iter1 iter2) by done.
  destruct (match seed with Some _ => _ | None => _ end) as [[l|] r1]; [|done].
  destruct (place_seeds _ _ _ _ l _) as [[] st1]; [|done..].
  apply loop_iter_indep.
Qed.

End Determinism.


(** ** Termination, errors and the frame of a run *)

Section RunBounds.
Variable open : Path → Image.t.
Variable resample : Z → Image.t → Image.t.
Variable set_iter : gset Tile → list Tile.
Variable RngState : Type.
Variable Random : Z → RngState.
Variable rng_choice : RngState → list Tile → option Tile * RngState.
Variable rng_choices : RngState → list Tile → list Q → option Tile * RngState.
Variables width height : Z.

Local Abbreviation cands := (candidates open resample).
Local Abbreviation place_nb := (place_neighbor open resample).
Local Abbreviation place_at := (place open resample width height).
Local Abbreviation step_rel := (place_step open resample width height).
Local Abbreviation step_at := (step open resample set_iter RngState rng_choices width height).
Local Abbreviation loop_at := (loop open resample set_iter RngState rng_choices width height).
Local Abbreviation seeds_at := (place_seeds open resample width height).
Local Abbreviation generate :=
  (generate_image open resample set_iter RngState Random rng_choice rng_choices width height).

Lemma place_not_diverge coord tile st : (place_at coord tile st).1 ≠ Diverge.
Proof.
  destruct (place_at coord tile st) as [o st'] eqn:Hpl. simpl. intros ->.
  unfold place in Hpl.
  apply for_each_stopped in Hpl as (pre & [side nc] & post & st1 & _ & _ & Hnb); [|done].
  pose proof (place_neighbor_outcome open resample tile st1 side nc) as Hout.
  rewrite Hnb in Hout. simpl in Hout.
  by repeat destruct (decide _).
Qed.

Lemma place_seeds_not_diverge seed st : (seeds_at seed st).1 ≠ Diverge.
Proof.
  destruct (seeds_at seed st) as [o st'] eqn:Hrun. simpl. intros ->.
  apply for_each_stopped in Hrun as (pre & [c t] & post & st1 & _ & _ & Hpl); [|done].
  apply (place_not_diverge c t st1). simpl in Hpl. by rewrite Hpl.
Qed.

(** An iteration of the loop that returns wrote one coordinate that was not
    placed before. *)
Lemma step_return_placed st rng st' rng' :
  frontier_fresh st → step_at st rng = (Return, st', rng') →
  ∃ coord tile, placed st !! coord = None ∧ placed st' = <[coord := tile]> (placed st).
Proof.
  intros Hfresh Hstep.
  destruct (step_cases _ _ _ _ _ _ _ _ _ _ _ _ Hstep)
    as [(_ & e & ? & _)|(coord & s & ws & tile & Hmin & _ & _ & Hpl)]; [done|].
  exists coord, tile. split.
  - apply Hfresh. apply frontier_min_first in Hmin as (pre & post & Hfr & _).
    destruct (frontier_get (frontier st) coord) eqn:Hget; [eauto|].
    apply frontier_get_None in Hget. destruct Hget. rewrite Hfr, fmap_app, fmap_cons.
    apply elem_of_app. right. left.
  - by rewrite <-(place_placed open resample width height coord tile st), Hpl.
Qed.

Lemma step_fresh st rng : frontier_fresh st → frontier_fresh (step_at st rng).1.2.
Proof.
  intros Hfresh. eapply rtc_place_step_fresh; [apply step_run|done].
Qed.

Lemma loop_fuel fuel st rng :
  frontier_fresh st →
  width * height - Z.of_nat (size (placed st)) ≤ Z.of_nat fuel →
  (loop_at fuel st rng).1.1 ≠ Diverge.
Proof.
  revert st rng. induction fuel as [|fuel IH]; intros st rng Hfresh Hfuel; simpl.
  - destruct (decide _); [lia|done].
  - destruct (decide _); [|done].
    pose proof (step_fresh st rng Hfresh) as Hfresh'.
    destruct (step_at st rng) as [[o st1] rng1] eqn:Hstep. simpl in Hfresh'.
    destruct o.
    + apply IH; [done|].
      destruct (step_return_placed _ _ _ _ Hfresh Hstep) as (coord & tile & Hnone & ->).
      rewrite map_size_insert_None by done. lia.
    + done.
    + destruct (step_cases _ _ _ _ _ _ _ _ _ _ _ _ Hstep)
        as [(_ & e & ? & _)|(coord & s & ws & tile & _ & _ & _ & Hpl)]; [done|].
      destruct (place_not_diverge coord tile st). by rewrite Hpl.
Qed.

(** X1: The [while] loop ends within [width * height] iterations: with that
    much fuel the model of [generate_image] never runs out of it. *)
Theorem generate_image_terminates ts seed rng :
  (generate ts seed rng).1.1 ≠ Diverge.
Proof.
  unfold generate_image.
  set (r := default _ rng). set (st := mkState _ _ _).
  destruct (match seed with Some _ => _ | None => _ end) as [[l|] r1]; [|done].
  pose proof (place_seeds_not_diverge l st) as Hseeds.
  pose proof (place_seeds_run open resample width height l st) as Hrun.
  destruct (seeds_at l st) as [o st1]. simpl in *.
  destruct o; [|done..].
  apply loop_fuel.
  - eapply rtc_place_step_fresh; [done|]. apply frontier_fresh_init.
  - lia.
Qed.

(** X2: The loop never overwrites: in a state reached by calls of [place] from
    the empty one, an iteration that returns wrote exactly one coordinate,
    one that was not in [placed], and left every other entry as it was. *)
Theorem loop_step_adds_one ts st rng st' rng' :
  rtc step_rel (mkState ∅ [] ts) st →
  step_at st rng = (Return, st', rng') →
  ∃ coord tile,
    placed st !! coord = None ∧
    placed st' = <[coord := tile]> (placed st) ∧
    size (placed st') = S (size (placed st)) ∧
    ∀ c t, placed st !! c = Some t → placed st' !! c = Some t.
Proof.
  intros Hreach Hstep.
  assert (frontier_fresh st) as Hfresh
    by (eapply rtc_place_step_fresh; [done|apply frontier_fresh_init]).
  destruct (step_return_placed _ _ _ _ Hfresh Hstep) as (coord & tile & Hnone & ->).
  exists coord, tile. split_and!; [done|done|by apply map_size_insert_None|].
  intros c t Hc. rewrite lookup_insert_ne; [done|]. intros ->. congruence.
Qed.

End RunBounds.

(** ** A failing call of [place] ends the run *)

Section Abort.
Variable open : Path → Image.t.
Variable resample : Z → Image.t → Image.t.
Variable set_iter : gset Tile → list Tile.
Variable RngState : Type.
Variable Random : Z → RngState.
Variable rng_choice : RngState → list Tile → option Tile * RngState.
Variable rng_choices : RngState → list Tile → list Q → option Tile * RngState.
Variables width height : Z.

Local Abbreviation cands := (candidates open resample).
Local Abbreviation place_nb := (place_neighbor open resample).
Local Abbreviation place_at := (place open resample width height).
Local Abbreviation step_rel := (place_step open resample width height).
Local Abbreviation step_at := (step open resample set_iter RngState rng_choices width height).
Local Abbreviation loop_at := (loop open resample set_iter RngState rng_choices width height).
Local Abbreviation seeds_at := (place_seeds open resample width height).
Local Abbreviation seeding_at :=
  (seeding open resample set_iter RngState Random rng_choice width height).
Local Abbreviation generate :=
  (generate_image open resample set_iter RngState Random rng_choice rng_choices width height).

Lemma generate_image_seeding ts seed rng :
  generate ts seed rng =
  match seeding_at ts seed rng with
  | (Return, st, r) => loop_at (Z.to_nat (width * height)) st r
  | x => x
  end.
Proof.
  unfold seeding. destruct seed as [l|].
  - rewrite generate_image_seeded. by destruct (seeds_at l _) as [[] ?].
  - rewrite generate_image_unseeded.
    destruct (rng_choice _ _) as [[tile|] r]; [|done].
    by destruct (seeds_at _ _) as [[] ?].
Qed.

Lemma seeding_fresh ts seed rng : frontier_fresh (seeding_at ts seed rng).1.2.
Proof.
  assert (∀ l, frontier_fresh (seeds_at l (mkState ∅ [] ts)).2) as Hseeds.
  { intros l. eapply rtc_place_step_fresh; [apply place_seeds_run|apply frontier_fresh_init]. }
  unfold seeding. destruct seed as [l|].
  - specialize (Hseeds l). by destruct (seeds_at l _).
  - destruct (rng_choice _ _) as [[tile|] r]; [|apply frontier_fresh_init].
    specialize (Hseeds [((0, 0), tile)]). by destruct (seeds_at _ _).
Qed.

Lemma step_not_diverge st rng : (step_at st rng).1.1 ≠ Diverge.
Proof.
  destruct (step_at st rng) as [[o st'] rng'] eqn:Hstep. simpl. intros ->.
  destruct (step_cases _ _ _ _ _ _ _ _ _ _ _ _ Hstep)
    as [(_ & e & ? & _)|(coord & s & ws & tile & _ & _ & _ & Hpl)]; [done|].
  destruct (place_not_diverge open resample width height coord tile st). by rewrite Hpl.
Qed.

(** [loop k] running out of fuel in [stk]: [k] iterations went through,
    and the loop goes on from [stk] as it would from the start. *)
Lemma loop_resume k fuel st rng stk rngk :
  loop_at k st rng = (Diverge, stk, rngk) →
  Z.of_nat (size (placed stk)) < width * height ∧
  loop_at (k + fuel) st rng = loop_at fuel stk rngk.
Proof.
  revert st rng. induction k as [|k IH]; intros st rng; simpl.
  { destruct (decide _); [|done]. intros [= <- <-]. split; [done|].
    destruct fuel; simpl; by rewrite decide_True. }
  destruct (decide _); [|done].
  pose proof (step_not_diverge st rng) as Hnd.
  destruct (step_at st rng) as [[o st1] rng1]. simpl in Hnd.
  destruct o; [apply IH|done|done].
Qed.

Lemma loop_resume_fuel k st rng stk rngk :
  frontier_fresh st → loop_at k st rng = (Diverge, stk, rngk) →
  (k < Z.to_nat (width * height))%nat.
Proof.
  intros Hfresh Hloop.
  destruct (decide (k < Z.to_nat (width * height))%nat) as [|Hge]; [done|].
  destruct (loop_fuel open resample set_iter RngState rng_choices width height k st rng);
    [done|lia|by rewrite Hloop].
Qed.

(** C2 (as amended): when the update of a neighbour during [place] leaves
    its candidate set empty, [place] raises at once the constraint failure
    naming that neighbour, in the state that update produced, without
    touching the neighbours that come after; a call of [place] raises in no
    other way, and the state it leaves keeps the tile just written to
    [placed] and the entry of the offending neighbour, now empty, in
    [frontier].  The run stops there: when a call of [place] on a seed
    raises, [generate_image] raises the same error in the state that call
    left, the seeds after it are not placed and the loop is not entered;
    when the call of [place] of an iteration raises, the iteration raises the
    same error in the state the call left; and when an iteration raises,
    after any number of iterations that went through, [generate_image] raises
    the same error in the state that iteration left, with no further
    iteration.  Conversely a run that ends with a constraint failure ends in
    the very state a failing call of [place] left. *)
Theorem contradiction_aborts :
  (∀ coord tile st pre side nc post st1,
      neighbors coord width height = pre ++ (side, nc) :: post →
      for_each (place_nb tile)
               (mkState (<[coord := tile]> (placed st)) (frontier_pop (frontier st) coord)
                        (tileset st)) pre = (Return, st1) →
      placed st1 !! nc = None →
      match frontier_get (frontier st1) nc with
      | Some s => s ∩ cands st1 tile side
      | None => cands st1 tile side
      end = ∅ →
      place_at coord tile st =
      (Raise (ConstraintFailure nc), (place_nb tile st1 (side, nc)).2)) ∧
  (∀ coord tile st e st',
      place_at coord tile st = (Raise e, st') →
      ∃ side nc,
        e = ConstraintFailure nc ∧
        (side, nc) ∈ neighbors coord width height ∧
        frontier_get (frontier st') nc = Some ∅ ∧
        placed st' = <[coord := tile]> (placed st) ∧
        placed st' !! nc = None) ∧
  (∀ ts before coord tile after rng st1 e st',
      seeds_at before (mkState ∅ [] ts) = (Return, st1) →
      place_at coord tile st1 = (Raise e, st') →
      generate ts (Some (before ++ (coord, tile) :: after)) rng =
      (Raise e, st', default (Random 8675309) rng)) ∧
  (∀ st rng coord s ws tile rng' e st',
      frontier_min (frontier st) = Some (coord, s) →
      get_weights (tileset st) (sorted set_iter s) = inr ws →
      rng_choices rng (sorted set_iter s) ws = (Some tile, rng') →
      place_at coord tile st = (Raise e, st') →
      step_at st rng = (Raise e, st', rng')) ∧
  (∀ ts seed rng st0 rng0 k stk rngk e st' rng',
      seeding_at ts seed rng = (Return, st0, rng0) →
      loop_at k st0 rng0 = (Diverge, stk, rngk) →
      step_at stk rngk = (Raise e, st', rng') →
      generate ts seed rng = (Raise e, st', rng')) ∧
  (∀ ts seed rng nc st' rng',
      generate ts seed rng = (Raise (ConstraintFailure nc), st', rng') →
      ∃ coord tile st, place_at coord tile st = (Raise (ConstraintFailure nc), st')).
Proof.
  split_and!.
  - intros coord tile st pre side nc post st1 Hnb Hpre Hnone Hempty.
    unfold place. rewrite Hnb, for_each_app, Hpre. simpl.
    pose proof (place_neighbor_outcome open resample tile st1 side nc) as Hout.
    rewrite decide_False, decide_True in Hout by (done || by rewrite Hnone; intros []).
    destruct (place_nb tile st1 (side, nc)) as [o st2]. simpl in *. by subst.
  - intros coord tile st e st' Hpl.
    pose proof (place_placed open resample width height coord tile st) as Hplaced.
    rewrite Hpl in Hplaced. simpl in Hplaced.
    apply place_raise in Hpl as (pre & side & nc & post & st1 & Hnb & Hpre & Hlast).
    apply place_neighbor_raise in Hlast as (-> & Hnone & Hget & Heq).
    exists side, nc. split_and!; [done| |done|done|by rewrite Heq].
    rewrite Hnb. set_solver.
  - intros ts before coord tile after rng st1 e st' Hbefore Hpl.
    rewrite generate_image_seeded. unfold place_seeds in *.
    rewrite for_each_app, Hbefore. simpl. by rewrite Hpl.
  - intros st rng coord s ws tile rng' e st' Hmin Hws Hrng Hpl.
    unfold step. by rewrite Hmin, Hws, Hrng, Hpl.
  - intros ts seed rng st0 rng0 k stk rngk e st' rng' Hseed Hloop Hstep.
    pose proof (seeding_fresh ts seed rng) as Hfresh. rewrite Hseed in Hfresh.
    pose proof (loop_resume_fuel _ _ _ _ _ Hfresh Hloop) as Hk.
    rewrite generate_image_seeding, Hseed.
    replace (Z.to_nat (width * height))
      with (k + S (Z.to_nat (width * height) - S k))%nat by lia.
    destruct (loop_resume k (S (Z.to_nat (width * height) - S k)) _ _ _ _ Hloop)
      as [Hcond ->].
    simpl. rewrite decide_True by done. by rewrite Hstep.
  - apply generate_image_constraint_failure.
Qed.

End Abort.

(** ** The tile set during a run *)

Section RunFrame.
Variable open : Path → Image.t.
Variable resample : Z → Image.t → Image.t.
Variable set_iter : gset Tile → list Tile.
Variable RngState : Type.
Variable Random : Z → RngState.
Variable rng_choice : RngState → list Tile → option Tile * RngState.
Variable rng_choices : RngState → list Tile → list Q → option Tile * RngState.
Variables width height : Z.

Local Abbreviation cands := (candidates open resample).
Local Abbreviation place_nb := (place_neighbor open resample).
Local Abbreviation place_at := (place open resample width height).
Local Abbreviation step_rel := (place_step open resample width height).
Local Abbreviation step_at := (step open resample set_iter RngState rng_choices width height).
Local Abbreviation loop_at := (loop open resample set_iter RngState rng_choices width height).
Local Abbreviation seeds_at := (place_seeds open resample width height).
Local Abbreviation generate :=
  (generate_image open resample set_iter RngState Random rng_choice rng_choices width height).

(** A call of [place] changes the border index only by new keys holding the
    empty set. *)
Lemma place_step_index st st' k :
  step_rel st st' →
  border_map (tileset st') !! k = border_map (tileset st) !! k ∨
  (border_map (tileset st) !! k = None ∧ border_map (tileset st') !! k = Some ∅).
Proof.
  intros [coord tile st0]. unfold place.
  set (st1 := mkState _ _ _).
  change (tileset st0) with (tileset st1). generalize st1. clear st1.
  induction (neighbors coord width height) as [|item l IH]; intros st1; simpl; [by left|].
  pose proof (place_neighbor_tileset open resample tile st1 item) as (_ & _ & _ & Hbm).
  simpl in Hbm. specialize (Hbm k).
  destruct (place_nb tile st1 item) as [[] st2]; simpl in *; [|done..].
  destruct (IH st2) as [Heq|[Hnone Hsome]].
  - rewrite Heq. done.
  - right. split; [|done]. destruct Hbm as [Hbm|[? Hbm]]; congruence.
Qed.

Lemma rtc_place_step_index st st' k :
  rtc step_rel st st' →
  border_map (tileset st') !! k = border_map (tileset st) !! k ∨
  (border_map (tileset st) !! k = None ∧ border_map (tileset st') !! k = Some ∅).
Proof.
  induction 1 as [st|st st1 st' Hstep _ IH]; [by left|].
  destruct (place_step_index _ _ k Hstep) as [Heq|[Hnone Hsome]].
  - by rewrite <-Heq.
  - right. split; [done|]. destruct IH as [IH|[? IH]]; congruence.
Qed.

Lemma loop_return_tileset fuel st rng st' rng' :
  loop_at fuel st rng = (Return, st', rng') → tileset st' = tileset st.
Proof.
  revert st rng. induction fuel as [|fuel IH]; intros st rng; simpl.
  - destruct (decide _); [done|]. by intros [= <- <-].
  - destruct (decide _); [|by intros [= <- <-]].
    destruct (step_at st rng) as [[o st1] rng1] eqn:Hstep.
    destruct o; [|done..]. intros Hrest. rewrite (IH _ _ Hrest).
    destruct (step_cases _ _ _ _ _ _ _ _ _ _ _ _ Hstep)
      as [(_ & e & ? & _)|(coord & s & ws & tile & _ & _ & _ & Hpl)]; [done|].
    by eapply place_return_tileset.
Qed.

Lemma place_seeds_return_tileset seed st st' :
  seeds_at seed st = (Return, st') → tileset st' = tileset st.
Proof.
  intros Hrun.
  eapply (for_each_return_inv (λ st1, tileset st1 = tileset st)); [|done|done].
  intros st1 [c t] st2 _ Hpl <-. by eapply place_return_tileset.
Qed.

(** X3: A run leaves the weights and the established size of the tile set as
    they are, and every key of the border index with the set it held; all it
    can add to the index are keys holding the empty set.  A run that returns
    leaves the whole tile set as it was. *)
Theorem generate_image_frame ts seed rng :
  let r := generate ts seed rng in
  tiles (tileset r.1.2) = tiles ts ∧
  tile_width (tileset r.1.2) = tile_width ts ∧
  tile_height (tileset r.1.2) = tile_height ts ∧
  (∀ k, border_map (tileset r.1.2) !! k = border_map ts !! k ∨
        (border_map ts !! k = None ∧ border_map (tileset r.1.2) !! k = Some ∅)) ∧
  (r.1.1 = Return → tileset r.1.2 = ts).
Proof.
  intros r. unfold r.
  pose proof (generate_image_run open resample set_iter RngState Random rng_choice
                rng_choices width height ts seed rng) as Hrun.
  pose proof (rtc_place_step_tileset _ _ _ _ _ _ Hrun) as (Ht & Hw & Hh & _).
  split_and!; [done|done|done| |].
  - intros k. apply (rtc_place_step_index _ _ k Hrun).
  - clear. unfold generate_image.
    set (r := default _ rng). set (st := mkState _ _ _).
    destruct (match seed with Some _ => _ | None => _ end) as [[l|] r1]; [|done].
    destruct (seeds_at l st) as [o st1] eqn:Hseeds.
    destruct o; [|done..].
    apply place_seeds_return_tileset in Hseeds.
    destruct (loop_at _ st1 r1) as [[o st2] r2] eqn:Hloop. simpl. intros ->.
    apply loop_return_tileset in Hloop. by rewrite Hloop, Hseeds.
Qed.

(** *** Weights are always found *)

Lemma match_border_registered ts b side :
  index_registered ts →
  index_registered (match_border ts b side).2 ∧
  tiles (match_border ts b side).2 = tiles ts ∧
  ∀ t, t ∈ (match_border ts b side).1 → is_Some (tiles ts !! t).
Proof.
  intros Hreg. unfold match_border.
  destruct (border_map ts !! (side, b)) as [s|] eqn:Hs; simpl.
  - split_and!; [done|done|]. intros t Ht. by eapply Hreg.
  - split_and!; [|done|set_solver].
    intros k s t. simpl. destruct (decide ((side, b) = k)) as [<-|Hne].
    + rewrite lookup_insert_eq. intros [= <-]. set_solver.
    + rewrite lookup_insert_ne by done. apply Hreg.
Qed.

Lemma place_neighbor_registered tile st item :
  index_registered (tileset st) ∧ frontier_registered st →
  index_registered (tileset (place_nb tile st item).2) ∧
  frontier_registered (place_nb tile st item).2.
Proof.
  intros [Hreg Hfr]. destruct item as [side nc].
  pose proof (place_neighbor_tileset open resample tile st (side, nc)) as (Ht & _ & _ & Hbm).
  pose proof (place_neighbor_frontier open resample tile st side nc) as Hget.
  simpl in *. split.
  - intros k s t Hk Hin. rewrite Ht.
    destruct (Hbm k) as [Heq|[_ Hempty]].
    + rewrite Heq in Hk. by eapply Hreg.
    + rewrite Hempty in Hk. set_solver.
  - intros c s t Hc Hin. rewrite Ht. rewrite Hget in Hc.
    assert (∀ t, t ∈ cands st tile side → is_Some (tiles (tileset st) !! t)) as Hcand.
    { intros t'. unfold candidates. by apply match_border_registered. }
    destruct (decide _) as [[-> Hnone]|_]; [|by eapply Hfr].
    simplify_eq. destruct (frontier_get (frontier st) nc) as [s0|] eqn:Hs0.
    + apply Hcand. set_solver.
    + by apply Hcand.
Qed.

Lemma place_registered coord tile st :
  index_registered (tileset st) ∧ frontier_registered st →
  index_registered (tileset (place_at coord tile st).2) ∧
  frontier_registered (place_at coord tile st).2.
Proof.
  intros [Hreg Hfr]. unfold place.
  apply (for_each_inv (λ st, index_registered (tileset st) ∧ frontier_registered st)).
  - intros st1 x. apply place_neighbor_registered.
  - split; [done|]. intros c s t. simpl. rewrite frontier_get_pop.
    destruct (decide (c = coord)); [done|]. apply Hfr.
Qed.

Lemma rtc_place_step_registered st st' :
  rtc step_rel st st' →
  index_registered (tileset st) ∧ frontier_registered st →
  index_registered (tileset st') ∧ frontier_registered st'.
Proof.
  induction 1 as [st|st st1 st' [coord tile st0] _ IH]; [done|].
  intros Hst. by apply IH, place_registered.
Qed.

Lemma get_weights_registered ts l :
  (∀ t, t ∈ l → is_Some (tiles ts !! t)) → ∃ ws, get_weights ts l = inr ws.
Proof.
  induction l as [|t l IH]; intros Hl; simpl; [by eexists|].
  unfold get_weight. destruct (Hl t) as [w ->]; [left|].
  destruct IH as [ws ->]; [intros; apply Hl; by right|]. by eexists.
Qed.

Lemma register_registered w ts tile :
  index_registered ts → index_registered (register open resample w ts tile).
Proof.
  intros Hreg.
  assert (∀ k s t, border_map (register open resample w ts tile) !! k = Some s → t ∈ s →
                   t = tile ∨ is_Some (tiles ts !! t)) as Hbm.
  { unfold register. cbn [border_map].
    assert (∀ k s t, border_map ts !! k = Some s → t ∈ s →
                     t = tile ∨ is_Some (tiles ts !! t)) as Hstart by eauto.
    revert Hstart. generalize (border_map ts). generalize (seq 0 4).
    intros sides. induction sides as [|side sides IH]; intros bm Hstart; simpl; [exact Hstart|].
    apply IH. intros k s t. unfold border_map_add.
    destruct (decide ((side, border open resample tile side) = k)) as [<-|Hne].
    - rewrite lookup_insert_eq. intros [= <-] [->%elem_of_singleton|Ht]%elem_of_union; [by left|].
      destruct (bm !! _) as [s0|] eqn:Hs0; simpl in Ht; [by eapply Hstart|set_solver].
    - rewrite lookup_insert_ne by done. apply Hstart. }
  intros k s t Hk Hin. destruct (Hbm k s t Hk Hin) as [->|Hsome].
  - simpl. rewrite lookup_insert_eq. eauto.
  - simpl. apply lookup_insert_is_Some. destruct (decide (tile = t)); auto.
Qed.

Lemma add_tile_registered ts p w ts' :
  add_tile open resample set_iter ts p w = inr ts' →
  index_registered ts → index_registered ts'.
Proof.
  unfold add_tile. intros Hadd Hreg.
  assert (∀ q l ts0, index_registered ts0 →
                     index_registered (foldl (register open resample q) ts0 l)) as Hfold.
  { intros q l ts0. apply (foldl_preserves index_registered).
    intros. by apply register_registered. }
  destruct (tile_width ts) as [tw|].
  - destruct (decide (Image.width (open p) ≠ tw)); [discriminate|].
    apply (inj inr) in Hadd. rewrite <-Hadd. by apply Hfold.
  - apply (inj inr) in Hadd. rewrite <-Hadd. by apply Hfold.
Qed.

Lemma load_registered catalog ts :
  load open resample set_iter catalog = inr ts → index_registered ts.
Proof.
  unfold load.
  assert (∀ acc, (∀ ts0, acc = inr ts0 → index_registered ts0) →
                 foldl (λ acc pw, match acc with
                                  | inl e => inl e
                                  | inr ts => add_tile open resample set_iter ts pw.1 pw.2
                                  end) acc catalog = inr ts → index_registered ts) as Hfold.
  { induction catalog as [|[p w] catalog IH]; intros acc Hacc; simpl; [by apply Hacc|].
    apply IH. destruct acc as [e|ts0]; [done|].
    intros ts1 Hadd. eapply add_tile_registered; [done|]. by apply Hacc. }
  apply Hfold. intros ts0 [= <-] k s t Hk. simpl in Hk. by rewrite lookup_empty in Hk.
Qed.

Lemma rtc_place_step_nodup st st' :
  rtc step_rel st st' → NoDup (frontier st).*1 → NoDup (frontier st').*1.
Proof.
  induction 1 as [st|st st1 st' [coord tile st0] _ IH]; [done|].
  intros Hnd. by apply IH, place_nodup.
Qed.

Lemma place_raises_constraint coord tile st e :
  (place_at coord tile st).1 = Raise e → ∃ c, e = ConstraintFailure c.
Proof.
  destruct (place_at coord tile st) as [o st'] eqn:Hpl. simpl. intros ->.
  apply place_raise in Hpl as (pre & side & nc & post & st1 & _ & _ & Hlast).
  apply place_neighbor_raise in Hlast as (-> & _). eauto.
Qed.

Lemma step_weights_found st rng t :
  (∀ s, set_iter s ≡ₚ elements s) →
  NoDup (frontier st).*1 → frontier_registered st →
  (step_at st rng).1.1 ≠ Raise (KeyError t).
Proof.
  intros Hiter Hnd Hfr. unfold step.
  destruct (frontier_min (frontier st)) as [[coord s]|] eqn:Hmin; [|done].
  apply frontier_min_first in Hmin as (pre & post & Heq & _).
  assert (frontier_get (frontier st) coord = Some s) as Hget.
  { apply frontier_get_elem; [done|]. rewrite Heq. set_solver. }
  destruct (get_weights_registered (tileset st) (sorted set_iter s)) as [ws ->].
  { intros t' Ht'%sorted_elem; [|done]. by eapply Hfr. }
  destruct (rng_choices rng _ ws) as [[tile|] rng1]; [|done].
  simpl. intros Hraise. by apply place_raises_constraint in Hraise as [c [=]].
Qed.

Lemma loop_weights_found fuel st rng t :
  (∀ s, set_iter s ≡ₚ elements s) →
  NoDup (frontier st).*1 →
  index_registered (tileset st) ∧ frontier_registered st →
  (loop_at fuel st rng).1.1 ≠ Raise (KeyError t).
Proof.
  intros Hiter. revert st rng. induction fuel as [|fuel IH]; intros st rng Hnd Hreg; simpl.
  - by destruct (decide _).
  - destruct (decide _); [|done].
    pose proof (step_weights_found st rng t Hiter Hnd (proj2 Hreg)) as Hstep.
    pose proof (step_run open resample set_iter RngState rng_choices width height st rng)
      as Hrun.
    destruct (step_at st rng) as [[o st1] rng1]. simpl in *.
    destruct o; [|done..].
    apply IH; [by eapply rtc_place_step_nodup|by eapply rtc_place_step_registered].
Qed.

(** X4: On a tile set built by [add_tile], [get_weight] finds the weight of
    every candidate: a run never raises [KeyError]. *)
Theorem generate_image_weights_found catalog ts seed rng t :
  (∀ s, set_iter s ≡ₚ elements s) →
  load open resample set_iter catalog = inr ts →
  (generate ts seed rng).1.1 ≠ Raise (KeyError t).
Proof.
  intros Hiter Hload%load_registered. unfold generate_image.
  set (r := default _ rng). set (st := mkState _ _ _).
  destruct (match seed with Some _ => _ | None => _ end) as [[l|] r1]; [|done].
  pose proof (place_seeds_run open resample width height l st) as Hrun.
  destruct (seeds_at l st) as [o st1] eqn:Hseeds. simpl in Hrun.
  destruct o; [|simpl|done].
  - apply loop_weights_found; [done| |].
    + eapply rtc_place_step_nodup; [done|]. constructor.
    + eapply rtc_place_step_registered; [done|]. split; [done|]. by intros c s t' [=].
  - intros [= ->].
    apply for_each_stopped in Hseeds as (pre & [c t'] & post & st2 & _ & _ & Hpl); [|done].
    simpl in Hpl.
    destruct (place_raises_constraint c t' st2 (KeyError t)) as [c' [=]]. by rewrite Hpl.
Qed.

End RunFrame.

(** ** More about tile sets *)

Section TileSetMore.
Variable open : Path → Image.t.
Variable resample : Z → Image.t → Image.t.
Variable set_iter : gset Tile → list Tile.

Local Abbreviation border_at := (border open resample).
Local Abbreviation add := (add_tile open resample set_iter).
Local Abbreviation reg := (register open resample).
Local Abbreviation vars := (variants open resample).
Local Abbreviation load_all := (load open resample set_iter).

Lemma foldl_register_size q l ts :
  tile_width (foldl (reg q) ts l) = tile_width ts ∧
  tile_height (foldl (reg q) ts l) = tile_height ts.
Proof.
  revert ts. induction l as [|t l IH]; intros ts; simpl; [done|].
  by destruct (IH (reg q ts t)) as [-> ->].
Qed.

(** The first tile establishes the size of the tiles, the tiles added
    later leave it as it is, and a tile that is accepted has the established
    width. *)
Lemma add_tile_size ts p w ts' :
  add ts p w = inr ts' →
  match tile_width ts with
  | None =>
      tile_width ts' = Some (Image.width (open p)) ∧
      tile_height ts' = Some (Image.height (open p))
  | Some tw =>
      Image.width (open p) = tw ∧
      tile_width ts' = Some tw ∧ tile_height ts' = tile_height ts
  end.
Proof.
  unfold add_tile. destruct (tile_width ts) as [tw|] eqn:Htw.
  - destruct (decide (Image.width (open p) ≠ tw)) as [|Heq]; [discriminate|].
    intros Hadd. apply (inj inr) in Hadd. rewrite <-Hadd.
    destruct (foldl_register_size
                (w / inject_Z (Z.of_nat (size (vars p).2)))%Q (sorted set_iter (vars p).2) ts)
      as [-> ->].
    split_and!; [by apply dec_stable|done..].
  - intros Hadd. apply (inj inr) in Hadd. rewrite <-Hadd.
    by destruct (foldl_register_size
                   (w / inject_Z (Z.of_nat (size (vars p).2)))%Q (sorted set_iter (vars p).2)
                   (mkTileSet (tiles ts) (border_map ts) (Some (Image.width (open p)))
                              (Some (Image.height (open p))))) as [-> ->].
Qed.

Lemma load_snoc catalog p w :
  load_all (catalog ++ [(p, w)]) =
  match load_all catalog with
  | inl e => inl e
  | inr ts => add ts p w
  end.
Proof. unfold load. by rewrite foldl_snoc. Qed.

(** X5: The images of a catalog that loads all have the width of the first
    image, which is the width the tile set reports, and the height the tile
    set reports is the height of the first image.  An empty catalog
    establishes no size. *)
Theorem load_sizes catalog ts :
  load_all catalog = inr ts →
  (∀ p w, (p, w) ∈ catalog → tile_width ts = Some (Image.width (open p))) ∧
  tile_height ts = (λ pw, Image.height (open pw.1)) <$> head catalog ∧
  (catalog = [] → tile_width ts = None).
Proof.
  revert ts. induction catalog as [|[p w] catalog IH] using rev_ind; intros ts.
  { intros [= <-]. split_and!; [by intros p w ?%elem_of_nil|done..]. }
  rewrite load_snoc. destruct (load_all catalog) as [e|ts0] eqn:Hload; [done|].
  intros Hadd. apply add_tile_size in Hadd.
  destruct (IH ts0 eq_refl) as (Hall & Hheight & Hnil).
  split_and!; [| |by intros [_ [=]]%app_nil].
  - destruct (tile_width ts0) as [tw|] eqn:Htw.
    + destruct Hadd as (Hw & Htw' & _).
      intros p' w' [Hin|Hin]%elem_of_app.
      * rewrite Htw'. by eapply Hall.
      * apply list_elem_of_singleton in Hin. simplify_eq. by rewrite Htw'.
    + destruct Hadd as (Htw' & _).
      intros p' w' [Hin|Hin]%elem_of_app.
      * specialize (Hall _ _ Hin). congruence.
      * apply list_elem_of_singleton in Hin. by simplify_eq.
  - destruct catalog as [|pw catalog].
    + rewrite Hnil in Hadd by done. by destruct Hadd as [_ ->].
    + destruct (tile_width ts0) as [tw|] eqn:Htw.
      * destruct Hadd as (_ & _ & ->). done.
      * destruct pw as [p0 w0]. by specialize (Hall p0 w0 ltac:(left)).
Qed.

(** A base tile has between one and eight canonical variants. *)
Lemma variants_bounds p : (1 ≤ size (vars p).2 ≤ 8)%nat.
Proof.
  split; [apply variants_size|].
  assert (∀ t, t ∈ (vars p).2 → ∃ tr, tr ∈ transforms ∧ t = mkTile p tr.1 tr.2) as Hmem
    by exact (variants_members open resample p transforms).
  revert Hmem. generalize (vars p).2. intros s Hmem.
  trans (size (list_to_set ((λ tr, mkTile p tr.1 tr.2) <$> transforms) : gset Tile)).
  - apply subseteq_size. intros t Ht. apply elem_of_list_to_set, list_elem_of_fmap.
    destruct (Hmem t Ht) as (tr & ? & ->). by exists tr.
  - rewrite size_list_to_set; [done|]. rewrite transforms_eq. simpl.
    repeat (apply NoDup_cons; split; [set_solver|]). apply NoDup_nil_2.
Qed.

Lemma add_tile_dom ts p w ts' :
  (∀ s, set_iter s ≡ₚ elements s) →
  add ts p w = inr ts' →
  dom (tiles ts') = dom (tiles ts) ∪ (vars p).2.
Proof.
  intros Hiter Hadd.
  pose proof (λ t, add_tile_tiles open resample set_iter ts p w ts' t Hiter Hadd) as Hlook.
  revert Hlook. generalize (vars p).2. intros s Hlook.
  apply set_eq. intros t. rewrite elem_of_union, !elem_of_dom, Hlook.
  destruct (decide (t ∈ s)); [|tauto]. split; [by right|eauto].
Qed.

(** X6: [add_tile] registers the canonical variants of the tile and nothing
    else: the tiles with a weight afterwards are those that had one and the
    variants; [len(tileset)] grows by at most eight, and a first tile leaves
    it between one and eight. *)
Theorem add_tile_len ts p w ts' :
  (∀ s, set_iter s ≡ₚ elements s) →
  add ts p w = inr ts' →
  dom (tiles ts') = dom (tiles ts) ∪ (vars p).2 ∧
  (1 ≤ size (vars p).2 ≤ 8)%nat ∧
  (TileSet_len ts ≤ TileSet_len ts' ≤ TileSet_len ts + 8)%nat ∧
  (TileSet_len ts = 0%nat → TileSet_len ts' = size (vars p).2).
Proof.
  intros Hiter Hadd.
  pose proof (add_tile_dom _ _ _ _ Hiter Hadd) as Hdom.
  pose proof (variants_bounds p) as Hbounds.
  revert Hdom Hbounds. generalize (vars p).2. intros s Hdom Hbounds.
  unfold TileSet_len. rewrite <-!size_dom, Hdom.
  split; [done|]. split; [done|]. split; [split|].
  - apply subseteq_size. set_solver.
  - rewrite size_union_alt.
    assert (size (s ∖ dom (tiles ts)) ≤ size s)%nat by (apply subseteq_size; set_solver).
    lia.
  - intros Hzero. apply size_empty_iff, leibniz_equiv in Hzero. rewrite Hzero.
    f_equal. set_solver.
Qed.

(** *** The border index *)

Local Abbreviation is_filed := (filed open resample).

Lemma border_map_add_filed side b tile bm t :
  is_filed bm t → is_filed (border_map_add side b tile bm) t.
Proof.
  intros Hfiled side' Hside'. destruct (Hfiled side' Hside') as (s & Hs & Ht).
  unfold border_map_add.
  destruct (decide ((side, b) = (side', border_at t side'))) as [Heq|Hne].
  - rewrite Heq, lookup_insert_eq, Hs. simpl. eexists. split; [done|]. set_solver.
  - rewrite lookup_insert_ne by done. eauto.
Qed.

Lemma register_border_map q ts tile :
  border_map (reg q ts tile) =
  foldl (λ bm side, border_map_add side (border_at tile side) tile bm) (border_map ts) (seq 0 4).
Proof. reflexivity. Qed.

Lemma register_filed q ts tile t :
  is_filed (border_map ts) t → is_filed (border_map (reg q ts tile)) t.
Proof.
  rewrite register_border_map. generalize (border_map ts). generalize (seq 0 4).
  intros sides. induction sides as [|side sides IH]; intros bm Hbm; simpl; [done|].
  by apply IH, border_map_add_filed.
Qed.

Lemma register_filed_self q ts tile : is_filed (border_map (reg q ts tile)) tile.
Proof.
  rewrite register_border_map. intros side Hside.
  assert (side ∈ seq 0 4) as Hin by (apply elem_of_seq; lia).
  revert Hin. generalize (border_map ts). generalize (seq 0 4).
  intros sides. induction sides as [|side0 sides IH]; intros bm Hin; simpl.
  { by apply elem_of_nil in Hin. }
  apply elem_of_cons in Hin as [->|Hin]; [|by apply IH].
  assert (∃ s, border_map_add side0 (border_at tile side0) tile bm
                 !! (side0, border_at tile side0) = Some s ∧ tile ∈ s) as Hnow.
  { unfold border_map_add. rewrite lookup_insert_eq. eexists. split; [done|]. set_solver. }
  revert Hnow. generalize (border_map_add side0 (border_at tile side0) tile bm).
  clear IH. induction sides as [|side1 sides IH]; intros bm1 Hnow; simpl; [done|].
  apply IH. destruct Hnow as (s & Hs & Ht). unfold border_map_add.
  destruct (decide ((side1, border_at tile side1) = (side0, border_at tile side0)))
    as [Heq|Hne].
  - rewrite Heq, lookup_insert_eq, Hs. simpl. eexists. split; [done|]. set_solver.
  - rewrite lookup_insert_ne by done. eauto.
Qed.

Lemma register_complete q ts tile :
  index_complete open resample ts → index_complete open resample (reg q ts tile).
Proof.
  intros Hcomp t Ht. simpl in Ht. apply lookup_insert_is_Some in Ht as [<-|[_ Ht]].
  - apply register_filed_self.
  - by apply register_filed, Hcomp.
Qed.

Lemma add_tile_complete ts p w ts' :
  add ts p w = inr ts' → index_complete open resample ts → index_complete open resample ts'.
Proof.
  unfold add_tile. intros Hadd Hcomp.
  assert (∀ q l ts0, index_complete open resample ts0 →
                     index_complete open resample (foldl (reg q) ts0 l)) as Hfold.
  { intros q l ts0. apply (foldl_preserves (index_complete open resample)).
    intros. by apply register_complete. }
  destruct (tile_width ts) as [tw|].
  - destruct (decide (Image.width (open p) ≠ tw)); [discriminate|].
    apply (inj inr) in Hadd. rewrite <-Hadd. by apply Hfold.
  - apply (inj inr) in Hadd. rewrite <-Hadd. by apply Hfold.
Qed.

Lemma load_complete catalog ts :
  load_all catalog = inr ts → index_complete open resample ts.
Proof.
  revert ts. induction catalog as [|[p w] catalog IH] using rev_ind; intros ts.
  { intros [= <-] t [x Hx]. simpl in Hx. by rewrite lookup_empty in Hx. }
  rewrite load_snoc. destruct (load_all catalog) as [e|ts0]; [done|].
  intros Hadd. eapply add_tile_complete; [done|]. by apply IH.
Qed.

(** X7: On a tile set built by [add_tile], [match_border(b, side)] returns
    exactly the registered tiles whose border on [side] is [b]. *)
Theorem match_border_exact catalog ts b side t :
  load_all catalog = inr ts → (side < 4)%nat →
  t ∈ (match_border ts b side).1 ↔ is_Some (tiles ts !! t) ∧ border_at t side = b.
Proof.
  intros Hload Hside.
  pose proof (load_sound _ _ _ _ _ Hload) as Hsound.
  pose proof (load_complete _ _ Hload) as Hcomp.
  assert (index_registered ts) as Hreg.
  { clear Hsound Hcomp. revert ts Hload.
    induction catalog as [|[p w] catalog IH] using rev_ind; intros ts.
    - intros [= <-] k s t' Hk. simpl in Hk. by rewrite lookup_empty in Hk.
    - rewrite load_snoc. destruct (load_all catalog) as [e|ts0]; [done|].
      intros Hadd. eapply add_tile_registered; [done|]. by apply IH. }
  unfold match_border. split.
  - destruct (border_map ts !! (side, b)) as [s|] eqn:Hs; simpl; [|set_solver].
    intros Ht. split; [by eapply Hreg|by eapply Hsound].
  - intros [Ht <-]. destruct (Hcomp t Ht side Hside) as (s & -> & Hin). done.
Qed.

(** *** Adding a tile again *)






End TileSetMore.

(** ** Neighbours and seeds at the edge of the grid *)

Section Edges.
Variable open : Path → Image.t.
Variable resample : Z → Image.t → Image.t.
Variable set_iter : gset Tile → list Tile.
Variable RngState : Type.
Variable Random : Z → RngState.
Variable rng_choice : RngState → list Tile → option Tile * RngState.
Variable rng_choices : RngState → list Tile → list Q → option Tile * RngState.
Variables width height : Z.

Local Abbreviation place_at := (place open resample width height).
Local Abbreviation loop_at := (loop open resample set_iter RngState rng_choices width height).
Local Abbreviation seeds_at := (place_seeds open resample width height).
Local Abbreviation generate :=
  (generate_image open resample set_iter RngState Random rng_choice rng_choices width height).

(** X9: Being neighbours is mutual inside the grid: [n] is the neighbour of
    [coord] on [side] exactly when [n] is in the grid and [coord] is the
    neighbour of [n] on the opposite side. *)
Theorem neighbors_mutual coord side n :
  in_grid width height coord → (side < 4)%nat →
  (side, n) ∈ neighbors coord width height ↔
  in_grid width height n ∧ (((side + 2) mod 4)%nat, coord) ∈ neighbors n width height.
Proof.
  intros Hgrid Hside. split.
  - intros Hin. split; [by eapply neighbors_in_grid|by apply neighbors_opposite].
  - intros [Hn Hin]. apply (neighbors_opposite _ _ _ _ _ Hin) in Hn.
    by rewrite opposite_involutive in Hn.
Qed.

Lemma place_seeds_isolated seed st :
  (∀ item, item ∈ seed → neighbors item.1 width height = []) →
  frontier st = [] →
  seeds_at seed st =
  (Return, mkState (foldl (λ m item, <[item.1 := item.2]> m) (placed st) seed) []
                   (tileset st)).
Proof.
  unfold place_seeds. revert st. induction seed as [|[c t] seed IH]; intros st Hiso Hfr; simpl.
  { destruct st. simpl in *. by subst. }
  pose proof (Hiso (c, t) ltac:(left)) as Hc. simpl in Hc.
  unfold place at 1. rewrite Hc. simpl.
  rewrite IH; [done| |by simpl; rewrite Hfr].
  intros item Hitem. apply Hiso. by right.
Qed.

(** X10: Seeds without a neighbour in the grid constrain nothing: the frontier
    stays empty and the tile set untouched.  The run then returns the seeds
    as [placed] when they are [width * height] or more (a grid of one cell
    seeded at its cell), and otherwise raises on [min] of the empty frontier
    (an empty seed dictionary, or seeds far from the grid). *)
Theorem generate_image_isolated_seeds ts seed rng :
  (∀ item, item ∈ seed → neighbors item.1 width height = []) →
  generate ts (Some seed) rng =
  (if decide (Z.of_nat (size (seed_map seed)) < width * height)
   then Raise EmptyFrontier else Return,
   mkState (seed_map seed) [] ts, default (Random 8675309) rng).
Proof.
  intros Hiso. rewrite generate_image_seeded.
  rewrite place_seeds_isolated by done. simpl. fold (seed_map seed).
  destruct (Z.to_nat (width * height)) as [|fuel] eqn:Hfuel; simpl.
  - destruct (decide _); [lia|done].
  - by destruct (decide _).
Qed.

End Edges.

(** ** A run that returns fills the grid *)

Lemma NoDup_list_prod {A B} (l : list A) (k : list B) :
  NoDup l → NoDup k → NoDup (list_prod l k).
Proof.
  intros Hl Hk. induction Hl as [|x l Hx Hl IH]; simpl; [constructor|].
  apply NoDup_app. split_and!.
  - apply (NoDup_fmap_2 _). done.
  - intros [a b] [y [[= <- <-] _]]%list_elem_of_fmap Hin.
    apply list_elem_of_In, in_prod_iff in Hin as [Hin%list_elem_of_In _]. done.
  - done.
Qed.

Lemma grid_cells width height :
  ∃ cells : gset Coord,
    (∀ c, c ∈ cells ↔ in_grid width height c) ∧
    size cells = (Z.to_nat height * Z.to_nat width)%nat.
Proof.
  exists (list_to_set (list_prod (seqZ 0 height) (seqZ 0 width))). split.
  - intros [r c]. rewrite elem_of_list_to_set.
    rewrite (list_elem_of_In (list_prod _ _) (r, c)), in_prod_iff.
    rewrite <-!list_elem_of_In, !elem_of_seqZ. unfold in_grid. simpl. lia.
  - rewrite size_list_to_set by (apply NoDup_list_prod; apply NoDup_seqZ).
    etrans; [exact (length_prod _ _)|]. by rewrite !length_seqZ.
Qed.

Section RunFills.
Variable open : Path → Image.t.
Variable resample : Z → Image.t → Image.t.
Variable set_iter : gset Tile → list Tile.
Variable RngState : Type.
Variable Random : Z → RngState.
Variable rng_choice : RngState → list Tile → option Tile * RngState.
Variable rng_choices : RngState → list Tile → list Q → option Tile * RngState.
Variables width height : Z.

Local Abbreviation place_nb := (place_neighbor open resample).
Local Abbreviation place_at := (place open resample width height).
Local Abbreviation step_rel := (place_step open resample width height).
Local Abbreviation step_at := (step open resample set_iter RngState rng_choices width height).
Local Abbreviation loop_at := (loop open resample set_iter RngState rng_choices width height).
Local Abbreviation seeds_at := (place_seeds open resample width height).
Local Abbreviation generate :=
  (generate_image open resample set_iter RngState Random rng_choice rng_choices width height).
Local Abbreviation in_bounds st :=
  ((∀ c, is_Some (placed st !! c) → in_grid width height c) ∧
   frontier_in_grid width height st).

Lemma for_each_inv_elem {A} (P : State → Prop) (body : State → A → Outcome * State) l :
  (∀ st x, x ∈ l → P st → P (body st x).2) →
  ∀ st, P st → P (for_each body st l).2.
Proof.
  induction l as [|x l IH]; intros Hbody st Hst; simpl; [done|].
  pose proof (Hbody st x ltac:(left) Hst) as Hx.
  destruct (body st x) as [[] st1]; simpl in *; [|done..].
  apply IH; [|done]. intros ????. apply Hbody; [by right|done].
Qed.

Lemma place_in_bounds coord tile st :
  in_grid width height coord → in_bounds st → in_bounds (place_at coord tile st).2.
Proof.
  intros Hcoord [Hpl Hfr]. split.
  - intros c. rewrite place_placed.
    destruct (decide (coord = c)) as [<-|Hne]; [done|].
    rewrite lookup_insert_ne by done. apply Hpl.
  - unfold place.
    apply (for_each_inv_elem (frontier_in_grid width height)).
    + intros st1 [side nc] Hin Hst1 k. rewrite place_neighbor_frontier.
      destruct (decide _) as [[-> _]|_]; [|apply Hst1].
      intros _. by eapply neighbors_in_grid.
    + intros k. simpl. rewrite frontier_get_pop.
      destruct (decide _); [by intros []|apply Hfr].
Qed.

Lemma place_seeds_in_bounds seed st :
  (∀ c, c ∈ seed.*1 → in_grid width height c) →
  in_bounds st → in_bounds (seeds_at seed st).2.
Proof.
  intros Hseed. unfold place_seeds.
  apply (for_each_inv_elem (λ st, in_bounds st)).
  intros st1 [c t] Hin Hst1. apply place_in_bounds; [|done].
  apply Hseed. apply list_elem_of_fmap. by exists (c, t).
Qed.

Lemma loop_return_in_bounds fuel st rng st' rng' :
  loop_at fuel st rng = (Return, st', rng') → in_bounds st →
  in_bounds st' ∧ ¬ Z.of_nat (size (placed st')) < width * height.
Proof.
  revert st rng. induction fuel as [|fuel IH]; intros st rng; simpl.
  - destruct (decide _); [done|]. by intros [= <- <-].
  - destruct (decide _); [|by intros [= <- <-]].
    destruct (step_at st rng) as [[o st1] rng1] eqn:Hstep.
    destruct o; [|done..]. intros Hloop Hst. apply (IH _ _ Hloop).
    destruct (step_cases _ _ _ _ _ _ _ _ _ _ _ _ Hstep)
      as [(_ & e & ? & _)|(coord & s & ws & tile & Hmin & _ & _ & Hpl)]; [done|].
    pose proof (place_in_bounds coord tile st) as Hb. rewrite Hpl in Hb.
    apply Hb; [|done]. apply Hst.
    apply frontier_min_first in Hmin as (pre & post & Hfr & _).
    destruct (frontier_get (frontier st) coord) eqn:Hget; [done|].
    apply frontier_get_None in Hget. rewrite Hfr in Hget.
    exfalso. apply Hget. rewrite fmap_app. apply elem_of_app. right. left.
Qed.

(** X11: A call of [generate_image] that returns, with its seeds in the grid,
    has a tile at every cell of the grid and at no other coordinate:
    [placed] has [width * height] keys, and nothing is left on the
    frontier. *)
Theorem generate_image_fills_grid ts seed rng st rng' :
  (∀ c, c ∈ seed_coords seed → in_grid width height c) →
  generate ts seed rng = (Return, st, rng') →
  (∀ c, is_Some (placed st !! c) ↔ in_grid width height c) ∧
  size (placed st) = Z.to_nat (width * height) ∧
  frontier st = [].
Proof.
  intros Hseed Hgen.
  pose proof (generate_image_run open resample set_iter RngState Random rng_choice
                rng_choices width height ts seed rng) as Hrun.
  apply rtc_place_step_fresh in Hrun; [|apply frontier_fresh_init].
  rewrite Hgen in Hrun. simpl in Hrun.
  assert (in_bounds (mkState ∅ [] ts)) as Hinit.
  { split; [intros c; simpl; rewrite lookup_empty; by intros []|by intros k []]. }
  assert (in_bounds st ∧ ¬ Z.of_nat (size (placed st)) < width * height)
    as [[Hpl Hfr] Hsize].
  { destruct seed as [l|].
    - rewrite generate_image_seeded in Hgen.
      pose proof (place_seeds_in_bounds l _ Hseed Hinit) as Hb.
      destruct (seeds_at l _) as [o st1]. destruct o; [|done..].
      by eapply loop_return_in_bounds.
    - rewrite generate_image_unseeded in Hgen.
      destruct (rng_choice _ _) as [[tile|] r]; [|done].
      pose proof (place_seeds_in_bounds [((0, 0), tile)] _ Hseed Hinit) as Hb.
      destruct (seeds_at _ _) as [o st1]. destruct o; [|done..].
      by eapply loop_return_in_bounds. }
  destruct (grid_cells width height) as (cells & Hcells & Hcount).
  assert (dom (placed st) ⊆ cells) as Hsub.
  { intros c Hc. apply Hcells, Hpl. by apply elem_of_dom. }
  pose proof (subseteq_size _ _ Hsub) as Hle. rewrite size_dom in Hle.
  assert (size cells ≤ size (placed st))%nat as Hge by nia.
  assert (dom (placed st) = cells) as Hdom.
  { apply set_subseteq_size_eq; [done|]. by rewrite size_dom. }
  split_and!.
  - intros c. by rewrite <-Hcells, <-Hdom, elem_of_dom.
  - nia.
  - destruct (frontier st) as [|[k s] fr] eqn:Hfrontier; [done|]. exfalso.
    assert (is_Some (frontier_get (frontier st) k)) as Hk.
    { destruct (frontier_get (frontier st) k) eqn:Hget; [done|].
      apply frontier_get_None in Hget. rewrite Hfrontier in Hget.
      exfalso. apply Hget. left. }
    pose proof (Hrun _ Hk) as Hnone.
    apply Hfr, Hcells in Hk. rewrite <-Hdom in Hk.
    apply elem_of_dom in Hk as [? Hk]. congruence.
Qed.

End RunFills.

(** ** The frontier of a run with a seed in the grid *)

(** The cells of the grid are connected by [neighbors]. *)
Lemma grid_connected width height (P : Coord → Prop) c0 :
  in_grid width height c0 → P c0 →
  (∀ c side k, P c → (side, k) ∈ neighbors c width height → P k) →
  ∀ c, in_grid width height c → P c.
Proof.
  intros Hc0 HP0 Hclosed c.
  remember (Z.to_nat (Z.abs (c.1 - c0.1) + Z.abs (c.2 - c0.2))) as d eqn:Hd.
  revert c Hd. induction d as [d IH] using lt_wf_ind. intros [r k] -> Hc.
  destruct c0 as [r0 k0]. unfold in_grid in *. simpl in *.
  destruct (decide (r0 < r)).
  { apply (Hclosed (r - 1, k) 2%nat).
    - refine (IH _ _ (r - 1, k) eq_refl _); simpl; lia.
    - apply neighbors_elem. unfold in_grid. simpl. split_and!; try lia. f_equal; lia. }
  destruct (decide (r < r0)).
  { apply (Hclosed (r + 1, k) 0%nat).
    - refine (IH _ _ (r + 1, k) eq_refl _); simpl; lia.
    - apply neighbors_elem. unfold in_grid. simpl. split_and!; try lia. f_equal; lia. }
  destruct (decide (k0 < k)).
  { apply (Hclosed (r, k - 1) 3%nat).
    - refine (IH _ _ (r, k - 1) eq_refl _); simpl; lia.
    - apply neighbors_elem. unfold in_grid. simpl. split_and!; try lia. f_equal; lia. }
  destruct (decide (k < k0)).
  { apply (Hclosed (r, k + 1) 1%nat).
    - refine (IH _ _ (r, k + 1) eq_refl _); simpl; lia.
    - apply neighbors_elem. unfold in_grid. simpl. split_and!; try lia. f_equal; lia. }
  by replace r with r0 by lia; replace k with k0 by lia.
Qed.

Section RunFrontier.
Variable open : Path → Image.t.
Variable resample : Z → Image.t → Image.t.
Variable set_iter : gset Tile → list Tile.
Variable RngState : Type.
Variable Random : Z → RngState.
Variable rng_choice : RngState → list Tile → option Tile * RngState.
Variable rng_choices : RngState → list Tile → list Q → option Tile * RngState.
Variables width height : Z.

Local Abbreviation place_nb := (place_neighbor open resample).
Local Abbreviation place_at := (place open resample width height).
Local Abbreviation step_at := (step open resample set_iter RngState rng_choices width height).
Local Abbreviation loop_at := (loop open resample set_iter RngState rng_choices width height).
Local Abbreviation seeds_at := (place_seeds open resample width height).
Local Abbreviation generate :=
  (generate_image open resample set_iter RngState Random rng_choice rng_choices width height).
Local Abbreviation covered_at := (covered width height).

Lemma place_return_covered coord tile st st' :
  place_at coord tile st = (Return, st') → covered_at st → covered_at st'.
Proof.
  intros Hpl Hcov.
  pose proof (place_placed open resample width height coord tile st) as Hplaced.
  rewrite Hpl in Hplaced. simpl in Hplaced.
  unfold place in Hpl.
  apply for_each_neighbors_return in Hpl as (_ & _ & Hmono & _ & Hcands).
  simpl in *.
  intros c side k Hc Hin. rewrite Hplaced in Hc |- *.
  destruct (decide (coord = c)) as [->|Hne].
  - destruct (<[c:=tile]> (placed st) !! k) eqn:Hk; [left; eauto|].
    right. destruct (Hcands _ _ Hin Hk) as (s1 & -> & _). eauto.
  - rewrite lookup_insert_ne in Hc by done.
    destruct (decide (coord = k)) as [->|Hnek].
    { left. rewrite lookup_insert_eq. eauto. }
    rewrite lookup_insert_ne by done.
    destruct (Hcov _ _ _ Hc Hin) as [?|[s0 Hs0]]; [by left|right].
    assert (frontier_get (frontier_pop (frontier st) coord) k = Some s0) as Hs0'.
    { by rewrite frontier_get_pop, decide_False. }
    destruct (Hmono _ _ Hs0') as (s1 & -> & _). eauto.
Qed.

Lemma place_not_empty_frontier coord tile st :
  (place_at coord tile st).1 ≠ Raise EmptyFrontier.
Proof.
  destruct (place_at coord tile st) as [o st'] eqn:Hpl. simpl. intros ->.
  apply place_raise in Hpl as (pre & side & nc & post & st1 & _ & _ & Hnb).
  by apply place_neighbor_raise in Hnb as [? _].
Qed.

Lemma place_seeds_covered seed st st' c :
  seeds_at seed st = (Return, st') → covered_at st →
  c ∈ seed.*1 ∨ is_Some (placed st !! c) →
  covered_at st' ∧ is_Some (placed st' !! c).
Proof.
  unfold place_seeds. revert st.
  induction seed as [|[c1 t1] seed IH]; intros st; simpl.
  { intros [= <-] Hcov [[]%elem_of_nil|]; done. }
  destruct (place_at c1 t1 st) as [o st1] eqn:Hpl. destruct o; [|done..].
  intros Hrest Hcov Hc. apply (IH _ Hrest); [by eapply place_return_covered|].
  pose proof (place_placed open resample width height c1 t1 st) as Hplaced.
  rewrite Hpl in Hplaced. simpl in Hplaced. rewrite Hplaced.
  destruct (decide (c1 = c)) as [->|Hne].
  { right. rewrite lookup_insert_eq. eauto. }
  rewrite lookup_insert_ne by done.
  destruct Hc as [[]%elem_of_cons|]; [congruence|by left|by right].
Qed.

Lemma place_seeds_not_empty_frontier seed st :
  (seeds_at seed st).1 ≠ Raise EmptyFrontier.
Proof.
  destruct (seeds_at seed st) as [o st'] eqn:Hrun. simpl. intros ->.
  apply for_each_stopped in Hrun as (pre & [c t] & post & st1 & _ & _ & Hpl); [|done].
  simpl in Hpl. apply (place_not_empty_frontier c t st1). by rewrite Hpl.
Qed.

Lemma step_empty_frontier st rng :
  (step_at st rng).1.1 = Raise EmptyFrontier → frontier st = [].
Proof.
  unfold step. destruct (frontier st) as [|e fr]; [done|]. simpl.
  destruct (foldl _ e fr) as [coord s].
  destruct (get_weights _ _) as [err|ws] eqn:Hws; simpl.
  { apply get_weights_error in Hws as [t ->]. done. }
  destruct (rng_choices _ _ _) as [[tile|] r]; simpl; [|done].
  intros Hpl. by apply place_not_empty_frontier in Hpl.
Qed.

Lemma covered_full st c0 :
  covered_at st → frontier st = [] →
  in_grid width height c0 → is_Some (placed st !! c0) →
  ¬ Z.of_nat (size (placed st)) < width * height.
Proof.
  intros Hcov Hfr Hc0 Hp0.
  assert (∀ c, in_grid width height c → is_Some (placed st !! c)) as Hall.
  { apply (grid_connected width height _ c0); [done..|].
    intros c side k Hc Hin. destruct (Hcov _ _ _ Hc Hin) as [|Hk]; [done|].
    rewrite Hfr in Hk. by destruct Hk. }
  destruct (grid_cells width height) as (cells & Hcells & Hcount).
  assert (cells ⊆ dom (placed st)) as Hsub.
  { intros c Hc. apply elem_of_dom, Hall, Hcells, Hc. }
  apply subseteq_size in Hsub. rewrite size_dom in Hsub.
  unfold in_grid in Hc0. nia.
Qed.

Lemma loop_frontier_found fuel st rng c0 :
  covered_at st → in_grid width height c0 → is_Some (placed st !! c0) →
  (loop_at fuel st rng).1.1 ≠ Raise EmptyFrontier.
Proof.
  revert st rng. induction fuel as [|fuel IH]; intros st rng Hcov Hc0 Hp0; simpl.
  { by destruct (decide _). }
  destruct (decide _) as [Hsmall|]; [|done].
  destruct (step_at st rng) as [[o st1] rng1] eqn:Hstep.
  destruct o as [|e|]; [| |done].
  - destruct (step_cases _ _ _ _ _ _ _ _ _ _ _ _ Hstep)
      as [(_ & e & ? & _)|(coord & s & ws & tile & _ & _ & _ & Hpl)]; [done|].
    apply IH; [by eapply place_return_covered|done|].
    pose proof (place_placed open resample width height coord tile st) as Hplaced.
    rewrite Hpl in Hplaced. simpl in Hplaced. rewrite Hplaced.
    destruct (decide (coord = c0)) as [->|Hne].
    + rewrite lookup_insert_eq. eauto.
    + by rewrite lookup_insert_ne.
  - simpl. intros [= ->].
    pose proof (step_empty_frontier st rng) as Hempty. rewrite Hstep in Hempty.
    by destruct (covered_full st c0 Hcov (Hempty eq_refl) Hc0 Hp0).
Qed.

(** X12: With a seed in the grid (the caller's, or the default one at [(0, 0)])
    the loop never finds the frontier empty: while the grid is not full some
    cell next to a placed one is waiting, so [min] always has an item to
    return. *)
Theorem generate_image_frontier_found ts seed rng c0 :
  c0 ∈ seed_coords seed → in_grid width height c0 →
  (generate ts seed rng).1.1 ≠ Raise EmptyFrontier.
Proof.
  intros Hseed Hc0.
  assert (covered_at (mkState ∅ [] ts)) as Hinit.
  { intros c side k [tc Hc]. simpl in Hc. by rewrite lookup_empty in Hc. }
  assert (∀ l r, c0 ∈ l.*1 →
                 (match seeds_at l (mkState ∅ [] ts) with
                  | (Return, st) => loop_at (Z.to_nat (width * height)) st r
                  | (o, st) => (o, st, r)
                  end).1.1 ≠ Raise EmptyFrontier) as Hmain.
  { intros l r Hl.
    pose proof (place_seeds_not_empty_frontier l (mkState ∅ [] ts)) as Hne.
    destruct (seeds_at l _) as [o st1] eqn:Hseeds.
    destruct o; [|done..].
    destruct (place_seeds_covered _ _ _ c0 Hseeds Hinit) as [Hcov Hp0]; [by left|].
    by apply (loop_frontier_found _ _ _ c0). }
  destruct seed as [l|].
  - rewrite generate_image_seeded. by apply Hmain.
  - rewrite generate_image_unseeded.
    destruct (rng_choice _ _) as [[tile|] r]; [|done].
    apply Hmain. done.
Qed.

End RunFrontier.

(** ** The borders of the variants of a square tile *)

Lemma reverse_map_seq {A} (f : nat → A) n :
  reverse (map f (seq 0 n)) = map (λ i, f (n - 1 - i)%nat) (seq 0 n).
Proof.
  apply list_eq. intros i.
  destruct (decide (i < n)%nat) as [Hi|Hi].
  - rewrite reverse_lookup by (by rewrite length_map, length_seq).
    rewrite length_map, length_seq.
    change (map ?g ?l) with (g <$> l).
    rewrite !list_lookup_fmap, !lookup_seq_lt by lia. simpl. f_equal. f_equal. lia.
  - rewrite !lookup_ge_None_2; [done|..].
    + rewrite length_map, length_seq. lia.
    + rewrite length_reverse, length_map, length_seq. lia.
Qed.

Section BorderFacts.
Variable open : Path → Image.t.
Variable resample : Z → Image.t → Image.t.

Local Abbreviation border_at := (border open resample).

Ltac turn_cases H :=
  repeat (apply elem_of_cons in H as [->|H]); [..|by apply elem_of_nil in H].

(** A border of a variant, read off the image of the file. *)
Lemma border_source p tr side :
  Image.square (open p) → tr ∈ transforms → (side < 4)%nat →
  border_at (mkTile p tr.1 tr.2) side =
  map (λ i, let cr := source (Image.width (open p)) tr
                             (edge_pixel (Image.width (open p)) side i) in
            Image.getpixel (open p) cr.1 cr.2)
      (seq 0 (Image.width (open p))).
Proof.
  intros Hsq Htr Hside.
  destruct (square_transformed resample (open p) tr Hsq Htr) as [[_ Hsq'] Hw].
  assert (∀ c r, (c < Image.width (open p))%nat → (r < Image.width (open p))%nat →
                 Image.getpixel (transformed resample (open p) tr) c r =
                 (let cr := source (Image.width (open p)) tr (c, r) in
                  Image.getpixel (open p) cr.1 cr.2)) as Hpix.
  { intros c r Hc Hr. by destruct (getpixel_transformed resample (open p) tr c r). }
  unfold border, borders, Tile_width, Tile_height.
  change (image open resample (mkTile p tr.1 tr.2)) with (transformed resample (open p) tr).
  rewrite <-Hsq', Hw.
  destruct side as [|[|[|[|]]]]; [..|lia]; simpl;
    apply map_ext_in; intros i Hi%in_seq; apply Hpix; lia.
Qed.

(** X13: A quarter turn moves the borders round: the right border becomes the
    top one and the left border the bottom one, as they are; the top border
    becomes the left one and the bottom border the right one, reversed. *)
Theorem border_quarter_turn p r k :
  Image.square (open p) → k ∈ [0; 1; 2] →
  border_at (mkTile p r (k + 1)) 0 = border_at (mkTile p r k) 3 ∧
  border_at (mkTile p r (k + 1)) 1 = reverse (border_at (mkTile p r k) 0) ∧
  border_at (mkTile p r (k + 1)) 2 = border_at (mkTile p r k) 1 ∧
  border_at (mkTile p r (k + 1)) 3 = reverse (border_at (mkTile p r k) 2).
Proof.
  intros Hsq Hk.
  assert ((r, k) ∈ transforms ∧ (r, k + 1) ∈ transforms) as [H1 H2].
  { rewrite transforms_eq. turn_cases Hk; destruct r; simpl; set_solver. }
  rewrite !(border_source p (r, k)) by (done || lia).
  rewrite !(border_source p (r, k + 1)) by (done || lia).
  rewrite !reverse_map_seq.
  split_and!; apply map_ext_in; intros i Hi%in_seq;
    turn_cases Hk; destruct r;
    unfold source, turn_source, flip_source, edge_pixel; simpl;
    f_equal; lia.
Qed.

(** X14: The reflected variants are the mirror images of the unreflected ones,
    turned the other way: their left and right borders are swapped, their
    top and bottom borders reversed. *)
Theorem border_mirror p k :
  Image.square (open p) → k ∈ [0; 1; 2; 3] →
  border_at (mkTile p true k) 0 = reverse (border_at (mkTile p false ((4 - k) mod 4)) 0) ∧
  border_at (mkTile p true k) 1 = border_at (mkTile p false ((4 - k) mod 4)) 3 ∧
  border_at (mkTile p true k) 2 = reverse (border_at (mkTile p false ((4 - k) mod 4)) 2) ∧
  border_at (mkTile p true k) 3 = border_at (mkTile p false ((4 - k) mod 4)) 1.
Proof.
  intros Hsq Hk.
  assert ((true, k) ∈ transforms ∧ (false, (4 - k) mod 4) ∈ transforms) as [H1 H2].
  { rewrite transforms_eq. turn_cases Hk; simpl; set_solver. }
  rewrite !(border_source p (true, k)) by (done || lia).
  rewrite !(border_source p (false, (4 - k) mod 4)) by (done || lia).
  rewrite !reverse_map_seq.
  split_and!; apply map_ext_in; intros i Hi%in_seq;
    turn_cases Hk;
    unfold source, turn_source, flip_source, edge_pixel; simpl;
    f_equal; lia.
Qed.

End BorderFacts.

(** ** The order [sorted] arranges tiles in *)

Lemma StronglySorted_le_lt l :
  StronglySorted Tile_le l → NoDup l → StronglySorted Tile_lt l.
Proof.
  induction 1 as [|t l Hl IH Hall]; intros Hnd; [constructor|].
  apply NoDup_cons in Hnd as [Ht Hnd]. constructor; [auto|].
  apply Forall_forall. intros t' Ht'.
  rewrite Forall_forall in Hall.
  destruct (Hall t' Ht') as [Hlt | ->]; done.
Qed.

Lemma StronglySorted_lt_le l : StronglySorted Tile_lt l → StronglySorted Tile_le l.
Proof.
  induction 1 as [|t l Hl IH Hall]; constructor; [done|].
  eapply Forall_impl; [done|]. intros t' ?. by left.
Qed.

(** X15: [sorted(tiles)] lists every tile of the set once, by strictly
    increasing [args], and is the only such list: the order in which the
    set hands out its elements leaves no trace in it. *)
Theorem sorted_spec (set_iter : gset Tile → list Tile) s :
  (∀ s, set_iter s ≡ₚ elements s) →
  sorted set_iter s ≡ₚ elements s ∧
  StronglySorted Tile_lt (sorted set_iter s) ∧
  ∀ l, l ≡ₚ elements s → StronglySorted Tile_lt l → l = sorted set_iter s.
Proof.
  intros Hiter.
  assert (sorted set_iter s ≡ₚ elements s) as Hperm.
  { unfold sorted. by rewrite merge_sort_Permutation. }
  assert (StronglySorted Tile_le (sorted set_iter s)) as Hsorted.
  { apply (Sorted_StronglySorted _). unfold sorted. apply Sorted_merge_sort, _. }
  split_and!; [done| |].
  - apply StronglySorted_le_lt; [done|]. rewrite Hperm. apply NoDup_elements.
  - intros l Hl Hinc. apply (StronglySorted_unique Tile_le); [|done|by rewrite Hl].
    by apply StronglySorted_lt_le.
Qed.

(** ** Every tile of a square catalog has a fitting neighbour *)

Section Fitting.
Variable open : Path → Image.t.
Variable resample : Z → Image.t → Image.t.
Variable set_iter : gset Tile → list Tile.

Local Abbreviation border_at := (border open resample).
Local Abbreviation image_at := (image open resample).
Local Abbreviation vars := (variants open resample).
Local Abbreviation load_all := (load open resample set_iter).

Ltac transform_cases H :=
  rewrite transforms_eq in H;
  repeat (apply elem_of_cons in H as [->|H]); [..|by apply elem_of_nil in H].

Lemma facing_transform tr side : tr ∈ transforms → facing tr side ∈ transforms.
Proof.
  intros Htr. rewrite transforms_eq.
  transform_cases Htr; unfold facing; destruct (Nat.even side); simpl; set_solver.
Qed.

(** The variant flipped across an edge shows, on the opposite edge, the
    border the variant shows on that edge. *)
Lemma border_facing p tr side :
  Image.square (open p) → tr ∈ transforms → (side < 4)%nat →
  border_at (mkTile p (facing tr side).1 (facing tr side).2) ((side + 2) mod 4)%nat =
  border_at (mkTile p tr.1 tr.2) side.
Proof.
  intros Hsq Htr Hside.
  pose proof (facing_transform tr side Htr) as Htr'.
  rewrite (border_source open resample p (facing tr side))
    by (done || by apply Nat.mod_upper_bound).
  rewrite (border_source open resample p tr) by done.
  apply map_ext_in. intros i Hi%in_seq.
  destruct side as [|[|[|[|]]]]; [..|lia];
    transform_cases Htr;
    unfold facing, source, turn_source, flip_source, edge_pixel; simpl;
    f_equal; lia.
Qed.

Lemma border_image t1 t2 side :
  image_at t1 = image_at t2 → border_at t1 side = border_at t2 side.
Proof.
  intros Himg. unfold border, borders, Tile_width, Tile_height. by rewrite Himg.
Qed.

(** Every image [add_tile] has seen is the image of a tile it keeps. *)
Lemma add_variant_kept p l acc :
  (∀ img, img ∈ acc.1 → ∃ t, t ∈ acc.2 ∧ path t = p ∧ image_at t = img) →
  ∀ img, img ∈ (foldl (add_variant open resample p) acc l).1 →
         ∃ t, t ∈ (foldl (add_variant open resample p) acc l).2 ∧ path t = p ∧
              image_at t = img.
Proof.
  revert acc. induction l as [|tr l IH]; intros acc Hacc; simpl; [done|].
  apply IH. unfold add_variant.
  destruct (decide _) as [|Hnew]; [done|]. simpl.
  intros img [Hold|Hhere%list_elem_of_singleton]%elem_of_app.
  - destruct (Hacc _ Hold) as (t & Ht & Hp & Himg). exists t. set_solver.
  - exists (mkTile p tr.1 tr.2). set_solver.
Qed.

Lemma variants_representative p tr :
  tr ∈ transforms →
  ∃ t, t ∈ (vars p).2 ∧ path t = p ∧ image_at t = image_at (mkTile p tr.1 tr.2).
Proof.
  intros Htr. apply (add_variant_kept p transforms ([], ∅)).
  - by intros img ?%elem_of_nil.
  - apply variants_exists. by exists tr.
Qed.

(** The tiles with a weight are the canonical variants of the catalog. *)
Lemma load_tiles catalog ts t :
  (∀ s, set_iter s ≡ₚ elements s) →
  load_all catalog = inr ts →
  is_Some (tiles ts !! t) ↔ ∃ p w, (p, w) ∈ catalog ∧ t ∈ (vars p).2.
Proof.
  intros Hiter. revert ts. induction catalog as [|[p w] catalog IH] using rev_ind; intros ts.
  { intros Hnew. apply (inj inr) in Hnew. subst ts.
    change (tiles TileSet_new) with (∅ : gmap Tile Q). rewrite lookup_empty.
    split; [by intros []|]. by intros (? & ? & ?%elem_of_nil & _). }
  rewrite load_snoc. destruct (load open resample set_iter catalog) as [e|ts0]; [done|].
  intros Hadd.
  pose proof (add_tile_dom open resample set_iter _ _ _ _ Hiter Hadd) as Hdom.
  rewrite <-elem_of_dom, Hdom, elem_of_union, elem_of_dom, (IH ts0 eq_refl).
  clear Hdom Hadd. split.
  - intros [(p' & w' & Hin & Ht)|Ht].
    + exists p', w'. split; [|exact Ht]. apply elem_of_app. by left.
    + exists p, w. split; [|exact Ht]. apply elem_of_app. right. left.
  - intros (p' & w' & [Hin|Hin%list_elem_of_singleton]%elem_of_app & Ht).
    + left. exists p', w'. by split.
    + right. injection Hin as -> ->. exact Ht.
Qed.

(** The variant flipped across an edge is filed, or a tile with the same
    image is, under the border the tile shows on that edge. *)
Lemma facing_filed catalog ts t side :
  (∀ s, set_iter s ≡ₚ elements s) →
  load_all catalog = inr ts →
  (∀ p w, (p, w) ∈ catalog → Image.square (open p)) →
  is_Some (tiles ts !! t) → (side < 4)%nat →
  ∃ t' s, border_map ts !! (((side + 2) mod 4)%nat, border_at t side) = Some s ∧
          t' ∈ s ∧ is_Some (tiles ts !! t') ∧ path t' = path t.
Proof.
  intros Hiter Hload Hsq Ht Hside.
  apply (load_tiles _ _ _ Hiter Hload) in Ht as (p & w & Hin & Ht).
  assert (∀ t, t ∈ (vars p).2 → ∃ tr, tr ∈ transforms ∧ t = mkTile p tr.1 tr.2) as Hmem
    by exact (variants_members open resample p transforms).
  destruct (Hmem t Ht) as (tr & Htr & ->). clear Hmem.
  destruct (variants_representative p (facing tr side)) as (t' & Ht' & Hp & Himg);
    [by apply facing_transform|].
  assert (is_Some (tiles ts !! t')) as Hreg.
  { apply (load_tiles _ _ _ Hiter Hload). exists p, w. by split. }
  assert ((side + 2) mod 4 < 4)%nat as Hopp by (by apply Nat.mod_upper_bound).
  destruct (load_complete open resample set_iter _ _ Hload t' Hreg _ Hopp) as (s & Hs & Hin').
  rewrite (border_image _ _ _ Himg), border_facing in Hs by (done || by eapply Hsq).
  by exists t', s.
Qed.

(** X16: In a tile set built by [add_tile] from square images, no tile is a
    dead end: for every registered tile and every side, [match_border] finds
    at least one registered tile, a variant of the same file, whose border on
    the opposite side is the border the tile shows on that side. *)
Theorem registered_tile_fits catalog ts t side :
  (∀ s, set_iter s ≡ₚ elements s) →
  load_all catalog = inr ts →
  (∀ p w, (p, w) ∈ catalog → Image.square (open p)) →
  is_Some (tiles ts !! t) → (side < 4)%nat →
  ∃ t', t' ∈ (match_border ts (border_at t side) ((side + 2) mod 4)%nat).1 ∧
        is_Some (tiles ts !! t') ∧ path t' = path t ∧
        border_at t' ((side + 2) mod 4)%nat = border_at t side.
Proof.
  intros Hiter Hload Hsq Ht Hside.
  destruct (facing_filed _ _ _ _ Hiter Hload Hsq Ht Hside) as (t' & s & Hs & Hin & Hreg & Hp).
  exists t'. split_and!; [|done|done|].
  - unfold match_border. by rewrite Hs.
  - eapply (load_sound open resample set_iter); [exact Hload|exact Hs|exact Hin].
Qed.

Variables width height : Z.

Lemma neighbors_nodup coord : NoDup (neighbors coord width height).
Proof.
  apply (NoDup_fmap_1 fst). unfold neighbors, enumerate. simpl.
  repeat case_decide; simpl;
    repeat (apply NoDup_cons; split; [set_solver|]); apply NoDup_nil_2.
Qed.

(** X17: On a tile set built by [add_tile] from square images, placing a
    registered tile while the frontier is empty (the first seed, or a seed
    away from the others) never raises: the call returns. *)
Theorem place_on_empty_frontier_returns catalog ts pl coord t :
  (∀ s, set_iter s ≡ₚ elements s) →
  load_all catalog = inr ts →
  (∀ p w, (p, w) ∈ catalog → Image.square (open p)) →
  is_Some (tiles ts !! t) →
  (place open resample width height coord t (mkState pl [] ts)).1 = Return.
Proof.
  intros Hiter Hload Hsq Ht.
  assert (∀ side, (side < 4)%nat →
                  candidates open resample (mkState (<[coord := t]> pl) [] ts) t side ≠ ∅)
    as Hcands.
  { intros side Hside.
    destruct (facing_filed _ _ _ _ Hiter Hload Hsq Ht Hside) as (t' & s & Hs & Hin & _).
    unfold candidates, match_border. cbn [tileset]. rewrite Hs. cbn [fst]. set_solver. }
  destruct (place open resample width height coord t (mkState pl [] ts))
  as [o st'] eqn:Hpl. simpl.
  destruct o as [|e|]; [done| |].
  - exfalso.
    apply place_raise in Hpl as (pre & side & nc & post & st1 & Hnb & Hpre & Hraise).
    simpl in Hpre.
    pose proof (place_neighbor_outcome open resample t st1 side nc) as Hout.
    rewrite Hraise in Hout. simpl in Hout.
    destruct (decide (is_Some _)); [done|].
    apply for_each_neighbors_return in Hpre as (Hts & _ & _ & Horigin & _).
    simpl in Horigin.
    assert ((side, nc) ∈ neighbors coord width height) as Hin.
    { rewrite Hnb. apply elem_of_app. right. left. }
    destruct (frontier_get (frontier st1) nc) as [s1|] eqn:Hget.
    + destruct (Horigin nc) as [[? [=]]|[_ [side' Hpre]]]; [by rewrite Hget|].
      assert (side' = side) as ->.
      { eapply neighbors_side; [|exact Hin]. rewrite Hnb. apply elem_of_app. by left. }
      pose proof (neighbors_nodup coord) as Hnd. rewrite Hnb in Hnd.
      apply NoDup_app in Hnd as (_ & Hdisj & _). apply (Hdisj _ Hpre). left.
    + destruct (decide (_ = ∅)) as [Hempty|]; [|done].
      rewrite (candidates_tileset open resample st1
                 (mkState (<[coord := t]> pl) [] ts)) in Hempty by done.
      apply (Hcands side); [|done].
      by apply neighbors_elem in Hin as [? _].
  - by destruct (place_not_diverge open resample width height coord t (mkState pl [] ts));
      rewrite Hpl.
Qed.

End Fitting.

(** ** Runs on the example catalog *)

Section Runs.
Import Example.

Local Abbreviation border_at := (border Example.open Example.resample).
Local Abbreviation place_seeds_at := (place_seeds Example.open Example.resample).
Local Abbreviation step_at := (step Example.open Example.resample elements unit Example.rng_choices).
Local Abbreviation loop_at := (loop Example.open Example.resample elements unit Example.rng_choices).

Lemma catalog_loads : load Example.open Example.resample elements catalog = inr ts.
Proof.
  unfold ts.
  assert (match load Example.open Example.resample elements catalog with
          | inl _ => False
          | inr _ => True
          end) as Hok by (vm_compute; exact I).
  by destruct (load Example.open Example.resample elements catalog).
Qed.

Lemma rng_choices_member r pop ws tile r' :
  Example.rng_choices r pop ws = (Some tile, r') → tile ∈ pop.
Proof. unfold Example.rng_choices. destruct pop; intros; simplify_eq/=. left. Qed.

Lemma outcome_eta {A} (x : Outcome * A) o : x.1 = o → x = (o, x.2).
Proof. destruct x. simpl. by intros ->. Qed.

Lemma run_eta {A B} (x : Outcome * A * B) o : x.1.1 = o → x = (o, x.1.2, x.2).
Proof. destruct x as [[] ?]. simpl. by intros ->. Qed.

Lemma triple_eta {A B C} (x : A * B * C) : x = (x.1.1, x.1.2, x.2).
Proof. by destruct x as [[] ?]. Qed.

Lemma is_Some_true {A} (x : option A) :
  match x with Some _ => true | None => false end = true → is_Some x.
Proof. destruct x; [eauto|done]. Qed.

Lemma frontier_get_eta fr c :
  is_Some (frontier_get fr c) → frontier_get fr c = Some (default ∅ (frontier_get fr c)).
Proof. by intros [s ->]. Qed.

(** Two pinned neighbours are written as given: the run completes on a grid
    of two cells with two copies of a tile whose right and left borders
    differ. *)
Lemma adjacent_seeds_unchecked :
  let r := run 2 1 (Some [((0, 0), a0); ((0, 1), a0)]) in
  r.1.1 = Return ∧
  placed r.1.2 !! (0, 0) = Some a0 ∧ placed r.1.2 !! (0, 1) = Some a0 ∧
  (3%nat, (0, 1)) ∈ neighbors (0, 0) 2 1 ∧
  border_at a0 3 ≠ border_at a0 ((3 + 2) mod 4)%nat.
Proof.
  split_and!; [vm_compute; reflexivity..| |vm_compute; discriminate].
  vm_compute (neighbors _ _ _). left.
Qed.

(** The state a constraint failure leaves is not one with non-empty
    candidate sets: the entry of the offending coordinate is there, empty,
    while before the failing call every entry was non-empty. *)
Lemma contradiction_leaves_empty_entry :
  let st1 := (place_at 3 1 (0, 0) a0 init).2 in
  let r := place_at 3 1 (0, 2) a0m st1 in
  frontier_nonempty st1 ∧
  r.1 = Raise (ConstraintFailure (0, 1)) ∧
  frontier_get (frontier r.2) (0, 1) = Some ∅ ∧
  ¬ frontier_nonempty r.2 ∧
  run 3 1 (Some [((0, 0), a0); ((0, 2), a0m)]) = (Raise (ConstraintFailure (0, 1)), r.2, tt).
Proof.
  intros st1 r.
  assert ((place_at 3 1 (0, 0) a0 init).1 = Return) as H1 by (vm_compute; reflexivity).
  assert (r.1 = Raise (ConstraintFailure (0, 1))) as H2 by (vm_compute; reflexivity).
  assert (frontier_get (frontier r.2) (0, 1) = Some ∅) as Hempty by (vm_compute; reflexivity).
  split_and!.
  - apply frontier_nonemptyb_spec. vm_compute. reflexivity.
  - done.
  - done.
  - intros Hvalid. by apply (Hvalid _ _ Hempty).
  - unfold run. rewrite generate_image_seeded. unfold place_seeds. cbn [for_each fst snd].
    change (place Example.open Example.resample 3 1 (0, 0) a0 _)
      with (place_at 3 1 (0, 0) a0 init).
    rewrite (outcome_eta _ _ H1). fold st1.
    change (place Example.open Example.resample 3 1 (0, 2) a0m st1) with r.
    clearbody r. destruct r as [o st2]. simpl in H2. subst o. reflexivity.
Qed.

(** The first iteration of the run on a grid of two by two cells: the
    frontier holds (1, 0) and then (0, 1), with one candidate each; the
    iteration places at (1, 0), which is not the least of the two. *)
Lemma selection_not_least :
  let st1 := (place_seeds_at 2 2 [((0, 0), a0)] init).2 in
  let r := step_at 2 2 st1 tt in
  run 2 2 None = loop_at 2 2 4 st1 tt ∧
  fst <$> frontier_min (frontier st1) = Some (1, 0) ∧
  is_Some (placed r.1.2 !! (1, 0)) ∧ placed r.1.2 !! (0, 1) = None ∧
  ¬ least_smallest (frontier st1) (1, 0).
Proof.
  intros st1 r.
  assert ((place_seeds_at 2 2 [((0, 0), a0)] init).1 = Return) as H1
    by (vm_compute; reflexivity).
  split_and!.
  - unfold run. rewrite generate_image_unseeded.
    replace (Example.rng_choice _ _) with (Some a0, tt) by (vm_compute; reflexivity).
    fold init. by rewrite (outcome_eta _ _ H1).
  - vm_compute. reflexivity.
  - vm_compute. eauto.
  - vm_compute. reflexivity.
  - assert (size <$> frontier_get (frontier st1) (1, 0) = Some 1%nat) as Hsize
      by (vm_compute; reflexivity).
    assert (size <$> frontier_get (frontier st1) (0, 1) = Some 1%nat) as Hsize'
      by (vm_compute; reflexivity).
    clearbody r st1. intros (s & Hs & Hleast).
    rewrite Hs in Hsize. injection Hsize as Hsize.
    destruct (frontier_get (frontier st1) (0, 1)) as [s'|] eqn:Hs'; [|discriminate].
    injection Hsize' as Hsize'.
    destruct (Hleast _ _ Hs') as [?|(_ & [[=]|Hlt])]; [lia|].
    unfold lexico, prod_lexico in Hlt. simpl in Hlt. unfold lexico, Z_lexico in Hlt. lia.
Qed.

(** C5: on a tile set whose established size is two by two, [add_tile]
    accepts an image two pixels wide and one pixel high: the width agrees
    and the height is not compared, although the claim has the call fail. *)
Theorem add_tile_ignores_height :
  tile_width ts = Some 2%nat ∧ tile_height ts = Some 2%nat ∧
  Image.width (Example.open ["f"]) = 2%nat ∧
  Image.height (Example.open ["f"]) = 1%nat ∧
  ∃ ts', add_tile Example.open Example.resample elements ts ["f"] 1 = inr ts' ∧
         tile_height ts' = Some 2%nat.
Proof.
  split_and!; [vm_compute; reflexivity..|].
  assert (match add_tile Example.open Example.resample elements ts ["f"] 1 with
          | inl _ => False
          | inr ts' => tile_height ts' = Some 2%nat
          end) as Hok by (vm_compute; reflexivity).
  destruct (add_tile Example.open Example.resample elements ts ["f"] 1) as [e|ts'];
    [done|by exists ts'].
Qed.

(** C10: a run pinned with a tile whose border is not in the index ends, by
    a constraint failure, with a tile set whose border index has one more
    key than before it, holding the empty set; the weights are untouched. *)
Theorem lookup_extends_border_index :
  let r := run 2 1 (Some [((0, 0), b0)]) in
  r.1.1 = Raise (ConstraintFailure (0, 1)) ∧
  border_map ts !! (1%nat, [6; 8]) = None ∧
  border_map (tileset r.1.2) !! (1%nat, [6; 8]) = Some ∅ ∧
  tileset r.1.2 ≠ ts ∧
  tiles (tileset r.1.2) = tiles ts.
Proof.
  intros r.
  assert (border_map ts !! (1%nat, [6; 8]) = None) as Hbefore by (vm_compute; reflexivity).
  assert (border_map (tileset r.1.2) !! (1%nat, [6; 8]) = Some ∅) as Hafter
    by (vm_compute; reflexivity).
  split_and!; [vm_compute; reflexivity|done|done| |apply generate_image_tiles].
  intros Heq. rewrite Heq in Hafter. congruence.
Qed.

(** Not every image without invariances has eight variants: [add_tile]
    accepts an image two pixels wide and three pixels high that no transform
    but the identity returns, and keeps six variants of it, the quarter
    turns of the image and of its mirror image being cut to the same
    pixels. *)
Lemma nonsquare_six_variants :
  Image.wf (open_tall ["n"]) ∧
  Image.width (open_tall ["n"]) = 2%nat ∧ Image.height (open_tall ["n"]) = 3%nat ∧
  (∃ ts', add_tile open_tall Image.nearest elements TileSet_new ["n"] 1 = inr ts') ∧
  (∀ tr, tr ∈ transforms → tr ≠ (false, 0) →
         image open_tall Image.nearest (mkTile ["n"] tr.1 tr.2) ≠ open_tall ["n"]) ∧
  size (variants open_tall Image.nearest ["n"]).2 = 6%nat.
Proof.
  split_and!.
  - unfold Image.wf. vm_compute (open_tall _). vm_compute (Image.width _).
    repeat constructor.
  - reflexivity.
  - reflexivity.
  - unfold add_tile. cbn [tile_width TileSet_new]. by eexists.
  - intros tr Htr Hne. rewrite transforms_eq in Htr.
    repeat (apply elem_of_cons in Htr as [->|Htr]); [..|by apply elem_of_nil in Htr];
      first [exfalso; apply Hne; reflexivity|vm_compute; discriminate].
  - vm_compute. reflexivity.
Qed.

Lemma example_square : Image.square (Example.open ["a"]).
Proof.
  split; [|vm_compute; reflexivity].
  unfold Image.wf. vm_compute (Example.open _). vm_compute (Image.width _).
  repeat constructor.
Qed.

Lemma example_no_invariance tr :
  tr ∈ transforms → tr ≠ (false, 0) →
  image Example.open Example.resample (mkTile ["a"] tr.1 tr.2) ≠ Example.open ["a"].
Proof.
  intros Htr Hne. rewrite transforms_eq in Htr.
  repeat (apply elem_of_cons in Htr as [->|Htr]); [..|by apply elem_of_nil in Htr];
    first [exfalso; apply Hne; reflexivity|vm_compute; discriminate].
Qed.

Lemma example_invariant tr :
  tr ∈ transforms →
  image Example.open Example.resample (mkTile ["u"] tr.1 tr.2) = Example.open ["u"].
Proof.
  intros Htr. rewrite transforms_eq in Htr.
  repeat (apply elem_of_cons in Htr as [->|Htr]); [..|by apply elem_of_nil in Htr];
    vm_compute; reflexivity.
Qed.

Lemma example_entry :
  is_Some (frontier_get
             (frontier (place Example.open Example.resample 2 2 (0, 0) a0
                              (mkState ∅ [] ts)).2) (0, 1)).
Proof. apply is_Some_true. vm_compute. reflexivity. Qed.

End Runs.

(** ** The theorems at work on the example *)

Import Example.

Local Abbreviation border_at := (border Example.open Example.resample).
Local Abbreviation place_seeds_at := (place_seeds Example.open Example.resample).
Local Abbreviation step_at := (step Example.open Example.resample elements unit Example.rng_choices).

Lemma adjacency_consistent_witness :
  let st := (run 2 2 None).1.2 in
  ¬ Z.of_nat (size (placed st)) < 2 * 2 ∧
  ∀ c n side tc tn,
    placed st !! c = Some tc → placed st !! n = Some tn →
    (side, n) ∈ neighbors c 2 2 →
    ¬ (c ∈ caller_seeds None ∧ n ∈ caller_seeds None) →
    border_at tc side = border_at tn ((side + 2) mod 4)%nat.
Proof.
  apply (adjacency_consistent Example.open Example.resample elements unit Example.Random
           Example.rng_choice Example.rng_choices 2 2 catalog ts None None
           (run 2 2 None).1.2 (run 2 2 None).2).
  - done.
  - apply rng_choices_member.
  - apply catalog_loads.
  - apply (run_eta (run 2 2 None)). vm_compute. reflexivity.
Defined.

Local Abbreviation clash := (Some [((0, 0), a0); ((0, 1), a0)]).
Local Abbreviation clash_seeded :=
  (seeding Example.open Example.resample elements unit Example.Random Example.rng_choice
           2 2 ts clash None).
Local Abbreviation clash_loop :=
  (loop Example.open Example.resample elements unit Example.rng_choices 2 2 0
        clash_seeded.1.2 clash_seeded.2).
Local Abbreviation clash_step := (step_at 2 2 clash_loop.1.2 clash_loop.2).

Lemma contradiction_aborts_witness :
  run 2 2 clash = (Raise (ConstraintFailure (1, 1)), clash_step.1.2, clash_step.2).
Proof.
  destruct (contradiction_aborts Example.open Example.resample elements unit Example.Random
              Example.rng_choice Example.rng_choices 2 2) as (_ & _ & _ & _ & Hrun & _).
  apply (Hrun ts clash None clash_seeded.1.2 clash_seeded.2 0%nat
              clash_loop.1.2 clash_loop.2).
  - apply (run_eta clash_seeded). vm_compute. reflexivity.
  - apply (run_eta clash_loop). vm_compute. reflexivity.
  - apply (run_eta clash_step). vm_compute. reflexivity.
Defined.

Lemma selection_first_smallest_witness :
  let st1 := (place_seeds_at 2 2 [((0, 0), a0)] init).2 in
  let r := step_at 2 2 st1 tt in
  (r.1.2 = st1 ∧ ∃ e, r.1.1 = Raise e ∧ ∀ c, e ≠ ConstraintFailure c) ∨
  (∃ coord s tile pre post,
      frontier st1 = pre ++ (coord, s) :: post ∧
      (∀ x, x ∈ pre → (size s < size x.2)%nat) ∧
      (∀ x, x ∈ post → (size s ≤ size x.2)%nat) ∧
      place Example.open Example.resample 2 2 coord tile st1 = (r.1.1, r.1.2)).
Proof.
  intros st1 r.
  apply (selection_first_smallest Example.open Example.resample elements unit
           Example.rng_choices 2 2 st1 tt r.1.1 r.1.2 r.2).
  exact (triple_eta r).
Defined.

Lemma generation_deterministic_witness :
  load Example.open Example.resample elements catalog =
  load Example.open Example.resample (λ s, reverse (elements s)) catalog ∧
  generate_image Example.open Example.resample elements unit Example.Random
                 Example.rng_choice Example.rng_choices 2 2 ts None None =
  generate_image Example.open Example.resample (λ s, reverse (elements s)) unit
                 Example.Random Example.rng_choice Example.rng_choices 2 2 ts None None.
Proof.
  apply generation_deterministic.
  - done.
  - intros s. apply reverse_Permutation.
Defined.

Local Abbreviation seeded :=
  (place Example.open Example.resample 2 2 (0, 0) a0 (mkState ∅ [] ts)).2.
Local Abbreviation seeded' :=
  (place Example.open Example.resample 2 2 (1, 0) (mkTile ["a"] true 2) seeded).2.

Lemma monotonic_narrowing_witness :
  placed seeded !! (0, 1) = None ∧
  match frontier_get (frontier seeded') (0, 1) with
  | Some s' =>
      s' ⊆ default ∅ (frontier_get (frontier seeded) (0, 1)) ∧
      (size s' ≤ size (default ∅ (frontier_get (frontier seeded) (0, 1)%Z)))%nat ∧
      (∃ v, s' = default ∅ (frontier_get (frontier seeded) (0, 1)) ∩ v) ∧
      placed seeded' !! (0, 1) = None
  | None => is_Some (placed seeded' !! (0, 1))
  end.
Proof.
  exact (monotonic_narrowing Example.open Example.resample 2 2 ts seeded seeded' (0, 1) _
           (rtc_once _ _ (place_step_call Example.open Example.resample 2 2 (0, 0) a0
                                          (mkState ∅ [] ts)))
           (rtc_once _ _ (place_step_call Example.open Example.resample 2 2 (1, 0)
                                          (mkTile ["a"] true 2) seeded))
           (frontier_get_eta _ _ example_entry)).
Defined.

Lemma weight_conservation_witness :
  (1 ≤ size (variants Example.open Example.resample ["a"]).2)%nat ∧
  (∀ t, t ∈ (variants Example.open Example.resample ["a"]).2 →
        tiles ts !! t =
        Some (4 / inject_Z (Z.of_nat (size (variants Example.open Example.resample ["a"]).2)))%Q) ∧
  (total_weight ts (variants Example.open Example.resample ["a"]).2 == 4)%Q.
Proof.
  apply (weight_conservation Example.open Example.resample elements TileSet_new ["a"] 4 ts).
  - done.
  - exact catalog_loads.
Defined.

Lemma symmetry_collapse_witness :
  size (variants Example.open Example.resample ["a"]).2 = 8%nat ∧
  size (variants Example.open Example.resample ["u"]).2 = 1%nat.
Proof.
  split.
  - exact (proj2 (proj2 (proj2 (proj2 (proj2
             (symmetry_collapse Example.open Example.resample ["a"])))))
             example_square example_no_invariance).
  - exact (proj1 (proj2 (proj2 (proj2 (proj2
             (symmetry_collapse Example.open Example.resample ["u"])))))
             example_invariant).
Defined.

Lemma loop_step_adds_one_witness :
  ∃ coord tile,
    placed seeded !! coord = None ∧
    placed (step_at 2 2 seeded tt).1.2 = <[coord := tile]> (placed seeded) ∧
    size (placed (step_at 2 2 seeded tt).1.2) = S (size (placed seeded)) ∧
    ∀ c t, placed seeded !! c = Some t → placed (step_at 2 2 seeded tt).1.2 !! c = Some t.
Proof.
  apply (loop_step_adds_one Example.open Example.resample elements unit Example.rng_choices
           2 2 ts seeded tt (step_at 2 2 seeded tt).1.2 (step_at 2 2 seeded tt).2).
  - exact (rtc_once _ _ (place_step_call Example.open Example.resample 2 2 (0, 0) a0
                                         (mkState ∅ [] ts))).
  - apply (run_eta (step_at 2 2 seeded tt)). vm_compute. reflexivity.
Defined.

Lemma generate_image_weights_found_witness : (run 2 2 None).1.1 ≠ Raise (KeyError a0).
Proof.
  apply (generate_image_weights_found Example.open Example.resample elements unit
           Example.Random Example.rng_choice Example.rng_choices 2 2 catalog ts None None a0).
  - done.
  - exact catalog_loads.
Defined.

Lemma load_sizes_witness :
  (∀ p w, (p, w) ∈ catalog → tile_width ts = Some (Image.width (Example.open p))) ∧
  tile_height ts = (λ pw, Image.height (Example.open pw.1)) <$> head catalog ∧
  (catalog = [] → tile_width ts = None).
Proof.
  exact (load_sizes Example.open Example.resample elements catalog ts catalog_loads).
Defined.

Lemma add_tile_len_witness :
  dom (tiles ts) = dom (tiles TileSet_new) ∪ (variants Example.open Example.resample ["a"]).2 ∧
  (1 ≤ size (variants Example.open Example.resample ["a"]).2 ≤ 8)%nat ∧
  (TileSet_len TileSet_new ≤ TileSet_len ts ≤ TileSet_len TileSet_new + 8)%nat ∧
  (TileSet_len TileSet_new = 0%nat →
   TileSet_len ts = size (variants Example.open Example.resample ["a"]).2).
Proof.
  apply (add_tile_len Example.open Example.resample elements TileSet_new ["a"] 4 ts).
  - done.
  - exact catalog_loads.
Defined.

Lemma match_border_exact_witness :
  a0 ∈ (match_border ts (border_at a0 0) 0).1 ↔
  is_Some (tiles ts !! a0) ∧ border_at a0 0 = border_at a0 0.
Proof.
  apply (match_border_exact Example.open Example.resample elements catalog ts
           (border_at a0 0) 0%nat a0).
  - exact catalog_loads.
  - lia.
Defined.


Lemma neighbors_mutual_witness :
  (3%nat, (0, 1)) ∈ neighbors (0, 0) 2 2 ↔
  in_grid 2 2 (0, 1) ∧ (((3 + 2) mod 4)%nat, (0, 0)) ∈ neighbors (0, 1) 2 2.
Proof.
  apply (neighbors_mutual 2 2 (0, 0) 3%nat (0, 1)).
  - unfold in_grid. simpl. lia.
  - lia.
Defined.

Lemma generate_image_isolated_seeds_witness :
  run 1 1 (Some [((0, 0), a0)]) =
  (if decide (Z.of_nat (size (seed_map [((0, 0), a0)])) < 1 * 1)
   then Raise EmptyFrontier else Return,
   mkState (seed_map [((0, 0), a0)]) [] ts, default (Example.Random 8675309) None).
Proof.
  apply (generate_image_isolated_seeds Example.open Example.resample elements unit
           Example.Random Example.rng_choice Example.rng_choices 1 1 ts
           [((0, 0), a0)] None).
  intros item ->%list_elem_of_singleton. reflexivity.
Defined.

Lemma generate_image_fills_grid_witness :
  (∀ c, is_Some (placed (run 2 2 None).1.2 !! c) ↔ in_grid 2 2 c) ∧
  size (placed (run 2 2 None).1.2) = Z.to_nat (2 * 2) ∧
  frontier (run 2 2 None).1.2 = [].
Proof.
  apply (generate_image_fills_grid Example.open Example.resample elements unit
           Example.Random Example.rng_choice Example.rng_choices 2 2 ts None None
           (run 2 2 None).1.2 (run 2 2 None).2).
  - intros c ->%list_elem_of_singleton. unfold in_grid. simpl. lia.
  - apply (run_eta (run 2 2 None)). vm_compute. reflexivity.
Defined.

Lemma generate_image_frontier_found_witness : (run 2 2 None).1.1 ≠ Raise EmptyFrontier.
Proof.
  apply (generate_image_frontier_found Example.open Example.resample elements unit
           Example.Random Example.rng_choice Example.rng_choices 2 2 ts None None (0, 0)).
  - left.
  - unfold in_grid. simpl. lia.
Defined.

Lemma border_quarter_turn_witness :
  border_at (mkTile ["a"] false (0 + 1)) 0 = border_at (mkTile ["a"] false 0) 3 ∧
  border_at (mkTile ["a"] false (0 + 1)) 1 = reverse (border_at (mkTile ["a"] false 0) 0) ∧
  border_at (mkTile ["a"] false (0 + 1)) 2 = border_at (mkTile ["a"] false 0) 1 ∧
  border_at (mkTile ["a"] false (0 + 1)) 3 = reverse (border_at (mkTile ["a"] false 0) 2).
Proof.
  apply (border_quarter_turn Example.open Example.resample ["a"] false 0).
  - exact example_square.
  - left.
Defined.

Lemma border_mirror_witness :
  border_at (mkTile ["a"] true 1) 0 =
  reverse (border_at (mkTile ["a"] false ((4 - 1) mod 4)) 0) ∧
  border_at (mkTile ["a"] true 1) 1 = border_at (mkTile ["a"] false ((4 - 1) mod 4)) 3 ∧
  border_at (mkTile ["a"] true 1) 2 =
  reverse (border_at (mkTile ["a"] false ((4 - 1) mod 4)) 2) ∧
  border_at (mkTile ["a"] true 1) 3 = border_at (mkTile ["a"] false ((4 - 1) mod 4)) 1.
Proof.
  apply (border_mirror Example.open Example.resample ["a"] 1).
  - exact example_square.
  - right. left.
Defined.

Lemma sorted_spec_witness :
  sorted elements (dom (tiles ts)) ≡ₚ elements (dom (tiles ts)) ∧
  StronglySorted Tile_lt (sorted elements (dom (tiles ts))) ∧
  ∀ l, l ≡ₚ elements (dom (tiles ts)) → StronglySorted Tile_lt l →
       l = sorted elements (dom (tiles ts)).
Proof.
  apply (sorted_spec elements (dom (tiles ts))). done.
Defined.

Lemma example_catalog_square p w : (p, w) ∈ catalog → Image.square (Example.open p).
Proof.
  intros Hin%list_elem_of_singleton. injection Hin as -> _. exact example_square.
Qed.

Lemma example_registered : is_Some (tiles ts !! a0).
Proof. apply is_Some_true. vm_compute. reflexivity. Qed.

Lemma registered_tile_fits_witness :
  ∃ t', t' ∈ (match_border ts (border_at a0 3) ((3 + 2) mod 4)%nat).1 ∧
        is_Some (tiles ts !! t') ∧ path t' = path a0 ∧
        border_at t' ((3 + 2) mod 4)%nat = border_at a0 3.
Proof.
  apply (registered_tile_fits Example.open Example.resample elements catalog ts a0 3%nat).
  - done.
  - exact catalog_loads.
  - exact example_catalog_square.
  - exact example_registered.
  - lia.
Defined.

Lemma place_on_empty_frontier_returns_witness :
  (place Example.open Example.resample 2 2 (0, 0) a0 (mkState ∅ [] ts)).1 = Return.
Proof.
  apply (place_on_empty_frontier_returns Example.open Example.resample elements 2 2
           catalog ts ∅ (0, 0) a0).
  - done.
  - exact catalog_loads.
  - exact example_catalog_square.
  - exact example_registered.
Defined.
